(** * fglib.graphs: factor graphs and their construction from NetworkX graphs

    A shallow embedding of [fglib/graphs.py]: the class [FactorGraph]
    (a subclass of [networkx.Graph], NetworkX 1.x API) and the function
    [convert_to_fg].

    Python objects live in a store, as in the source: graph objects are
    addressed by reference, so that a method call mutates the object it is
    called on and nothing else, and every node instance has a [graph]
    attribute that [set_node] assigns.  Dictionaries whose iteration order
    the code observes ([Graph.node], [Graph.adj], [mapping]) are insertion
    ordered association lists; attribute dictionaries, whose order is never
    observed, are finite maps. *)

From Stdlib Require Import ZArith Lia.
From stdpp Require Import base list gmap strings.

Set Warnings "-clear-no-such-hyp".

Open Scope string_scope.
Open Scope list_scope.

(** ** Python values *)

(** Modelled from the spec: [nodes.NodeType], the discriminator of the
    module [nodes] (variable | factor); the module is not part of the
    sources at hand. *)
Inductive NodeType := variable_node | factor_node.

Global Instance NodeType_eq_dec : EqDecision NodeType.
Proof. solve_decision. Defined.

(** A hashable Python object used as a graph node.  [Plain k] is an immutable
    builtin (an [int], say): it has no [type] attribute and rejects attribute
    assignment.  [Inst a ty] is a class instance with identity [a]; [ty] is
    its [type] attribute, immutable after creation, [None] when the instance
    has none. *)
Inductive Node :=
| Plain (k : Z)
| Inst (a : nat) (ty : option NodeType).

Global Instance Node_eq_dec : EqDecision Node.
Proof. solve_decision. Defined.

(** Modelled from the spec: [edges.Edge], constructed from (source, target,
    optional initial message) and carrying a message slot; the module [edges]
    is not part of the sources at hand. *)
Record Edge := mkEdge { snode : Node; tnode : Node; message : option Z }.

Inductive value :=
| VNone
| VBool (b : bool)
| VInt (z : Z)
| VStr (s : string)
| VType (t : NodeType)
| VNode (n : Node)
| VEdge (e : Edge).

(** Attribute dictionaries (keyword arguments, node and edge data). *)
Abbreviation attrs := (gmap string value).

(** The exceptions that can be raised.  [ReferenceError] stands for
    dereferencing an address at which the store has no graph: Python code
    cannot do that, it only makes [read_graph] and [write_graph] total. *)
Inductive exn :=
| KeyError (k : value)
| AttributeError (name : string)
| IndexError
| ReferenceError.

Inductive result (A : Type) :=
| Ok (a : A)
| Raise (e : exn).
Arguments Ok {A} a.
Arguments Raise {A} e.

Definition rbind {A B} (r : result A) (k : A → result B) : result B :=
  match r with Ok a => k a | Raise e => Raise e end.

(** [v == z] for an integer literal [z]: Python's [False == 0] and
    [True == 1] hold. *)
Definition eq_int (v : value) (z : Z) : bool :=
  match v with
  | VInt y => bool_decide (y = z)
  | VBool b => bool_decide ((if b then 1 else 0)%Z = z)
  | _ => false
  end.

(** [v == nodes.NodeType.t]: enumeration members are equal only to
    themselves. *)
Definition eq_type (v : value) (t : NodeType) : bool :=
  match v with
  | VType t' => bool_decide (t' = t)
  | _ => false
  end.

(** The [type] attribute of an object, if it has one. *)
Definition node_type (n : Node) : option NodeType :=
  match n with
  | Inst _ ty => ty
  | Plain _ => None
  end.

(** [node.type] *)
Definition getattr_type (n : Node) : result NodeType :=
  match node_type n with
  | Some t => Ok t
  | None => Raise (AttributeError "type")
  end.

(** ** Insertion-ordered dictionaries *)

Module Dict.
Section dict.
Context {K V : Type} `{EqDecision K}.

Fixpoint get (d : list (K * V)) (k : K) : option V :=
  match d with
  | [] => None
  | (k', v) :: r => if decide (k = k') then Some v else get r k
  end.

(** [d[k] = v]: in place when [k] is a key, appended otherwise. *)
Fixpoint set (d : list (K * V)) (k : K) (v : V) : list (K * V) :=
  match d with
  | [] => [(k, v)]
  | (k', v') :: r =>
      if decide (k = k') then (k', v) :: r else (k', v') :: set r k v
  end.

(** [d[k] = f(d[k])] for a key that is present; nothing happens here
    when it is absent (Python raises KeyError there). *)
Fixpoint alter (f : V → V) (k : K) (d : list (K * V)) : list (K * V) :=
  match d with
  | [] => []
  | (k', v) :: r =>
      if decide (k = k') then (k', f v) :: r else (k', v) :: alter f k r
  end.

Definition keys (d : list (K * V)) : list K := d.*1.

(** [k in d] *)
Definition mem (d : list (K * V)) (k : K) : bool := bool_decide (k ∈ keys d).

(** [d.update(kvs)] *)
Definition update (d : list (K * V)) (kvs : list (K * V)) : list (K * V) :=
  foldl (λ d kv, set d kv.1 kv.2) d kvs.

(** [dict(kvs)] *)
Definition of_pairs (kvs : list (K * V)) : list (K * V) := update [] kvs.
End dict.
End Dict.

(** [l.pop()] *)
Definition list_pop {A} (l : list A) : result (A * list A) :=
  match reverse l with
  | [] => Raise IndexError
  | x :: r => Ok (x, reverse r)
  end.

(** ** networkx.Graph (NetworkX 1.x)

    The base class is a library, modelled from its 1.x sources: [add_node]
    takes the attribute dictionary as second argument, [nodes()] and
    [edges()] return lists, [edges_iter] exists, [set_node_attributes] takes
    (G, name, values).  [node] and [adj] iterate in insertion order, and
    are kept in step by every method (lemmas [wf_add_node], [wf_add_edge]):
    where Python would raise KeyError on an [adj] that lacks a key of
    [node], [Dict.alter] does nothing. *)

Abbreviation adjlist := (list (Node * attrs)).

Record Graph := mkGraph {
  graph : attrs;                      (* G.graph: graph attributes *)
  node : list (Node * attrs);         (* G.node: node -> attribute dict *)
  adj : list (Node * adjlist)         (* G.adj: node -> neighbour -> edge data *)
}.

Module NX.

(** [Graph()] *)
Definition empty : Graph := mkGraph ∅ [] [].

(** [n in G.node] *)
Definition has_node (G : Graph) (n : Node) : bool := Dict.mem (node G) n.

(** [G.has_edge(u, v)]: [v in G.adj[u]] *)
Definition has_edge (G : Graph) (u v : Node) : bool :=
  match Dict.get (adj G) u with
  | Some nbrs => Dict.mem nbrs v
  | None => false
  end.

(** [G.nodes()] and [G.nodes(data=True)] *)
Definition nodes (G : Graph) : list Node := Dict.keys (node G).
Definition nodes_data (G : Graph) : list (Node * attrs) := node G.

Definition number_of_nodes (G : Graph) : nat := length (node G).

(** [G.add_node(n, attr_dict)]; keyword attributes are merged into
    [attr_dict] by the caller. *)
Definition add_node (G : Graph) (n : Node) (attr_dict : attrs) : Graph :=
  if has_node G n
  then mkGraph (graph G) (Dict.alter (λ d, attr_dict ∪ d) n (node G)) (adj G)
  else mkGraph (graph G) (Dict.set (node G) n attr_dict) (Dict.set (adj G) n []).

(** The two assignments [adj[u][v] = dd; adj[v][u] = dd]. *)
Definition link (u v : Node) (dd : attrs) (a : list (Node * adjlist))
  : list (Node * adjlist) :=
  Dict.alter (λ nb, Dict.set nb u dd) v
    (Dict.alter (λ nb, Dict.set nb v dd) u a).

(** [G.add_edge(u, v, attr_dict)]: missing end points are inserted with an
    empty attribute dictionary, then the edge data is updated on both
    sides. *)
Definition add_edge (G : Graph) (u v : Node) (attr_dict : attrs) : Graph :=
  let G1 := if has_node G u then G else
    mkGraph (graph G) (Dict.set (node G) u ∅) (Dict.set (adj G) u []) in
  let G2 := if has_node G1 v then G1 else
    mkGraph (graph G1) (Dict.set (node G1) v ∅) (Dict.set (adj G1) v []) in
  let old := default ∅ (Dict.get (adj G2) u ≫= λ nb, Dict.get nb v) in
  mkGraph (graph G2) (node G2) (link u v (attr_dict ∪ old) (adj G2)).

(** [G.edges_iter(data=True)]: every pair is reported from the end point
    that comes first in [G.adj]; [seen] holds the nodes already done. *)
Fixpoint edges_from (seen : list Node) (a : list (Node * adjlist))
  : list (Node * Node * attrs) :=
  match a with
  | [] => []
  | (n, nbrs) :: rest =>
      ((λ p : Node * attrs, (n, p.1, p.2)) <$>
         filter (λ p : Node * attrs, p.1 ∉ seen) nbrs)
      ++ edges_from (n :: seen) rest
  end.

Definition edges_iter_data (G : Graph) : list (Node * Node * attrs) :=
  edges_from [] (adj G).

(** [G.edges_iter()], [G.edges()] *)
Definition edges_iter (G : Graph) : list (Node * Node) :=
  (λ e : Node * Node * attrs, (e.1.1, e.1.2)) <$> edges_iter_data G.
Definition edges (G : Graph) : list (Node * Node) := edges_iter G.

(** [G.degree()]: a self-loop counts twice. *)
Definition degree_of (e : Node * adjlist) : nat :=
  length e.2 + (if Dict.mem e.2 e.1 then 1 else 0).

Definition sum_degree (G : Graph) : nat := sum_list_with degree_of (adj G).

(** [G.number_of_edges()]: [int(sum(G.degree().values()) / 2)] *)
Definition number_of_edges (G : Graph) : nat := sum_degree G `div` 2.

(** [G.add_edges_from(ebunch)] for triples (u, v, data) *)
Definition add_edges_from (G : Graph) (ebunch : list (Node * Node * attrs)) : Graph :=
  foldl (λ H e, add_edge H e.1.1 e.1.2 e.2) G ebunch.

(** [G.add_nodes_from(ns)] *)
Definition add_nodes_from (G : Graph) (ns : list Node) : Graph :=
  foldl (λ H n, add_node H n ∅) G ns.

(** [nx.relabel_nodes(G, mapping)] with [copy=True], for [G] an instance
    of [networkx.Graph] itself: a new graph [G.__class__()] is built from
    the relabelled edges, then the relabelled nodes, then the node data;
    the graph attributes are copied last (which overwrites the bracketed
    name set at the start). *)
Definition relabel_nodes (G : Graph) (mapping : list (Node * Node)) : Graph :=
  let m := λ n, default n (Dict.get mapping n) in
  let H1 := add_edges_from empty
              ((λ e : Node * Node * attrs, (m e.1.1, m e.1.2, e.2)) <$> edges_iter_data G) in
  let H2 := add_nodes_from H1 (m <$> nodes G) in
  let data := Dict.of_pairs ((λ p : Node * attrs, (m p.1, p.2)) <$> node G) in
  mkGraph (graph G) (Dict.update (node H2) data) (adj H2).

(** [nx.set_node_attributes(G, name, values)]:
    [for n, v in values.items(): G.node[n][name] = v] *)
Fixpoint set_node_attributes (G : Graph) (name : string)
    (values : list (Node * value)) : result Graph :=
  match values with
  | [] => Ok G
  | (n, v) :: r =>
      if has_node G n
      then set_node_attributes
             (mkGraph (graph G) (Dict.alter (λ d, <[name := v]> d) n (node G)) (adj G))
             name r
      else Raise (KeyError (VNode n))
  end.

End NX.

(** ** The object store and the monad of Python computations *)

Record Store := mkStore {
  graphs : list Graph;             (* graph objects; a reference is an index *)
  node_graph : list (Node * nat)   (* the [graph] attribute of node instances *)
}.

(** A computation reads and writes the store, and returns or raises. *)
Definition M (A : Type) : Type := Store → result (A * Store).

Definition ret {A} (a : A) : M A := λ s, Ok (a, s).

Definition bind {A B} (c : M A) (k : A → M B) : M B :=
  λ s, match c s with
       | Ok (a, s') => k a s'
       | Raise e => Raise e
       end.

Declare Scope py_scope.
Delimit Scope py_scope with py.
Notation "x <- c ;; k" := (bind c (λ x, k))
  (at level 100, c at next level, right associativity) : py_scope.
Notation "c ;;; k" := (bind c (λ _, k))
  (at level 100, right associativity) : py_scope.
Open Scope py_scope.

Definition lift {A} (r : result A) : M A :=
  λ s, match r with Ok a => Ok (a, s) | Raise e => Raise e end.

(** Dereference a graph object. *)
Definition read_graph (g : nat) : M Graph :=
  λ s, match graphs s !! g with
       | Some G => Ok (G, s)
       | None => Raise ReferenceError
       end.

(** Mutate the graph object at [g] in place. *)
Definition write_graph (g : nat) (G : Graph) : M unit :=
  λ s, match graphs s !! g with
       | Some _ => Ok (tt, mkStore (<[g := G]> (graphs s)) (node_graph s))
       | None => Raise ReferenceError
       end.

(** Allocate a new graph object. *)
Definition alloc_graph (G : Graph) : M nat :=
  λ s, Ok (length (graphs s), mkStore (graphs s ++ [G]) (node_graph s)).

(** [node.graph = g] *)
Definition setattr_graph (n : Node) (g : nat) : M unit :=
  λ s, match n with
       | Inst _ _ => Ok (tt, mkStore (graphs s) (Dict.set (node_graph s) n g))
       | Plain _ => Raise (AttributeError "graph")
       end.

(** [for x in l: body(x)] *)
Fixpoint for_ {A} (l : list A) (body : A → M unit) : M unit :=
  match l with
  | [] => ret tt
  | x :: r => body x ;;; for_ r body
  end.

(** [d[k]] on an attribute dictionary *)
Definition item (d : attrs) (k : string) : result value :=
  match d !! k with
  | Some v => Ok v
  | None => Raise (KeyError (VStr k))
  end.

(** [[n for (n, d) in l if test(d)]] *)
Fixpoint select (test : attrs → result bool) (l : list (Node * attrs))
  : result (list Node) :=
  match l with
  | [] => Ok []
  | (n, d) :: r =>
      rbind (test d) (λ b,
      rbind (select test r) (λ rest,
      Ok (if b : bool then n :: rest else rest)))
  end.

(** ** class FactorGraph(nx.Graph) *)

(** [FactorGraph()]: [__init__] hands [self] (still empty) to the base
    class as initial data and sets the name. *)
Definition FactorGraph : M nat :=
  alloc_graph (mkGraph {["name" := VStr "Factor Graph"]} [] []).

Definition set_node (self : nat) (n : Node) (attr : attrs) : M unit :=
  setattr_graph n self ;;;
  t <- lift (getattr_type n) ;;
  G <- read_graph self ;;
  write_graph self (NX.add_node G n (<["type" := VType t]> attr)).

Definition set_nodes (self : nat) (nodes : list Node) : M unit :=
  for_ nodes (λ n, set_node self n ∅).

Definition set_edge (self : nat) (snode tnode : Node) (init : option Z) : M unit :=
  G <- read_graph self ;;
  write_graph self
    (NX.add_edge G snode tnode {["object" := VEdge (mkEdge snode tnode init)]}).

Definition set_edges (self : nat) (edges : list (Node * Node)) : M unit :=
  for_ edges (λ e, set_edge self e.1 e.2 None).

Definition get_vnodes (self : nat) : M (list Node) :=
  G <- read_graph self ;;
  lift (select (λ d, rbind (item d "type") (λ v, Ok (eq_type v variable_node)))
               (NX.nodes_data G)).

Definition get_fnodes (self : nat) : M (list Node) :=
  G <- read_graph self ;;
  lift (select (λ d, rbind (item d "type") (λ v, Ok (eq_type v factor_node)))
               (NX.nodes_data G)).

(** ** convert_to_fg *)

(** [mapping.update((n, obj_box.pop()) for n in ns)]: the generator pops one
    object per node, from the end of [obj_box]. *)
Fixpoint update_pop (mapping : list (Node * Node)) (ns : list Node)
    (obj_box : list Node) : result (list (Node * Node) * list Node) :=
  match ns with
  | [] => Ok (mapping, obj_box)
  | n :: r =>
      rbind (list_pop obj_box) (λ ob,
      update_pop (Dict.set mapping n ob.1) r ob.2)
  end.

(** [graph = nx.relabel_nodes(graph, mapping)]: the copy is a new object. *)
Definition relabel_nodes (graph : nat) (mapping : list (Node * Node)) : M nat :=
  G <- read_graph graph ;;
  alloc_graph (NX.relabel_nodes G mapping).

(** [nx.set_node_attributes(fgraph, name, values)] on a graph object *)
Definition set_node_attributes (g : nat) (name : string)
    (values : list (Node * value)) : M unit :=
  G <- read_graph g ;;
  G' <- lift (NX.set_node_attributes G name values) ;;
  write_graph g G'.

Section convert.
(** The two node factories: [vnode(i)] and [fnode(i, payload)]. *)
Variable vnode : nat → Node.
Variable fnode : nat → value → Node.

(** [d['bipartite'] == z] *)
Definition part_is (z : Z) (d : attrs) : result bool :=
  rbind (item d "bipartite") (λ v, Ok (eq_int v z)).

(** The loop of the non-bipartite branch: one factor node per edge, the
    index popped from [i], and the two edges through it. *)
Fixpoint factor_loop (fgraph : nat) (es : list (Node * Node)) (i : list nat)
  : M unit :=
  match es with
  | [] => ret tt
  | e :: r =>
      ki <- lift (list_pop i) ;;
      let n := fnode ki.1 VNone in
      set_node fgraph n ∅ ;;;
      set_edges fgraph [(e.1, n); (n, e.2)] ;;;
      factor_loop fgraph r ki.2
  end.

Definition convert_to_fg (graph : nat) (bipartite : bool) : M nat :=
  G <- read_graph graph ;;
  let mapping := Dict.of_pairs (zip (NX.nodes G) (NX.nodes G)) in
  fgraph <- FactorGraph ;;
  mapping <-
    (if bipartite then
       G <- read_graph graph ;;
       vn <- lift (select (part_is 0) (NX.nodes_data G)) ;;
       fn <- lift (select (part_is 1) (NX.nodes_data G)) ;;
       let obj_box := vnode <$> seq 0 (length vn) in
       mb <- lift (update_pop mapping vn obj_box) ;;
       let mapping := mb.1 in
       let obj_box := (λ i, fnode i VNone) <$> seq 0 (length fn) in
       mb <- lift (update_pop mapping fn obj_box) ;;
       let mapping := mb.1 in
       graph <- relabel_nodes graph mapping ;;
       H <- read_graph graph ;;
       set_nodes fgraph (NX.nodes H) ;;;
       set_edges fgraph (NX.edges H) ;;;
       ret mapping
     else
       G <- read_graph graph ;;
       let obj_box := vnode <$> seq 0 (NX.number_of_nodes G) in
       mb <- lift (update_pop mapping (NX.nodes G) obj_box) ;;
       let mapping := mb.1 in
       graph <- relabel_nodes graph mapping ;;
       H <- read_graph graph ;;
       set_nodes fgraph (NX.nodes H) ;;;
       let i := seq 0 (NX.number_of_edges H) in
       factor_loop fgraph (NX.edges_iter H) i ;;;
       ret mapping) ;;
  let origin := Dict.of_pairs ((λ kv : Node * Node, (kv.2, VNode kv.1)) <$> mapping) in
  set_node_attributes fgraph "origin" origin ;;;
  ret fgraph.

End convert.

(** * Vocabulary of the statements *)

(** ** Views of a graph *)

(** [l] with [k] appended unless it is there: the keys after [d[k] = v]. *)
Definition add_key (l : list Node) (k : Node) : list Node :=
  if decide (k ∈ l) then l else l ++ [k].

(** The neighbours of [x], in the order of [G.adj[x]]; none for a node
    that is not in the graph. *)
Definition nbr_keys (G : Graph) (x : Node) : list Node :=
  match Dict.get (adj G) x with
  | Some nb => Dict.keys nb
  | None => []
  end.

(** What every graph built through the NetworkX interface satisfies: [node]
    and [adj] have the same keys, adjacency is symmetric and closed, and no
    key occurs twice. *)
Record wf (G : Graph) : Prop := mk_wf {
  wf_keys : Dict.keys (adj G) = Dict.keys (node G);
  wf_nodup : NoDup (Dict.keys (node G));
  wf_nbrs_nodup : ∀ x, NoDup (nbr_keys G x);
  wf_closed : ∀ x y, y ∈ nbr_keys G x → y ∈ NX.nodes G;
  wf_sym : ∀ x y, y ∈ nbr_keys G x → x ∈ nbr_keys G y
}.

(** The graph after [add_edge] has inserted the missing end points. *)
Definition with_ends (G : Graph) (u v : Node) : Graph :=
  let G1 := if NX.has_node G u then G else
    mkGraph (graph G) (Dict.set (node G) u ∅) (Dict.set (adj G) u []) in
  if NX.has_node G1 v then G1 else
    mkGraph (graph G1) (Dict.set (node G1) v ∅) (Dict.set (adj G1) v []).

(** The pairs [edges_iter] reports, from the neighbour function alone. *)
Fixpoint pairs_from (nb : Node → list Node) (seen ks : list Node)
  : list (Node * Node) :=
  match ks with
  | [] => []
  | n :: r =>
      ((λ y, (n, y)) <$> filter (λ y, y ∉ seen) (nb n))
      ++ pairs_from nb (n :: seen) r
  end.

(** The degree of [x]: a self-loop counts twice. *)
Definition deg (G : Graph) (x : Node) : nat :=
  length (nbr_keys G x) + (if decide (x ∈ nbr_keys G x) then 1 else 0).

(** Two pairs that denote the same undirected edge. *)
Definition same_edge (e e' : Node * Node) : Prop := e = e' ∨ e = (e'.2, e'.1).

Fixpoint distinct_edges (es : list (Node * Node)) : Prop :=
  match es with
  | [] => True
  | e :: r => (∀ e', e' ∈ r → ¬ same_edge e e') ∧ distinct_edges r
  end.

(** [for n in ns: G.add_node(n, f(n))] *)
Definition add_nodes_with (f : Node → attrs) (G : Graph) (ns : list Node) : Graph :=
  foldl (λ H n, NX.add_node H n (f n)) G ns.

(** [mapping.get(n, n)] *)
Definition relabel_fun (mapping : list (Node * Node)) (n : Node) : Node :=
  default n (Dict.get mapping n).

(** ** What the methods store and test *)

(** The attributes [set_node] stores for a node inserted without keywords. *)
Definition type_attrs (n : Node) : attrs :=
  match node_type n with
  | Some t => <["type" := VType t]> ∅
  | None => ∅
  end.

(** The edge and the data [set_edge] stores for it. *)
Definition edge_obj (e : Node * Node) : Node * Node * attrs :=
  (e.1, e.2, {["object" := VEdge (mkEdge e.1 e.2 None)]}).

(** The [type] stored for [x] in [G], and the [origin]. *)
Definition type_in (G : Graph) (x : Node) : option value :=
  Dict.get (node G) x ≫= λ d, d !! "type".

Definition origin_in (G : Graph) (x : Node) : option value :=
  Dict.get (node G) x ≫= λ d, d !! "origin".

(** [d['type'] == nodes.NodeType.t], and its value when the key is there. *)
Definition type_test (t : NodeType) (d : attrs) : result bool :=
  rbind (item d "type") (λ v, Ok (eq_type v t)).

Definition has_type (t : NodeType) (d : attrs) : bool :=
  match d !! "type" with Some v => eq_type v t | None => false end.

(** The value of [d['bipartite'] == z] when the key is there. *)
Definition has_part (z : Z) (d : attrs) : bool :=
  match d !! "bipartite" with Some v => eq_int v z | None => false end.

(** The nodes of part [z], in the order of the node dictionary. *)
Definition part_nodes (z : Z) (l : list (Node * attrs)) : list Node :=
  (filter (λ p : Node * attrs, has_part z p.2 = true) l).*1.

(** The node dictionary after [set_node_attributes(G, name, values)]. *)
Definition with_attribute (name : string) (values : list (Node * value))
    (nd : list (Node * attrs)) : list (Node * attrs) :=
  (λ p : Node * attrs,
     (p.1, match Dict.get values p.1 with
           | Some v => <[name := v]> p.2
           | None => p.2
           end)) <$> nd.

(** ** The parts of convert_to_fg *)

(** The dictionary [convert_to_fg] relabels with: the identity on [ns],
    then the nodes of [vn] to variable nodes, then those of [fn] to factor
    nodes, each list served from the end of its box. *)
Definition mapping_of (vnode : nat → Node) (fnode : nat → value → Node)
    (ns vn fn : list Node) : list (Node * Node) :=
  Dict.update
    (Dict.update (Dict.of_pairs (zip ns ns))
                 (zip vn (reverse (vnode <$> seq 0 (length vn)))))
    (zip fn (reverse ((λ i, fnode i VNone) <$> seq 0 (length fn)))).

(** What [factor_loop] leaves in the factor graph: the edge at position [k]
    of [es] gets the factor node of index [length es - 1 - k]. *)
Fixpoint put_factors (fnode : nat → value → Node) (G : Graph)
    (es : list (Node * Node)) : Graph :=
  match es with
  | [] => G
  | e :: r =>
      let n := fnode (length r) VNone in
      put_factors fnode
        (NX.add_edges_from (NX.add_node G n (type_attrs n))
           (edge_obj <$> [(e.1, n); (n, e.2)])) r
  end.

(** What is assumed of the factories: each call returns a new instance of
    the right type, different from every other one and from the nodes of
    the input graph. *)
Record factories_ok (vnode : nat → Node) (fnode : nat → value → Node)
    (G : Graph) : Prop := mk_factories_ok {
  vnode_typed : ∀ i, node_type (vnode i) = Some variable_node;
  fnode_typed : ∀ i, node_type (fnode i VNone) = Some factor_node;
  vnode_inj : ∀ i j, vnode i = vnode j → i = j;
  fnode_inj : ∀ i j, fnode i VNone = fnode j VNone → i = j;
  vnode_fresh : ∀ i, vnode i ∉ NX.nodes G;
  fnode_fresh : ∀ i, fnode i VNone ∉ NX.nodes G
}.

(** Every node carries the part label. *)
Definition labelled (G : Graph) : Prop :=
  ∀ n d, (n, d) ∈ node G → is_Some (d !! "bipartite").

(** A node in neither part is an instance with a [type] of its own. *)
Definition kept_typed (G : Graph) : Prop :=
  ∀ n d, (n, d) ∈ node G → has_part 0 d = false → has_part 1 d = false →
         is_Some (node_type n).

(** The input is bipartite as labelled: every node is in part 0 or in
    part 1, and every edge joins the two parts. *)
Definition two_parts (G : Graph) : Prop :=
  ∀ n d, (n, d) ∈ node G → has_part 0 d = true ∨ has_part 1 d = true.

Definition crossing (G : Graph) : Prop :=
  ∀ u v du dv, NX.has_edge G u v = true → (u, du) ∈ node G → (v, dv) ∈ node G →
               has_part 0 du ≠ has_part 0 dv.

(** The graph [FactorGraph()] creates. *)
Definition FG0 : Graph := mkGraph {["name" := VStr "Factor Graph"]} [] [].

(** The two lists of nodes that get new instances, by mode. *)
Definition conv_vn (b : bool) (G : Graph) : list Node :=
  if b then part_nodes 0 (node G) else NX.nodes G.

Definition conv_fn (b : bool) (G : Graph) : list Node :=
  if b then part_nodes 1 (node G) else [].

Section conv_defs.
Variable vnode : nat → Node.
Variable fnode : nat → value → Node.

Definition conv_mapping (b : bool) (G : Graph) : list (Node * Node) :=
  mapping_of vnode fnode (NX.nodes G) (conv_vn b G) (conv_fn b G).

(** The relabelled copy of the input. *)
Definition conv_H (b : bool) (G : Graph) : Graph :=
  NX.relabel_nodes G (conv_mapping b G).

(** The factor graph before the origins are attached. *)
Definition conv_out0 (b : bool) (G : Graph) : Graph :=
  let H := conv_H b G in
  let fg1 := add_nodes_with type_attrs FG0 (NX.nodes H) in
  if b then NX.add_edges_from fg1 (edge_obj <$> NX.edges H)
  else put_factors fnode fg1 (NX.edges_iter H).

Definition conv_origin (b : bool) (G : Graph) : list (Node * value) :=
  Dict.of_pairs ((λ kv : Node * Node, (kv.2, VNode kv.1)) <$> conv_mapping b G).

(** The factor graph [convert_to_fg] returns. *)
Definition conv_out (b : bool) (G : Graph) : Graph :=
  let out0 := conv_out0 b G in
  mkGraph (graph out0) (with_attribute "origin" (conv_origin b G) (node out0)) (adj out0).

End conv_defs.

(** A computation that may write graph objects only at addresses [n] and
    above, and never frees one. *)
Definition preserves (n : nat) {A} (c : M A) : Prop :=
  ∀ s a s', (n ≤ length (graphs s))%nat → c s = Ok (a, s') →
            take n (graphs s') = take n (graphs s)
            ∧ (length (graphs s) ≤ length (graphs s'))%nat.

(** ** Concrete inputs *)

(** Node factories: fresh instances, variable nodes at even addresses and
    factor nodes at odd ones. *)
Definition vnode0 (i : nat) : Node := Inst (2 * i) (Some variable_node).
Definition fnode0 (i : nat) (_ : value) : Node := Inst (2 * i + 1) (Some factor_node).

(** The path a - b - c on plain nodes (scenario A). *)
Definition path3 : Graph :=
  NX.add_edge (NX.add_edge NX.empty (Plain 1) (Plain 2) ∅) (Plain 2) (Plain 3) ∅.

(** A single edge a - b. *)
Definition edge2 : Graph := NX.add_edge NX.empty (Plain 1) (Plain 2) ∅.

(** Two variable-side nodes joined to one factor-side node (scenario B). *)
Definition two_to_one : Graph :=
  NX.add_edge
    (NX.add_edge
       (NX.add_node
          (NX.add_node
             (NX.add_node NX.empty (Plain 1) {["bipartite" := VInt 0]})
             (Plain 2) {["bipartite" := VInt 0]})
          (Plain 3) {["bipartite" := VInt 1]})
       (Plain 1) (Plain 3) ∅)
    (Plain 2) (Plain 3) ∅.

(** One plain node with a part label that is neither 0 nor 1. *)
Definition odd_label : Graph :=
  NX.add_node NX.empty (Plain 7) {["bipartite" := VInt 2]}.

(** As [two_to_one], with one more node: an instance of type factor whose
    part label is 2. *)
Definition with_kept : Graph :=
  NX.add_node two_to_one (Inst 4 (Some factor_node)) {["bipartite" := VInt 2]}.

Definition store_of (G : Graph) : Store := mkStore [G] [].

(** ** Further vocabulary *)

(** [G[x][y]]: the data of the edge x - y, when there is one. *)
Definition edge_data (G : Graph) (x y : Node) : option attrs :=
  Dict.get (adj G) x ≫= λ nb, Dict.get nb y.

(** The exception [set_node] raises for an object without [type]: a
    builtin rejects the assignment of [graph]; an instance accepts it and
    fails at [node.type]. *)
Definition set_node_error (n : Node) : exn :=
  match n with
  | Plain _ => AttributeError "graph"
  | Inst _ _ => AttributeError "type"
  end.

(** The neighbours of the factor node made for the edge x - y, in the order
    of its adjacency. *)
Definition pair_list (x y : Node) : list Node :=
  if decide (x = y) then [x] else [x; y].

(** What [set_edge] without [init] stores for the edge x - y, made in one
    of the two directions. *)
Definition edge_payload (d : attrs) (x y : Node) : Prop :=
  d = {["object" := VEdge (mkEdge x y None)]}
  ∨ d = {["object" := VEdge (mkEdge y x None)]}.

(** Every edge carries, the same in both directions, what [set_edge]
    without [init] stores. *)
Definition payloads_ok (G : Graph) : Prop :=
  ∀ x y d, edge_data G x y = Some d →
           edge_payload d x y ∧ edge_data G y x = Some d.

(** ** Further concrete inputs *)

(** A factor graph with one variable node and one factor node, no edge. *)
Definition fg_pair : Graph :=
  NX.add_node
    (NX.add_node FG0 (vnode0 0) {["type" := VType variable_node]})
    (fnode0 0 VNone) {["type" := VType factor_node]}.

(** Two variable nodes and a factor node, not yet in any graph. *)
Definition three_nodes : list Node := [vnode0 0; fnode0 0 VNone; vnode0 1].

(** A self-loop at a and the edge a - b. *)
Definition looped : Graph :=
  NX.add_edge (NX.add_edge NX.empty (Plain 1) (Plain 1) ∅) (Plain 1) (Plain 2) ∅.

(** * Facts about the model *)

(** ** Ordered dictionaries *)

Section dict_facts.
Context {K V : Type} `{EqDecision K}.
Implicit Types (d : list (K * V)) (k : K) (v : V).

Lemma mem_spec d k : Dict.mem d k = true ↔ k ∈ Dict.keys d.
Proof. unfold Dict.mem. apply bool_decide_eq_true. Qed.

Lemma mem_false d k : Dict.mem d k = false ↔ k ∉ Dict.keys d.
Proof. unfold Dict.mem. apply bool_decide_eq_false. Qed.

Lemma get_None d k : Dict.get d k = None ↔ k ∉ Dict.keys d.
Proof.
  induction d as [|[k' v'] d IH]; simpl.
  - split; [intros _; apply not_elem_of_nil | done].
  - rewrite not_elem_of_cons. destruct (decide (k = k')); naive_solver.
Qed.

Lemma get_is_Some d k : is_Some (Dict.get d k) ↔ k ∈ Dict.keys d.
Proof.
  rewrite <- not_eq_None_Some, get_None.
  destruct (decide (k ∈ Dict.keys d)); naive_solver.
Qed.

Lemma get_Some_elem d k v : Dict.get d k = Some v → (k, v) ∈ d.
Proof.
  induction d as [|[k' v'] d IH]; simpl; [done|].
  destruct (decide (k = k')) as [->|]; intros E.
  - injection E as ->. left.
  - right. auto.
Qed.

Lemma get_elem d k v : NoDup (Dict.keys d) → (k, v) ∈ d → Dict.get d k = Some v.
Proof.
  induction d as [|[k' v'] d IH]; simpl; intros ND E.
  - by apply elem_of_nil in E.
  - apply NoDup_cons in ND as [N1 N2]. apply elem_of_cons in E as [E|E].
    + injection E as -> ->. by rewrite decide_True.
    + destruct (decide (k = k')) as [->|]; [|auto].
      exfalso. apply N1. change k' with ((k', v).1). by apply list_elem_of_fmap_2.
Qed.

Lemma set_absent d k v : k ∉ Dict.keys d → Dict.set d k v = d ++ [(k, v)].
Proof.
  induction d as [|[k' v'] d IH]; simpl; [done|].
  rewrite not_elem_of_cons. intros [N1 N2].
  rewrite decide_False by done. by rewrite IH.
Qed.

Lemma keys_set_present d k v : k ∈ Dict.keys d → Dict.keys (Dict.set d k v) = Dict.keys d.
Proof.
  induction d as [|[k' v'] d IH]; simpl; intros E.
  - by apply elem_of_nil in E.
  - destruct (decide (k = k')); simpl; [done|].
    apply elem_of_cons in E as [E|E]; [done|]. f_equal. by apply IH.
Qed.

Lemma keys_set d k v :
  Dict.keys (Dict.set d k v) = if Dict.mem d k then Dict.keys d else Dict.keys d ++ [k].
Proof.
  destruct (Dict.mem d k) eqn:E.
  - apply keys_set_present. by apply mem_spec.
  - apply mem_false in E. rewrite set_absent by done.
    unfold Dict.keys. by rewrite fmap_app.
Qed.

Lemma get_set d k k' v :
  Dict.get (Dict.set d k v) k' = if decide (k' = k) then Some v else Dict.get d k'.
Proof.
  induction d as [|[k0 v0] d IH]; simpl.
  - destruct (decide (k' = k)); done.
  - destruct (decide (k = k0)) as [->|N]; simpl.
    + destruct (decide (k' = k0)); done.
    + destruct (decide (k' = k0)) as [->|]; [by rewrite decide_False|done].
Qed.

Lemma keys_alter (f : V → V) k d : Dict.keys (Dict.alter f k d) = Dict.keys d.
Proof.
  induction d as [|[k0 v0] d IH]; simpl; [done|].
  destruct (decide (k = k0)); simpl; [done|]. by f_equal.
Qed.

Lemma get_alter (f : V → V) k k' d :
  Dict.get (Dict.alter f k d) k' =
  if decide (k' = k) then f <$> Dict.get d k' else Dict.get d k'.
Proof.
  induction d as [|[k0 v0] d IH]; simpl.
  - destruct (decide (k' = k)); done.
  - destruct (decide (k = k0)) as [->|N]; simpl.
    + destruct (decide (k' = k0)); done.
    + destruct (decide (k' = k0)) as [->|]; [by rewrite decide_False|done].
Qed.

Lemma length_set d k v :
  length (Dict.set d k v) = if Dict.mem d k then length d else S (length d).
Proof.
  pose proof (keys_set d k v) as E. apply (f_equal length) in E.
  unfold Dict.keys in E. rewrite length_fmap in E. rewrite E.
  destruct (Dict.mem d k); rewrite ?length_app, length_fmap; simpl; lia.
Qed.

Lemma length_alter (f : V → V) k d : length (Dict.alter f k d) = length d.
Proof.
  pose proof (keys_alter f k d) as E. apply (f_equal length) in E.
  unfold Dict.keys in E. by rewrite !length_fmap in E.
Qed.

(** An entry of an altered dictionary is an old entry, or the altered one. *)
Lemma elem_alter (f : V → V) k d k' v' :
  (k', v') ∈ Dict.alter f k d →
  (k', v') ∈ d ∨ (k' = k ∧ ∃ v, (k, v) ∈ d ∧ v' = f v).
Proof.
  induction d as [|[k0 v0] d IH]; simpl; [by left|].
  destruct (decide (k = k0)) as [->|N]; rewrite !elem_of_cons.
  - intros [E|E]; [|by left; right]. injection E as -> ->.
    right. split; [done|]. exists v0. split; [left|done].
  - intros [E|E]; [by left; left|].
    destruct (IH E) as [?|(-> & v & ? & ->)]; [by left; right|].
    right. split; [done|]. exists v. split; [by right|done].
Qed.

Lemma elem_set d k v k' v' :
  (k', v') ∈ Dict.set d k v → (k', v') ∈ d ∨ (k' = k ∧ v' = v).
Proof.
  induction d as [|[k0 v0] d IH]; simpl.
  - rewrite list_elem_of_singleton. intros E. injection E as -> ->. by right.
  - destruct (decide (k = k0)) as [->|N]; rewrite !elem_of_cons.
    + intros [E|E]; [|by left; right]. injection E as -> ->. by right.
    + intros [E|E]; [by left; left|].
      destruct (IH E) as [?|[-> ->]]; [by left; right|by right].
Qed.

End dict_facts.

(** ** Graphs: the class invariant of [networkx.Graph] *)

Lemma elem_add_key l k x : x ∈ add_key l k ↔ x ∈ l ∨ x = k.
Proof.
  unfold add_key. destruct (decide (k ∈ l)).
  - naive_solver.
  - rewrite elem_of_app, list_elem_of_singleton. done.
Qed.

Lemma add_key_present l k : k ∈ l → add_key l k = l.
Proof. intros. unfold add_key. by rewrite decide_True. Qed.

Lemma add_key_absent l k : k ∉ l → add_key l k = l ++ [k].
Proof. intros. unfold add_key. by rewrite decide_False. Qed.

Lemma NoDup_add_key l k : NoDup l → NoDup (add_key l k).
Proof.
  unfold add_key. intros ND. destruct (decide (k ∈ l)); [done|].
  apply NoDup_app. split_and!; [done| |apply NoDup_singleton].
  intros x Hx ->%list_elem_of_singleton. done.
Qed.

Lemma keys_set_add_key {V} (d : list (Node * V)) k v :
  Dict.keys (Dict.set d k v) = add_key (Dict.keys d) k.
Proof.
  rewrite keys_set. unfold add_key, Dict.mem.
  destruct (decide (k ∈ Dict.keys d)).
  - by rewrite bool_decide_eq_true_2.
  - by rewrite bool_decide_eq_false_2.
Qed.

Lemma has_edge_spec G u v : NX.has_edge G u v = true ↔ v ∈ nbr_keys G u.
Proof.
  unfold NX.has_edge, nbr_keys. destruct (Dict.get (adj G) u).
  - apply mem_spec.
  - split; [done|]. intros []%elem_of_nil.
Qed.

Lemma has_edge_false G u v : NX.has_edge G u v = false ↔ v ∉ nbr_keys G u.
Proof. rewrite <- has_edge_spec. by destruct (NX.has_edge G u v). Qed.

Lemma has_node_spec G n : NX.has_node G n = true ↔ n ∈ NX.nodes G.
Proof. apply mem_spec. Qed.

Lemma has_node_false G n : NX.has_node G n = false ↔ n ∉ NX.nodes G.
Proof. apply mem_false. Qed.

Lemma wf_empty g : wf (mkGraph g [] []).
Proof.
  split; simpl; try done.
  - constructor.
  - intros x. unfold nbr_keys. simpl. constructor.
  - intros x y. unfold nbr_keys. simpl. intros []%elem_of_nil.
Qed.

(** *** add_node *)

Lemma add_node_nodes G n d : NX.nodes (NX.add_node G n d) = add_key (NX.nodes G) n.
Proof.
  unfold NX.add_node, NX.nodes, NX.has_node. destruct (Dict.mem (node G) n) eqn:E; simpl.
  - rewrite keys_alter. unfold add_key. apply mem_spec in E. by rewrite decide_True.
  - apply keys_set_add_key.
Qed.

Lemma add_node_adj_keys G n d :
  Dict.keys (adj G) = Dict.keys (node G) →
  Dict.keys (adj (NX.add_node G n d)) = add_key (Dict.keys (adj G)) n.
Proof.
  intros Hk. unfold NX.add_node, NX.has_node. destruct (Dict.mem (node G) n) eqn:E; simpl.
  - unfold add_key. apply mem_spec in E. rewrite <- Hk in E. by rewrite decide_True.
  - apply keys_set_add_key.
Qed.

Lemma add_node_nbr_keys G n d x :
  Dict.keys (adj G) = Dict.keys (node G) →
  nbr_keys (NX.add_node G n d) x = nbr_keys G x.
Proof.
  intros Hk. unfold NX.add_node, NX.has_node, nbr_keys.
  destruct (Dict.mem (node G) n) eqn:E; simpl; [done|].
  rewrite get_set. destruct (decide (x = n)) as [->|]; [|done].
  apply mem_false in E. rewrite <- Hk in E. apply get_None in E. by rewrite E.
Qed.

Lemma add_node_graph G n d : graph (NX.add_node G n d) = graph G.
Proof. unfold NX.add_node. by destruct (NX.has_node G n). Qed.

Lemma add_node_get G n d x :
  Dict.get (node (NX.add_node G n d)) x =
  if decide (x = n)
  then Some (match Dict.get (node G) n with Some old => d ∪ old | None => d end)
  else Dict.get (node G) x.
Proof.
  unfold NX.add_node, NX.has_node. destruct (Dict.mem (node G) n) eqn:E; simpl.
  - rewrite get_alter. destruct (decide (x = n)) as [->|]; [|done].
    apply mem_spec, get_is_Some in E as [old E]. by rewrite E.
  - rewrite get_set. destruct (decide (x = n)) as [->|]; [|done].
    apply mem_false, get_None in E. by rewrite E.
Qed.

Lemma wf_add_node G n d : wf G → wf (NX.add_node G n d).
Proof.
  intros [Hk Hn Hnn Hc Hs]. split.
  - rewrite add_node_adj_keys by done. rewrite Hk. symmetry. apply add_node_nodes.
  - change (NoDup (NX.nodes (NX.add_node G n d))). rewrite add_node_nodes.
    by apply NoDup_add_key.
  - intros x. by rewrite add_node_nbr_keys.
  - intros x y. rewrite add_node_nbr_keys, add_node_nodes, elem_add_key by done.
    intros ?. left. eauto.
  - intros x y. rewrite !add_node_nbr_keys by done. auto.
Qed.

(** *** add_edge *)

Lemma add_edge_nodes G u v d :
  NX.nodes (NX.add_edge G u v d) = add_key (add_key (NX.nodes G) u) v.
Proof.
  unfold NX.add_edge, NX.nodes, NX.has_node.
  destruct (Dict.mem (node G) u) eqn:Eu; simpl.
  - replace (add_key (Dict.keys (node G)) u) with (Dict.keys (node G)).
    2:{ unfold add_key. apply mem_spec in Eu. by rewrite decide_True. }
    destruct (Dict.mem (node G) v) eqn:Ev; simpl.
    + unfold add_key. apply mem_spec in Ev. by rewrite decide_True.
    + apply keys_set_add_key.
  - rewrite <- (keys_set_add_key (node G) u ∅).
    destruct (Dict.mem (Dict.set (node G) u ∅) v) eqn:Ev; simpl.
    + unfold add_key. apply mem_spec in Ev. by rewrite decide_True.
    + apply keys_set_add_key.
Qed.

Lemma add_edge_graph G u v d : graph (NX.add_edge G u v d) = graph G.
Proof.
  unfold NX.add_edge. destruct (NX.has_node G u); simpl;
    match goal with |- context [NX.has_node ?H v] => by destruct (NX.has_node H v) end.
Qed.

Lemma add_edge_unfold G u v d :
  NX.add_edge G u v d =
  let G2 := with_ends G u v in
  let old := default ∅ (Dict.get (adj G2) u ≫= λ nb, Dict.get nb v) in
  mkGraph (graph G2) (node G2) (NX.link u v (d ∪ old) (adj G2)).
Proof. reflexivity. Qed.

Lemma with_ends_as_add_node G u v :
  with_ends G u v =
  let G1 := if NX.has_node G u then G else NX.add_node G u ∅ in
  if NX.has_node G1 v then G1 else NX.add_node G1 v ∅.
Proof.
  unfold with_ends, NX.add_node. destruct (NX.has_node G u) eqn:Eu; simpl.
  - by destruct (NX.has_node G v).
  - match goal with |- context [NX.has_node ?H v] => by destruct (NX.has_node H v) end.
Qed.

Lemma wf_with_ends G u v : wf G → wf (with_ends G u v).
Proof.
  intros W. rewrite with_ends_as_add_node. simpl.
  assert (wf (if NX.has_node G u then G else NX.add_node G u ∅)) as W1.
  { destruct (NX.has_node G u); [done|by apply wf_add_node]. }
  destruct (NX.has_node _ v); [done|by apply wf_add_node].
Qed.

Lemma with_ends_nbr_keys G u v x :
  wf G → nbr_keys (with_ends G u v) x = nbr_keys G x.
Proof.
  intros W. rewrite with_ends_as_add_node. simpl.
  assert (wf (if NX.has_node G u then G else NX.add_node G u ∅)) as W1.
  { destruct (NX.has_node G u); [done|by apply wf_add_node]. }
  assert (nbr_keys (if NX.has_node G u then G else NX.add_node G u ∅) x = nbr_keys G x) as E1.
  { destruct (NX.has_node G u); [done|]. apply add_node_nbr_keys, W. }
  destruct (NX.has_node _ v); [done|]. rewrite add_node_nbr_keys; [done|apply W1].
Qed.

Lemma with_ends_nodes G u v :
  NX.nodes (with_ends G u v) = add_key (add_key (NX.nodes G) u) v.
Proof. rewrite <- (add_edge_nodes G u v ∅). reflexivity. Qed.

Lemma with_ends_has G u v :
  u ∈ NX.nodes (with_ends G u v) ∧ v ∈ NX.nodes (with_ends G u v).
Proof. rewrite with_ends_nodes, !elem_add_key. naive_solver. Qed.

Lemma add_edge_adj_keys G u v d :
  Dict.keys (adj (NX.add_edge G u v d)) = Dict.keys (adj (with_ends G u v)).
Proof. rewrite add_edge_unfold. simpl. unfold NX.link. by rewrite !keys_alter. Qed.

Lemma add_edge_node G u v d : node (NX.add_edge G u v d) = node (with_ends G u v).
Proof. by rewrite add_edge_unfold. Qed.

Lemma add_edge_nbr_keys G u v d x :
  wf G →
  nbr_keys (NX.add_edge G u v d) x =
  let l := if decide (x = u) then add_key (nbr_keys G x) v else nbr_keys G x in
  if decide (x = v) then add_key l u else l.
Proof.
  intros W. pose proof (wf_with_ends G u v W) as W2.
  pose proof (with_ends_nbr_keys G u v x W) as E2.
  pose proof (with_ends_has G u v) as [Iu Iv].
  unfold NX.nodes in Iu, Iv. rewrite <- (wf_keys _ W2) in Iu, Iv.
  apply get_is_Some in Iu as [lu Eu], Iv as [lv Ev].
  rewrite add_edge_unfold. simpl. unfold nbr_keys in *. simpl.
  unfold NX.link. rewrite !get_alter. rewrite <- E2.
  destruct (decide (x = v)) as [Hv|Nv], (decide (x = u)) as [Hu|Nu]; subst; simpl.
  - rewrite Eu. simpl. by rewrite !keys_set_add_key.
  - rewrite Ev. simpl. by rewrite keys_set_add_key.
  - rewrite Eu. simpl. by rewrite keys_set_add_key.
  - done.
Qed.

Lemma elem_add_edge_nbr G u v d x y :
  wf G →
  y ∈ nbr_keys (NX.add_edge G u v d) x ↔
  y ∈ nbr_keys G x ∨ (x = u ∧ y = v) ∨ (x = v ∧ y = u).
Proof.
  intros W. rewrite add_edge_nbr_keys by done. simpl.
  destruct (decide (x = v)) as [Hv|Nv], (decide (x = u)) as [Hu|Nu];
    rewrite ?elem_add_key; naive_solver.
Qed.

Lemma wf_add_edge G u v d : wf G → wf (NX.add_edge G u v d).
Proof.
  intros W. pose proof (wf_with_ends G u v W) as W2. split.
  - rewrite add_edge_adj_keys, add_edge_node. apply W2.
  - rewrite add_edge_node. apply W2.
  - intros x. rewrite add_edge_nbr_keys by done. simpl.
    pose proof (wf_nbrs_nodup _ W x).
    destruct (decide (x = v)), (decide (x = u)); auto using NoDup_add_key.
  - intros x y. rewrite elem_add_edge_nbr by done.
    rewrite add_edge_nodes, !elem_add_key.
    assert (x ∈ nbr_keys G y → x ∈ NX.nodes G) by apply W.
    assert (y ∈ nbr_keys G x → y ∈ NX.nodes G) by apply W.
    naive_solver.
  - intros x y. rewrite !elem_add_edge_nbr by done.
    assert (y ∈ nbr_keys G x → x ∈ nbr_keys G y) by apply W. naive_solver.
Qed.

(** ** Counting edges *)

Lemma filter_keys {V} (P : Node → Prop) `{∀ x, Decision (P x)} (l : list (Node * V)) :
  Dict.keys (filter (λ p : Node * V, P p.1) l) = filter P (Dict.keys l).
Proof.
  induction l as [|[k v] l IH]; [done|].
  rewrite filter_cons. simpl. rewrite filter_cons.
  destruct (decide (P k)); simpl; by rewrite IH.
Qed.

Lemma edges_from_pairs a : ∀ seen (nb : Node → list Node),
  (∀ k v, (k, v) ∈ a → nb k = Dict.keys v) →
  (λ e : Node * Node * attrs, (e.1.1, e.1.2)) <$> NX.edges_from seen a
  = pairs_from nb seen (Dict.keys a).
Proof.
  induction a as [|[n nbrs] a IH]; intros seen nb Hnb; simpl; [done|].
  rewrite fmap_app. f_equal.
  - rewrite (Hnb n nbrs) by left.
    rewrite <- filter_keys. unfold Dict.keys.
    rewrite <- !list_fmap_compose. done.
  - apply IH. intros k v Hkv. apply Hnb. by right.
Qed.

Lemma nbr_keys_elem G k v :
  NoDup (Dict.keys (adj G)) → (k, v) ∈ adj G → nbr_keys G k = Dict.keys v.
Proof. intros ND E. unfold nbr_keys. by rewrite (get_elem _ _ _ ND E). Qed.

Lemma edges_iter_pairs G :
  NoDup (Dict.keys (adj G)) →
  NX.edges_iter G = pairs_from (nbr_keys G) [] (Dict.keys (adj G)).
Proof.
  intros ND. unfold NX.edges_iter, NX.edges_iter_data.
  apply edges_from_pairs. intros k v. by apply nbr_keys_elem.
Qed.

Lemma sum_list_with_ext {A} (f g : A → nat) l :
  (∀ x, x ∈ l → f x = g x) → sum_list_with f l = sum_list_with g l.
Proof.
  induction l as [|x l IH]; simpl; [done|]. intros E.
  rewrite (E x) by left. rewrite IH; [done|]. intros y Hy. apply E. by right.
Qed.

Lemma sum_list_with_plus {A} (f g : A → nat) l :
  sum_list_with (λ x, f x + g x) l = sum_list_with f l + sum_list_with g l.
Proof. induction l as [|x l IH]; simpl; [done|]. rewrite IH. lia. Qed.

Lemma sum_list_with_fmap {A B} (f : B → nat) (g : A → B) l :
  sum_list_with f (g <$> l) = sum_list_with (f ∘ g) l.
Proof. induction l as [|x l IH]; csimpl; [done|]. by rewrite IH. Qed.

Lemma sum_list_with_indicator {A} (P : A → Prop) `{∀ x, Decision (P x)} l :
  sum_list_with (λ x, if decide (P x) then 1 else 0) l = length (filter P l).
Proof.
  induction l as [|x l IH]; simpl; [done|]. rewrite filter_cons.
  destruct (decide (P x)); simpl; by rewrite IH.
Qed.

Lemma sum_degree_deg G :
  NoDup (Dict.keys (adj G)) →
  NX.sum_degree G = sum_list_with (deg G) (Dict.keys (adj G)).
Proof.
  intros ND. unfold NX.sum_degree, Dict.keys. rewrite sum_list_with_fmap.
  apply sum_list_with_ext. intros [k v] E. unfold NX.degree_of, deg. simpl.
  rewrite (nbr_keys_elem G k v ND E). unfold Dict.keys. rewrite length_fmap.
  f_equal. unfold Dict.mem. simpl. unfold Dict.keys.
  destruct (decide (k ∈ v.*1)).
  - by rewrite bool_decide_eq_true_2.
  - by rewrite bool_decide_eq_false_2.
Qed.

Section counting.
Variable nb : Node → list Node.

Lemma filter_seen_cons (l seen : list Node) n :
  NoDup l → n ∉ seen →
  length (filter (λ y, y ∉ seen) l)
  = length (filter (λ y, y ∉ n :: seen) l) + (if decide (n ∈ l) then 1 else 0).
Proof.
  intros ND Hn. induction l as [|x l IH]; [done|].
  apply NoDup_cons in ND as [Hx ND]. specialize (IH ND).
  rewrite !filter_cons. destruct (decide (x = n)) as [->|Ne].
  - rewrite decide_True by done.
    rewrite (decide_False (P := n ∉ n :: seen)) by (rewrite not_elem_of_cons; naive_solver).
    rewrite (decide_True (P := n ∈ n :: l)) by left.
    rewrite (decide_False (P := n ∈ l)) in IH by done. simpl. lia.
  - destruct (decide (x ∉ seen)) as [Hs|Hs].
    + rewrite (decide_True (P := x ∉ n :: seen)) by (rewrite not_elem_of_cons; naive_solver).
      simpl. rewrite IH.
      destruct (decide (n ∈ l)), (decide (n ∈ x :: l)) as [E|E]; try lia.
      * exfalso. apply E. by right.
      * apply elem_of_cons in E as [?|?]; congruence.
    + rewrite (decide_False (P := x ∉ n :: seen)) by (rewrite not_elem_of_cons; naive_solver).
      rewrite IH.
      destruct (decide (n ∈ l)), (decide (n ∈ x :: l)) as [E|E]; try lia.
      * exfalso. apply E. by right.
      * apply elem_of_cons in E as [?|?]; congruence.
Qed.

(** Every edge is reported once: twice the number of reported pairs is the
    sum of the degrees. *)
Lemma pairs_from_count ks : ∀ seen,
  NoDup ks →
  (∀ x, x ∈ ks → x ∉ seen) →
  (∀ x, x ∈ ks → NoDup (nb x)) →
  (∀ x y, x ∈ ks → y ∈ nb x → y ∈ seen ∨ y ∈ ks) →
  (∀ x y, x ∈ ks → y ∈ ks → y ∈ nb x → x ∈ nb y) →
  2 * length (pairs_from nb seen ks)
  = sum_list_with (λ x, length (filter (λ y, y ∉ seen) (nb x))
                        + (if decide (x ∈ nb x) then 1 else 0)) ks.
Proof.
  induction ks as [|n r IH]; intros seen ND Hs Hnd Hcl Hsym; [done|].
  apply NoDup_cons in ND as [Hn ND].
  assert (n ∉ seen) as Hns by (apply Hs; left).
  assert (2 * length (pairs_from nb (n :: seen) r)
          = sum_list_with (λ x, length (filter (λ y, y ∉ n :: seen) (nb x))
                                + (if decide (x ∈ nb x) then 1 else 0)) r) as IH'.
  { apply IH; [done|..].
    - intros x Hx. rewrite not_elem_of_cons. split; [|apply Hs; by right].
      intros ->. done.
    - intros x Hx. apply Hnd. by right.
    - intros x y Hx Hy. destruct (Hcl x y) as [?|Hy']; [by right|done| |].
      + left. by right.
      + apply elem_of_cons in Hy' as [->|?]; [left; left|by right].
    - intros x y Hx Hy. apply Hsym; by right. }
  clear IH.
  assert (sum_list_with (λ x, length (filter (λ y, y ∉ seen) (nb x))
                              + (if decide (x ∈ nb x) then 1 else 0)) r
          = sum_list_with (λ x, length (filter (λ y, y ∉ n :: seen) (nb x))
                                + (if decide (x ∈ nb x) then 1 else 0)) r
            + length (filter (λ x, x ∈ nb n) r)) as H1.
  { rewrite !sum_list_with_plus.
    rewrite (sum_list_with_ext (λ x, length (filter (λ y, y ∉ seen) (nb x)))
               (λ x, length (filter (λ y, y ∉ n :: seen) (nb x))
                     + (if decide (n ∈ nb x) then 1 else 0)) r).
    2:{ intros x Hx. apply filter_seen_cons; [|done]. apply Hnd. by right. }
    rewrite sum_list_with_plus.
    rewrite (sum_list_with_ext (λ x, if decide (n ∈ nb x) then 1 else 0)
               (λ x, if decide (x ∈ nb n) then 1 else 0) r).
    2:{ intros x Hx. destruct (decide (n ∈ nb x)) as [E|E], (decide (x ∈ nb n)) as [E'|E'];
          try done; exfalso.
        - apply E'. apply Hsym; [by right|left|done].
        - apply E. apply Hsym; [left|by right|done]. }
    rewrite (sum_list_with_indicator (λ x, x ∈ nb n)). lia. }
  assert (filter (λ y, y ∉ seen) (nb n)
          ≡ₚ (if decide (n ∈ nb n) then [n] else []) ++ filter (λ x, x ∈ nb n) r) as P.
  { apply NoDup_Permutation.
    - apply NoDup_filter, Hnd. left.
    - apply NoDup_app. split_and!.
      + destruct (decide (n ∈ nb n)); [apply NoDup_singleton|constructor].
      + intros x Hx [_ Hx']%list_elem_of_filter.
        destruct (decide (n ∈ nb n)).
        * apply list_elem_of_singleton in Hx as ->. done.
        * by apply elem_of_nil in Hx.
      + by apply NoDup_filter.
    - intros x. rewrite elem_of_app, !list_elem_of_filter. split.
      + intros [Hx1 Hx2]. destruct (Hcl n x) as [?|Hx3]; [left|done|done|].
        apply elem_of_cons in Hx3 as [->|Hx3].
        * left. rewrite decide_True by done. apply list_elem_of_singleton. done.
        * by right.
      + intros [Hx|[Hx1 Hx2]].
        * destruct (decide (n ∈ nb n)); [|by apply elem_of_nil in Hx].
          apply list_elem_of_singleton in Hx as ->. done.
        * split; [|done]. apply Hs. by right. }
  apply Permutation_length in P. rewrite length_app in P.
  change (2 * length (((λ y, (n, y)) <$> filter (λ y, y ∉ seen) (nb n))
                      ++ pairs_from nb (n :: seen) r)
          = length (filter (λ y, y ∉ seen) (nb n)) + (if decide (n ∈ nb n) then 1 else 0)
            + sum_list_with (λ x, length (filter (λ y, y ∉ seen) (nb x))
                                  + (if decide (x ∈ nb x) then 1 else 0)) r).
  rewrite length_app, length_fmap, H1.
  destruct (decide (n ∈ nb n)); simpl in P; lia.
Qed.

End counting.

Lemma filter_not_in_nil (l : list Node) : filter (λ y, y ∉ []) l = l.
Proof.
  induction l as [|x l IH]; [done|]. rewrite filter_cons.
  rewrite decide_True by apply not_elem_of_nil. by rewrite IH.
Qed.

(** [edges_iter] reports as many edges as [number_of_edges] counts. *)
Lemma edges_iter_count G :
  wf G → 2 * length (NX.edges_iter G) = NX.sum_degree G.
Proof.
  intros W. pose proof (wf_nodup _ W) as ND. rewrite <- (wf_keys _ W) in ND.
  rewrite edges_iter_pairs, sum_degree_deg by done.
  rewrite (pairs_from_count (nbr_keys G)); try done.
  - apply sum_list_with_ext. intros x _. unfold deg. by rewrite filter_not_in_nil.
  - intros x _. apply not_elem_of_nil.
  - intros x _. apply W.
  - intros x y _ Hy. right. rewrite (wf_keys _ W). by apply (wf_closed _ W x).
  - intros x y _ _. apply W.
Qed.

Lemma number_of_edges_iter G :
  wf G → NX.number_of_edges G = length (NX.edges_iter G).
Proof.
  intros W. unfold NX.number_of_edges. rewrite <- edges_iter_count by done.
  rewrite Nat.mul_comm. apply Nat.div_mul. done.
Qed.

(** ** The degree sum under insertions *)

Lemma sum_list_with_point (f g : Node → nat) (L : list Node) u :
  NoDup L → u ∈ L → (∀ x, x ∈ L → x ≠ u → g x = f x) →
  sum_list_with g L + f u = sum_list_with f L + g u.
Proof.
  induction L as [|x L IH]; intros ND Hu E; [by apply elem_of_nil in Hu|].
  apply NoDup_cons in ND as [Hx ND]. simpl.
  destruct (decide (x = u)) as [->|Ne].
  - rewrite (sum_list_with_ext g f L); [lia|].
    intros y Hy. apply E; [by right|]. intros ->. done.
  - apply elem_of_cons in Hu as [?|Hu]; [congruence|].
    rewrite (E x) by (done || left).
    ospecialize* (IH ND Hu).
    { intros y Hy. apply E. by right. }
    lia.
Qed.

Lemma sum_list_with_points (f g : Node → nat) (L : list Node) u v :
  NoDup L → u ∈ L → v ∈ L → u ≠ v →
  (∀ x, x ∈ L → x ≠ u → x ≠ v → g x = f x) →
  sum_list_with g L + f u + f v = sum_list_with f L + g u + g v.
Proof.
  intros ND Hu Hv Ne E.
  pose (h := λ x, if decide (x = u) then g u else f x).
  pose proof (sum_list_with_point f h L u ND Hu) as E1. ospecialize* E1.
  { intros x _ Hx. unfold h. by rewrite decide_False. }
  pose proof (sum_list_with_point h g L v ND Hv) as E2. ospecialize* E2.
  { intros x Hx Hxv. unfold h. destruct (decide (x = u)) as [->|]; [done|]. by apply E. }
  unfold h in E1, E2. rewrite decide_True in E1 by done.
  rewrite decide_False in E2 by done. lia.
Qed.

Lemma deg_absent G x : wf G → x ∉ NX.nodes G → deg G x = 0.
Proof.
  intros W Hx. unfold deg, nbr_keys. unfold NX.nodes in Hx.
  rewrite <- (wf_keys _ W) in Hx. apply get_None in Hx. rewrite Hx.
  rewrite decide_False; [done|apply not_elem_of_nil].
Qed.

Lemma sum_deg_add_key (f : Node → nat) L k :
  (k ∉ L → f k = 0) → sum_list_with f (add_key L k) = sum_list_with f L.
Proof.
  intros Hk. unfold add_key. destruct (decide (k ∈ L)); [done|].
  rewrite sum_list_with_app. simpl. rewrite Hk by done. lia.
Qed.

Lemma wf_adj_nodup G : wf G → NoDup (Dict.keys (adj G)).
Proof. intros W. rewrite (wf_keys _ W). apply W. Qed.

Lemma sum_degree_add_node G n d :
  wf G → NX.sum_degree (NX.add_node G n d) = NX.sum_degree G.
Proof.
  intros W. pose proof (wf_add_node G n d W) as W'.
  rewrite !sum_degree_deg by by apply wf_adj_nodup.
  rewrite add_node_adj_keys by apply W.
  rewrite (sum_list_with_ext (deg (NX.add_node G n d)) (deg G)).
  2:{ intros x _. unfold deg. rewrite add_node_nbr_keys; [done|apply W]. }
  apply sum_deg_add_key. rewrite (wf_keys _ W). by apply deg_absent.
Qed.

Lemma sum_degree_add_edge G u v d :
  wf G →
  NX.sum_degree (NX.add_edge G u v d)
  = NX.sum_degree G + (if NX.has_edge G u v then 0 else 2).
Proof.
  intros W. pose proof (wf_add_edge G u v d W) as W'.
  rewrite !sum_degree_deg by by apply wf_adj_nodup.
  pose proof (wf_adj_nodup _ W') as ND'.
  assert (u ∈ Dict.keys (adj (NX.add_edge G u v d))
          ∧ v ∈ Dict.keys (adj (NX.add_edge G u v d))) as [Iu Iv].
  { rewrite (wf_keys _ W'). change (u ∈ NX.nodes (NX.add_edge G u v d)
                                    ∧ v ∈ NX.nodes (NX.add_edge G u v d)).
    rewrite add_edge_nodes, !elem_add_key. naive_solver. }
  assert (sum_list_with (deg G) (Dict.keys (adj (NX.add_edge G u v d)))
          = sum_list_with (deg G) (Dict.keys (adj G))) as E0.
  { rewrite (wf_keys _ W'), (wf_keys _ W).
    change (sum_list_with (deg G) (NX.nodes (NX.add_edge G u v d))
            = sum_list_with (deg G) (NX.nodes G)).
    rewrite add_edge_nodes. rewrite !sum_deg_add_key; [done|..].
    - by apply deg_absent.
    - rewrite elem_add_key. intros Hv. apply deg_absent; [done|]. naive_solver. }
  rewrite <- E0. clear E0.
  set (L := Dict.keys (adj (NX.add_edge G u v d))) in *.
  destruct (NX.has_edge G u v) eqn:He.
  - apply has_edge_spec in He. pose proof (wf_sym _ W _ _ He) as He'.
    rewrite Nat.add_0_r. apply sum_list_with_ext. intros x _.
    unfold deg. rewrite add_edge_nbr_keys by done. simpl.
    destruct (decide (x = v)) as [Hv|Hv], (decide (x = u)) as [Hu|Hu]; subst;
      repeat rewrite (add_key_present (nbr_keys G _)) by done; done.
  - apply has_edge_false in He.
    assert (u ∉ nbr_keys G v) as He' by (intros ?; apply He; by apply W).
    destruct (decide (u = v)) as [->|Ne].
    + pose proof (sum_list_with_point (deg G) (deg (NX.add_edge G v v d)) L v ND' Iv) as E.
      ospecialize* E.
      { intros x _ Hx. unfold deg. rewrite add_edge_nbr_keys by done. simpl.
        by rewrite !(decide_False (P := x = v)) by done. }
      assert (deg (NX.add_edge G v v d) v = deg G v + 2) as E2.
      { unfold deg. rewrite add_edge_nbr_keys by done. simpl.
        rewrite !(decide_True (P := v = v)) by done.
        rewrite (add_key_absent (nbr_keys G v) v) by done.
        rewrite add_key_present by (apply elem_of_app; right; left).
        rewrite length_app. simpl.
        rewrite (decide_False (P := v ∈ nbr_keys G v)) by done.
        rewrite decide_True by (apply elem_of_app; right; left). lia. }
      lia.
    + pose proof (sum_list_with_points (deg G) (deg (NX.add_edge G u v d)) L u v
                    ND' Iu Iv Ne) as E.
      ospecialize* E.
      { intros x _ Hu Hv. unfold deg. rewrite add_edge_nbr_keys by done. simpl.
        rewrite !(decide_False (P := x = v)) by done.
        by rewrite !(decide_False (P := x = u)) by done. }
      assert (deg (NX.add_edge G u v d) u = deg G u + 1) as E2.
      { unfold deg. rewrite add_edge_nbr_keys by done. simpl.
        rewrite (decide_False (P := u = v)) by done.
        rewrite (decide_True (P := u = u)) by done.
        rewrite add_key_absent by done.
        rewrite length_app. simpl.
        destruct (decide (u ∈ nbr_keys G u)) as [I|I],
                 (decide (u ∈ nbr_keys G u ++ [v])) as [I'|I']; try lia.
        - exfalso. apply I'. apply elem_of_app. by left.
        - exfalso. apply elem_of_app in I' as [?|I']; [done|].
          apply list_elem_of_singleton in I'. done. }
      assert (deg (NX.add_edge G u v d) v = deg G v + 1) as E3.
      { unfold deg. rewrite add_edge_nbr_keys by done. simpl.
        rewrite (decide_True (P := v = v)) by done.
        rewrite (decide_False (P := v = u)) by done.
        rewrite add_key_absent by done.
        rewrite length_app. simpl.
        destruct (decide (v ∈ nbr_keys G v)) as [I|I],
                 (decide (v ∈ nbr_keys G v ++ [u])) as [I'|I']; try lia.
        - exfalso. apply I'. apply elem_of_app. by left.
        - exfalso. apply elem_of_app in I' as [?|I']; [done|].
          apply list_elem_of_singleton in I'. done. }
      lia.
Qed.

(** ** Edge lists *)

Lemma same_edge_sym e e' : same_edge e e' → same_edge e' e.
Proof. destruct e, e'. unfold same_edge. simpl. naive_solver. Qed.

Lemma distinct_edges_app l1 l2 :
  distinct_edges l1 → distinct_edges l2 →
  (∀ e1 e2, e1 ∈ l1 → e2 ∈ l2 → ¬ same_edge e1 e2) →
  distinct_edges (l1 ++ l2).
Proof.
  induction l1 as [|e l1 IH]; simpl; [done|]. intros [H1 H2] D2 H12. split.
  - intros e' [?|?]%elem_of_app; [by apply H1|]. apply H12; [left|done].
  - apply IH; [done..|]. intros e1 e2 ??. apply H12; [by right|done].
Qed.

Lemma distinct_edges_star n (l : list Node) :
  NoDup l → distinct_edges ((λ y, (n, y)) <$> l).
Proof.
  induction l as [|y l IH]; intros ND; csimpl; [done|].
  apply NoDup_cons in ND as [Hy ND]. split; [|by apply IH].
  intros e' (y' & -> & Hy')%list_elem_of_fmap [E|E]; simpl in E.
  - injection E as ->. done.
  - injection E as -> ->. done.
Qed.

Lemma pairs_from_elem nb ks : ∀ seen x y,
  (x, y) ∈ pairs_from nb seen ks → x ∈ ks ∧ y ∈ nb x ∧ y ∉ seen.
Proof.
  induction ks as [|n r IH]; intros seen x y; simpl.
  - intros []%elem_of_nil.
  - intros [E|E]%elem_of_app.
    + apply list_elem_of_fmap in E as (y' & E & Hy). injection E as -> ->.
      apply list_elem_of_filter in Hy as [??]. split_and!; [left|done..].
    + apply IH in E as (? & ? & Hs). apply not_elem_of_cons in Hs as [??].
      split_and!; [by right|done..].
Qed.

Lemma pairs_from_distinct nb ks : ∀ seen,
  NoDup ks → (∀ x, x ∈ ks → NoDup (nb x)) →
  distinct_edges (pairs_from nb seen ks).
Proof.
  induction ks as [|n r IH]; intros seen ND Hnd; simpl; [done|].
  apply NoDup_cons in ND as [Hn ND]. apply distinct_edges_app.
  - apply distinct_edges_star, NoDup_filter, Hnd. left.
  - apply IH; [done|]. intros x Hx. apply Hnd. by right.
  - intros e1 [x y] (y1 & -> & Hy1)%list_elem_of_fmap
      (Hx & Hy & Hs)%pairs_from_elem [E|E]; simpl in E.
    + injection E as -> ->. done.
    + injection E as -> ->. apply Hs. left.
Qed.

Lemma edges_iter_distinct G : wf G → distinct_edges (NX.edges_iter G).
Proof.
  intros W. rewrite edges_iter_pairs by by apply wf_adj_nodup.
  apply pairs_from_distinct; [by apply wf_adj_nodup|]. intros x _. apply W.
Qed.

Lemma edges_iter_elem G x y :
  wf G → (x, y) ∈ NX.edges_iter G → y ∈ nbr_keys G x.
Proof.
  intros W. rewrite edges_iter_pairs by by apply wf_adj_nodup.
  intros (? & ? & ?)%pairs_from_elem. done.
Qed.

(** ** Bulk insertion *)

Lemma add_nodes_from_with G ns : NX.add_nodes_from G ns = add_nodes_with (λ _, ∅) G ns.
Proof. reflexivity. Qed.

Section add_nodes_with.
Variable f : Node → attrs.

Lemma wf_add_nodes_with ns : ∀ G, wf G → wf (add_nodes_with f G ns).
Proof.
  induction ns as [|n ns IH]; intros G W; simpl; [done|].
  apply IH. by apply wf_add_node.
Qed.

Lemma add_nodes_with_nbr_keys ns : ∀ G x,
  wf G → nbr_keys (add_nodes_with f G ns) x = nbr_keys G x.
Proof.
  induction ns as [|n ns IH]; intros G x W; simpl; [done|].
  rewrite IH by by apply wf_add_node. apply add_node_nbr_keys, W.
Qed.

Lemma add_nodes_with_sum_degree ns : ∀ G,
  wf G → NX.sum_degree (add_nodes_with f G ns) = NX.sum_degree G.
Proof.
  induction ns as [|n ns IH]; intros G W; simpl; [done|].
  rewrite IH by by apply wf_add_node. by apply sum_degree_add_node.
Qed.

Lemma add_nodes_with_nodes ns : ∀ G x,
  x ∈ NX.nodes (add_nodes_with f G ns) ↔ x ∈ NX.nodes G ∨ x ∈ ns.
Proof.
  induction ns as [|n ns IH]; intros G x; simpl.
  - rewrite elem_of_nil. naive_solver.
  - rewrite IH, add_node_nodes, elem_add_key, elem_of_cons. naive_solver.
Qed.

Lemma add_nodes_with_graph ns : ∀ G, graph (add_nodes_with f G ns) = graph G.
Proof.
  induction ns as [|n ns IH]; intros G; simpl; [done|].
  by rewrite IH, add_node_graph.
Qed.

(** New, distinct nodes are appended in order, each with its own data. *)
Lemma add_nodes_with_fresh ns : ∀ G,
  NoDup ns → (∀ n, n ∈ ns → n ∉ NX.nodes G) →
  node (add_nodes_with f G ns) = node G ++ ((λ n, (n, f n)) <$> ns).
Proof.
  induction ns as [|n ns IH]; intros G ND Hf; csimpl.
  - by rewrite app_nil_r.
  - apply NoDup_cons in ND as [Hn ND].
    assert (n ∉ NX.nodes G) as Hn' by (apply Hf; left).
    rewrite IH; [|done|].
    + unfold NX.add_node. apply has_node_false in Hn'. rewrite Hn'. simpl.
      rewrite set_absent by by apply has_node_false.
      by rewrite <- app_assoc.
    + intros x Hx. rewrite add_node_nodes, elem_add_key.
      intros [?| ->]; [|done]. apply (Hf x); [by right|done].
Qed.

End add_nodes_with.

Lemma wf_add_edges_from es : ∀ G, wf G → wf (NX.add_edges_from G es).
Proof.
  induction es as [|e es IH]; intros G W; simpl; [done|].
  apply IH. by apply wf_add_edge.
Qed.

Lemma add_edges_from_nbr es : ∀ G x y,
  wf G →
  y ∈ nbr_keys (NX.add_edges_from G es) x ↔
  y ∈ nbr_keys G x ∨ ∃ e, e ∈ es ∧ same_edge (x, y) (e.1.1, e.1.2).
Proof.
  induction es as [|e es IH]; intros G x y W; simpl.
  - setoid_rewrite elem_of_nil. naive_solver.
  - rewrite IH by by apply wf_add_edge. rewrite elem_add_edge_nbr by done.
    setoid_rewrite elem_of_cons. unfold same_edge. simpl. split.
    + intros [[?|[[-> ->]|[-> ->]]]|(e' & ? & ?)].
      * by left.
      * right. exists e. split; [by left|by left].
      * right. exists e. split; [by left|by right].
      * right. exists e'. split; [by right|done].
    + intros [?|(e' & [->|?] & [E|E])].
      * left. by left.
      * injection E as -> ->. left. right. by left.
      * injection E as -> ->. left. right. by right.
      * right. exists e'. split; [done|by left].
      * right. exists e'. split; [done|by right].
Qed.

Lemma add_edges_from_nodes es : ∀ G x,
  x ∈ NX.nodes (NX.add_edges_from G es) ↔
  x ∈ NX.nodes G ∨ ∃ e, e ∈ es ∧ (x = e.1.1 ∨ x = e.1.2).
Proof.
  induction es as [|e es IH]; intros G x; simpl.
  - setoid_rewrite elem_of_nil. naive_solver.
  - rewrite IH, add_edge_nodes, !elem_add_key.
    setoid_rewrite elem_of_cons. naive_solver.
Qed.

Lemma add_edges_from_graph es : ∀ G, graph (NX.add_edges_from G es) = graph G.
Proof.
  induction es as [|e es IH]; intros G; simpl; [done|].
  by rewrite IH, add_edge_graph.
Qed.

Lemma add_edge_node_present G u v d :
  u ∈ NX.nodes G → v ∈ NX.nodes G → node (NX.add_edge G u v d) = node G.
Proof.
  intros Hu%has_node_spec Hv%has_node_spec.
  rewrite add_edge_node. unfold with_ends. rewrite Hu. by rewrite Hv.
Qed.

(** Edges between nodes that are there leave the node dictionary alone. *)
Lemma add_edges_from_node es : ∀ G,
  (∀ e, e ∈ es → e.1.1 ∈ NX.nodes G ∧ e.1.2 ∈ NX.nodes G) →
  node (NX.add_edges_from G es) = node G.
Proof.
  induction es as [|e es IH]; intros G He; simpl; [done|].
  destruct (He e) as [H1 H2]; [left|].
  rewrite IH.
  - by apply add_edge_node_present.
  - intros e' He'. unfold NX.nodes. rewrite add_edge_node_present by done.
    apply He. by right.
Qed.

(** Distinct new edges: each one adds two to the degree sum. *)
Lemma add_edges_from_count es : ∀ G,
  wf G →
  distinct_edges ((λ e : Node * Node * attrs, (e.1.1, e.1.2)) <$> es) →
  (∀ e, e ∈ es → e.1.2 ∉ nbr_keys G e.1.1) →
  NX.sum_degree (NX.add_edges_from G es) = NX.sum_degree G + 2 * length es.
Proof.
  induction es as [|e es IH]; intros G W D Hn; csimpl; [lia|].
  destruct D as [D1 D2].
  rewrite IH; [|by apply wf_add_edge|done|].
  - rewrite sum_degree_add_edge by done.
    assert (NX.has_edge G e.1.1 e.1.2 = false) as ->.
    { apply has_edge_false, Hn. left. }
    lia.
  - intros e' He'. rewrite elem_add_edge_nbr by done.
    intros [?|[[E1 E2]|[E1 E2]]].
    + apply (Hn e'); [by right|done].
    + apply (D1 (e'.1.1, e'.1.2)).
      * apply list_elem_of_fmap. by exists e'.
      * left. by rewrite E1, E2.
    + apply (D1 (e'.1.1, e'.1.2)).
      * apply list_elem_of_fmap. by exists e'.
      * right. simpl. by rewrite E1, E2.
Qed.

(** ** Dictionary updates *)

Section dict_update.
Context {K V : Type} `{EqDecision K}.
Implicit Types (d kvs : list (K * V)).

Lemma elem_keys_set d k v x :
  x ∈ Dict.keys (Dict.set d k v) ↔ x ∈ Dict.keys d ∨ x = k.
Proof.
  rewrite keys_set. destruct (Dict.mem d k) eqn:E.
  - apply mem_spec in E. naive_solver.
  - rewrite elem_of_app, list_elem_of_singleton. done.
Qed.

Lemma elem_keys_update kvs : ∀ d x,
  x ∈ Dict.keys (Dict.update d kvs) ↔ x ∈ Dict.keys d ∨ x ∈ Dict.keys kvs.
Proof.
  induction kvs as [|[k v] kvs IH]; intros d x; simpl.
  - rewrite elem_of_nil. naive_solver.
  - unfold Dict.update in *. simpl. rewrite IH, elem_keys_set, elem_of_cons. naive_solver.
Qed.

Lemma keys_update_present kvs : ∀ d,
  (∀ k, k ∈ Dict.keys kvs → k ∈ Dict.keys d) →
  Dict.keys (Dict.update d kvs) = Dict.keys d.
Proof.
  induction kvs as [|[k v] kvs IH]; intros d Hk; [done|].
  unfold Dict.update in *. simpl.
  rewrite IH.
  - apply keys_set_present. apply Hk. left.
  - intros k' Hk'. rewrite keys_set_present by (apply Hk; left). apply Hk. by right.
Qed.

Lemma NoDup_keys_set d k v : NoDup (Dict.keys d) → NoDup (Dict.keys (Dict.set d k v)).
Proof.
  intros ND. rewrite keys_set. destruct (Dict.mem d k) eqn:E; [done|].
  apply mem_false in E. apply NoDup_app. split_and!; [done| |apply NoDup_singleton].
  intros x Hx ->%list_elem_of_singleton. done.
Qed.

Lemma NoDup_keys_update kvs : ∀ d,
  NoDup (Dict.keys d) → NoDup (Dict.keys (Dict.update d kvs)).
Proof.
  induction kvs as [|[k v] kvs IH]; intros d ND; [done|].
  unfold Dict.update in *. simpl. apply IH. by apply NoDup_keys_set.
Qed.

(** Pairs with distinct keys: [update] writes each of them. *)
Lemma get_update_nodup kvs : ∀ d k,
  NoDup (Dict.keys kvs) →
  Dict.get (Dict.update d kvs) k =
  match Dict.get kvs k with Some v => Some v | None => Dict.get d k end.
Proof.
  induction kvs as [|[k0 v0] kvs IH]; intros d k ND; [done|].
  apply NoDup_cons in ND as [Hk ND]. simpl in Hk.
  unfold Dict.update in *. simpl. rewrite IH by done.
  destruct (decide (k = k0)) as [->|Ne].
  - apply get_None in Hk. rewrite Hk. rewrite get_set. by rewrite decide_True.
  - destruct (Dict.get kvs k); [done|]. rewrite get_set. by rewrite decide_False.
Qed.

Lemma update_fresh kvs : ∀ d,
  NoDup (Dict.keys (d ++ kvs)) → Dict.update d kvs = d ++ kvs.
Proof.
  induction kvs as [|[k v] kvs IH]; intros d ND.
  - by rewrite app_nil_r.
  - unfold Dict.update in *. simpl.
    assert (NoDup (Dict.keys ((d ++ [(k, v)]) ++ kvs))) as ND'.
    { by rewrite <- app_assoc. }
    rewrite set_absent.
    + rewrite IH by done. by rewrite <- app_assoc.
    + unfold Dict.keys in ND. rewrite fmap_app in ND.
      apply NoDup_app in ND as (_ & Hd & _). intros Hk. apply (Hd k Hk). left.
Qed.

(** A list of pairs with distinct keys is its own dictionary. *)
Lemma of_pairs_nodup kvs : NoDup (Dict.keys kvs) → Dict.of_pairs kvs = kvs.
Proof. intros ND. unfold Dict.of_pairs. by rewrite update_fresh. Qed.

End dict_update.

(** ** relabel_nodes *)

Lemma wf_node_update G g nd :
  wf G → Dict.keys nd = Dict.keys (node G) → wf (mkGraph g nd (adj G)).
Proof.
  intros [Hk Hn Hnn Hc Hs] E. split; simpl; try done.
  - by rewrite E.
  - by rewrite E.
  - intros x y Hy. unfold NX.nodes. simpl. rewrite E. by apply (Hc x).
Qed.

Lemma distinct_edges_fmap (m : Node → Node) (S : list Node) es :
  (∀ a b, a ∈ S → b ∈ S → m a = m b → a = b) →
  (∀ e, e ∈ es → e.1 ∈ S ∧ e.2 ∈ S) →
  distinct_edges es →
  distinct_edges ((λ e, (m e.1, m e.2)) <$> es).
Proof.
  intros Hinj. induction es as [|e es IH]; intros HS D; csimpl; [done|].
  destruct D as [D1 D2]. split.
  - intros e' (e0 & -> & He0)%list_elem_of_fmap E.
    destruct (HS e) as [??]; [left|]. destruct (HS e0) as [??]; [by right|].
    apply (D1 e0 He0). destruct e as [a b], e0 as [a0 b0]. simpl in *.
    destruct E as [E|E]; simpl in E; injection E as E1 E2;
      apply Hinj in E1; try done; apply Hinj in E2; try done; subst.
    + by left.
    + by right.
  - apply IH; [|done]. intros e' ?. apply HS. by right.
Qed.

Section relabel.
Variable G : Graph.
Variable mapping : list (Node * Node).
Hypothesis W : wf G.

Local Abbreviation m := (relabel_fun mapping).

Hypothesis m_inj : ∀ a b, a ∈ NX.nodes G → b ∈ NX.nodes G → m a = m b → a = b.

Local Abbreviation H := (NX.relabel_nodes G mapping).
Local Abbreviation H1 :=
  (NX.add_edges_from NX.empty
     ((λ e : Node * Node * attrs, (m e.1.1, m e.1.2, e.2)) <$> NX.edges_iter_data G)).
Local Abbreviation H2 := (NX.add_nodes_from H1 (m <$> NX.nodes G)).

Lemma relabel_wf_H2 : wf H2.
Proof. apply wf_add_nodes_with, wf_add_edges_from, wf_empty. Qed.

Lemma edges_iter_data_elem e :
  e ∈ NX.edges_iter_data G → e.1.2 ∈ nbr_keys G e.1.1.
Proof.
  intros He. apply edges_iter_elem; [done|]. unfold NX.edges_iter.
  apply list_elem_of_fmap. by exists e.
Qed.

Lemma relabel_nodes_H2 x : x ∈ NX.nodes H2 ↔ ∃ a, a ∈ NX.nodes G ∧ x = m a.
Proof.
  rewrite add_nodes_from_with, add_nodes_with_nodes, add_edges_from_nodes.
  rewrite list_elem_of_fmap. split.
  - intros [[[]%elem_of_nil|(e & (e0 & -> & He0)%list_elem_of_fmap & Hx)]|(a & -> & Ha)].
    + simpl in Hx. pose proof (edges_iter_data_elem e0 He0) as Hn.
      destruct Hx as [-> | ->].
      * exists e0.1.1. split; [|done]. apply (wf_closed _ W e0.1.2). by apply W.
      * exists e0.1.2. split; [|done]. by apply (wf_closed _ W e0.1.1).
    + by exists a.
  - intros (a & Ha & ->). right. by exists a.
Qed.

Lemma relabel_keys : Dict.keys (node H) = Dict.keys (node H2).
Proof.
  unfold NX.relabel_nodes. simpl. apply keys_update_present.
  intros k Hk. unfold Dict.of_pairs in Hk. apply elem_keys_update in Hk as [[]%elem_of_nil|Hk].
  apply relabel_nodes_H2. unfold Dict.keys in Hk. rewrite <- list_fmap_compose in Hk.
  apply list_elem_of_fmap in Hk as (p & -> & Hp). exists p.1. split; [|done].
  by apply list_elem_of_fmap_2.
Qed.

Lemma relabel_wf : wf H.
Proof. apply (wf_node_update H2); [apply relabel_wf_H2|apply relabel_keys]. Qed.

Lemma relabel_nodes_elem x : x ∈ NX.nodes H ↔ ∃ a, a ∈ NX.nodes G ∧ x = m a.
Proof. unfold NX.nodes. rewrite relabel_keys. apply relabel_nodes_H2. Qed.

Lemma relabel_nodes_perm : NX.nodes H ≡ₚ m <$> NX.nodes G.
Proof.
  apply NoDup_Permutation.
  - apply relabel_wf.
  - apply NoDup_fmap_2_strong; [|apply W]. intros a b ???. by apply m_inj.
  - intros x. rewrite relabel_nodes_elem, list_elem_of_fmap. naive_solver.
Qed.

Lemma relabel_nbr_keys x : nbr_keys H x = nbr_keys H2 x.
Proof. reflexivity. Qed.

(** Every edge of the copy is the image of an edge of the original. *)
Lemma relabel_edge x y :
  y ∈ nbr_keys H x → ∃ a b, b ∈ nbr_keys G a ∧ x = m a ∧ y = m b.
Proof.
  rewrite relabel_nbr_keys, add_nodes_from_with.
  rewrite add_nodes_with_nbr_keys by apply wf_add_edges_from, wf_empty.
  rewrite add_edges_from_nbr by apply wf_empty.
  intros [[]%elem_of_nil|(e & (e0 & -> & He0)%list_elem_of_fmap & E)].
  pose proof (edges_iter_data_elem e0 He0) as Hn. simpl in E.
  destruct E as [E|E]; simpl in E; injection E as -> ->.
  - by exists e0.1.1, e0.1.2.
  - exists e0.1.2, e0.1.1. split; [by apply W|done].
Qed.

Lemma relabel_sum_degree : NX.sum_degree H = NX.sum_degree G.
Proof.
  change (NX.sum_degree H) with (NX.sum_degree H2).
  rewrite add_nodes_from_with, add_nodes_with_sum_degree
    by apply wf_add_edges_from, wf_empty.
  rewrite add_edges_from_count.
  - rewrite length_fmap. change (NX.sum_degree NX.empty) with 0.
    rewrite <- edges_iter_count by done. unfold NX.edges_iter. by rewrite length_fmap.
  - apply wf_empty.
  - rewrite <- list_fmap_compose.
    change ((λ e : Node * Node * attrs, (e.1.1, e.1.2))
            ∘ (λ e : Node * Node * attrs, (m e.1.1, m e.1.2, e.2)))
      with ((λ e : Node * Node, (m e.1, m e.2)) ∘ (λ e : Node * Node * attrs, (e.1.1, e.1.2))).
    rewrite list_fmap_compose. apply (distinct_edges_fmap m (NX.nodes G)); [done| |].
    + intros [a b] Hab%edges_iter_elem; [|done]. simpl. split.
      * apply (wf_closed _ W b). by apply W.
      * by apply (wf_closed _ W a).
    + by apply edges_iter_distinct.
  - intros e _. apply not_elem_of_nil.
Qed.

Lemma relabel_number_of_edges : NX.number_of_edges H = NX.number_of_edges G.
Proof. unfold NX.number_of_edges. by rewrite relabel_sum_degree. Qed.

Lemma relabel_no_loops :
  (∀ x, x ∉ nbr_keys G x) → ∀ x, x ∉ nbr_keys H x.
Proof.
  intros Hl x (a & b & Hab & -> & E)%relabel_edge.
  apply m_inj in E.
  - subst. by apply (Hl b).
  - apply (wf_closed _ W b). by apply W.
  - by apply (wf_closed _ W a).
Qed.

End relabel.

(** ** Running the methods of FactorGraph *)

Lemma bind_run {A B} (c : M A) (k : A → M B) s a s' :
  c s = Ok (a, s') → bind c k s = k a s'.
Proof. unfold bind. by intros ->. Qed.

Lemma bind_raise {A B} (c : M A) (k : A → M B) s e :
  c s = Raise e → bind c k s = Raise e.
Proof. unfold bind. by intros ->. Qed.

Lemma list_pop_snoc {A} (l : list A) x : list_pop (l ++ [x]) = Ok (x, l).
Proof. unfold list_pop. by rewrite reverse_snoc, reverse_involutive. Qed.

Lemma list_pop_seq n : list_pop (seq 0 (S n)) = Ok (n, seq 0 n).
Proof. rewrite seq_S. apply list_pop_snoc. Qed.

Lemma read_graph_run g s G : graphs s !! g = Some G → read_graph g s = Ok (G, s).
Proof. unfold read_graph. by intros ->. Qed.

Lemma write_graph_run g s G G' :
  graphs s !! g = Some G →
  write_graph g G' s = Ok (tt, mkStore (<[g := G']> (graphs s)) (node_graph s)).
Proof. unfold write_graph. by intros ->. Qed.

Lemma set_node_run self n attr s G t :
  graphs s !! self = Some G → node_type n = Some t →
  set_node self n attr s =
  Ok (tt, mkStore (<[self := NX.add_node G n (<["type" := VType t]> attr)]> (graphs s))
                  (Dict.set (node_graph s) n self)).
Proof.
  intros HG Ht. unfold set_node, bind, setattr_graph, lift, getattr_type,
    read_graph, write_graph.
  destruct n as [k|a ty]; [done|]. simpl in *. rewrite Ht. simpl.
  rewrite HG. simpl. by rewrite HG.
Qed.

Lemma set_nodes_run self ns : ∀ s G,
  graphs s !! self = Some G →
  (∀ n, n ∈ ns → is_Some (node_type n)) →
  set_nodes self ns s =
  Ok (tt, mkStore (<[self := add_nodes_with type_attrs G ns]> (graphs s))
                  (Dict.update (node_graph s) ((λ n, (n, self)) <$> ns))).
Proof.
  induction ns as [|n ns IH]; intros s G HG Hty.
  - simpl. unfold ret. rewrite list_insert_id by done. by destruct s.
  - destruct (Hty n) as [t Ht]; [left|].
    unfold set_nodes in *. simpl. rewrite (bind_run _ _ _ _ _ (set_node_run _ _ _ _ _ _ HG Ht)).
    assert (type_attrs n = <["type" := VType t]> ∅) as Ea
      by (unfold type_attrs; by rewrite Ht).
    erewrite IH.
    + simpl. rewrite list_insert_insert_eq. by rewrite Ea.
    + simpl. apply list_lookup_insert_eq. by eapply lookup_lt_Some.
    + intros n' ?. apply Hty. by right.
Qed.

Lemma set_edge_run self u v init s G :
  graphs s !! self = Some G →
  set_edge self u v init s =
  Ok (tt, mkStore (<[self := NX.add_edge G u v {["object" := VEdge (mkEdge u v init)]}]>
                     (graphs s)) (node_graph s)).
Proof.
  intros HG. unfold set_edge. rewrite (bind_run _ _ _ _ _ (read_graph_run _ _ _ HG)).
  by apply write_graph_run with G.
Qed.

Lemma set_edges_run self es : ∀ s G,
  graphs s !! self = Some G →
  set_edges self es s =
  Ok (tt, mkStore (<[self := NX.add_edges_from G (edge_obj <$> es)]> (graphs s))
                  (node_graph s)).
Proof.
  induction es as [|e es IH]; intros s G HG.
  - simpl. unfold ret. rewrite list_insert_id by done. by destruct s.
  - unfold set_edges in *. simpl.
    rewrite (bind_run _ _ _ _ _ (set_edge_run _ _ _ _ _ _ HG)).
    erewrite IH.
    + simpl. by rewrite list_insert_insert_eq.
    + simpl. apply list_lookup_insert_eq. by eapply lookup_lt_Some.
Qed.

(** *** Selections *)

Lemma select_ok (test : attrs → result bool) (tb : attrs → bool) l :
  (∀ p, p ∈ l → test p.2 = Ok (tb p.2)) →
  select test l = Ok (filter (λ p : Node * attrs, tb p.2 = true) l).*1.
Proof.
  induction l as [|[n d] l IH]; intros Ht; [done|].
  simpl. assert (test d = Ok (tb d)) as -> by (apply (Ht (n, d)); left). simpl.
  rewrite IH by (intros p ?; apply Ht; by right). simpl.
  rewrite filter_cons. simpl. destruct (tb d); simpl; done.
Qed.

Lemma select_raise (test : attrs → result bool) e l :
  (∀ p, p ∈ l → test p.2 = Raise e ∨ ∃ b, test p.2 = Ok b) →
  (∃ p, p ∈ l ∧ test p.2 = Raise e) →
  select test l = Raise e.
Proof.
  induction l as [|[n d] l IH]; intros Ht (p & Hp & Hr).
  - by apply elem_of_nil in Hp.
  - simpl. destruct (Ht (n, d)) as [E|[b E]]; [left|..]; simpl in E; rewrite E; [done|].
    simpl. apply elem_of_cons in Hp as [->|Hp]; [simpl in Hr; congruence|].
    rewrite IH; [done| |by exists p]. intros q ?. apply Ht. by right.
Qed.

Lemma type_test_ok t d : is_Some (d !! "type") → type_test t d = Ok (has_type t d).
Proof. intros [v E]. unfold type_test, has_type, item. by rewrite E. Qed.

Lemma part_is_ok z d : is_Some (d !! "bipartite") → part_is z d = Ok (has_part z d).
Proof. intros [v E]. unfold part_is, has_part, item. by rewrite E. Qed.

Lemma get_nodes_run s self G :
  graphs s !! self = Some G →
  (∀ n d, (n, d) ∈ node G → is_Some (d !! "type")) →
  get_vnodes self s
    = Ok ((filter (λ p : Node * attrs, has_type variable_node p.2 = true) (node G)).*1, s)
  ∧ get_fnodes self s
    = Ok ((filter (λ p : Node * attrs, has_type factor_node p.2 = true) (node G)).*1, s).
Proof.
  intros HG Hty.
  assert (∀ t, select (type_test t) (NX.nodes_data G)
               = Ok (filter (λ p : Node * attrs, has_type t p.2 = true) (node G)).*1) as Hsel.
  { intros t. apply (select_ok _ (has_type t)). intros [n d] Hd.
    apply type_test_ok. by apply (Hty n d). }
  split.
  - unfold get_vnodes. rewrite (bind_run _ _ _ _ _ (read_graph_run _ _ _ HG)).
    unfold lift. fold (type_test variable_node). by rewrite Hsel.
  - unfold get_fnodes. rewrite (bind_run _ _ _ _ _ (read_graph_run _ _ _ HG)).
    unfold lift. fold (type_test factor_node). by rewrite Hsel.
Qed.

Lemma elem_select_type t l n :
  n ∈ (filter (λ p : Node * attrs, has_type t p.2 = true) l).*1
  ↔ ∃ d, (n, d) ∈ l ∧ d !! "type" = Some (VType t).
Proof.
  rewrite list_elem_of_fmap. split.
  - intros ([n' d] & -> & [Ht Hin]%list_elem_of_filter). exists d. split; [done|].
    simpl in Ht. unfold has_type in Ht. destruct (d !! "type") as [v|]; [|done].
    destruct v; try done. simpl in Ht. by apply bool_decide_eq_true in Ht as ->.
  - intros (d & Hin & Ht). exists (n, d). split; [done|].
    apply list_elem_of_filter. split; [|done]. simpl. unfold has_type. rewrite Ht.
    simpl. by apply bool_decide_eq_true.
Qed.

(** [update_pop] hands the objects out from the end of the box. *)
Lemma update_pop_run ns : ∀ mapping box,
  length box = length ns →
  update_pop mapping ns box = Ok (Dict.update mapping (zip ns (reverse box)), []).
Proof.
  induction ns as [|n ns IH]; intros mapping box Hl.
  - destruct box; [done|]. simpl in Hl. lia.
  - destruct (reverse box) as [|x r] eqn:E.
    { apply (f_equal length) in E. rewrite length_reverse in E. simpl in *. lia. }
    assert (box = reverse r ++ [x]) as ->.
    { rewrite <- (reverse_involutive box), E. by rewrite reverse_cons. }
    simpl. rewrite list_pop_snoc. simpl.
    rewrite IH.
    + rewrite reverse_involutive. done.
    + rewrite length_app in Hl. simpl in *. lia.
Qed.

(** ** The relabelling dictionary *)

Section zip_update.
Context {V : Type}.
Implicit Types (d : list (Node * V)) (ks : list Node) (vs : list V).

Lemma get_update_zip_other ks : ∀ vs d k,
  k ∉ ks → Dict.get (Dict.update d (zip ks vs)) k = Dict.get d k.
Proof.
  induction ks as [|k0 ks IH]; intros vs d k Hk; [done|].
  apply not_elem_of_cons in Hk as [Hne Hk].
  destruct vs as [|v0 vs]; [done|].
  unfold Dict.update in *. simpl. rewrite IH by done.
  rewrite get_set. by rewrite decide_False.
Qed.

Lemma get_update_zip ks : ∀ vs d i k v,
  NoDup ks → ks !! i = Some k → vs !! i = Some v →
  Dict.get (Dict.update d (zip ks vs)) k = Some v.
Proof.
  induction ks as [|k0 ks IH]; intros vs d i k v ND Hk Hv; [done|].
  apply NoDup_cons in ND as [Hk0 ND].
  destruct vs as [|v0 vs]; [by destruct i|].
  destruct i as [|i]; simpl in Hk, Hv.
  - injection Hk as ->. injection Hv as ->.
    change (Dict.update d (zip (k :: ks) (v :: vs)))
      with (Dict.update (Dict.set d k v) (zip ks vs)).
    rewrite get_update_zip_other by done. rewrite get_set. by rewrite decide_True.
  - change (Dict.update d (zip (k0 :: ks) (v0 :: vs)))
      with (Dict.update (Dict.set d k0 v0) (zip ks vs)).
    by apply IH with i.
Qed.

Lemma keys_update_zip ks : ∀ vs d,
  (∀ k, k ∈ ks → k ∈ Dict.keys d) →
  Dict.keys (Dict.update d (zip ks vs)) = Dict.keys d.
Proof.
  intros vs d Hk. apply keys_update_present. intros k Hin. apply Hk.
  unfold Dict.keys in Hin. apply list_elem_of_fmap in Hin as ([k' v'] & -> & Hin).
  simpl. clear Hk. revert vs Hin. induction ks as [|k0 ks IH]; intros vs Hin.
  - by apply elem_of_nil in Hin.
  - destruct vs as [|v0 vs]; [by apply elem_of_nil in Hin|].
    simpl in Hin. apply elem_of_cons in Hin as [E|Hin].
    + injection E as -> ->. left.
    + right. by apply IH with vs.
Qed.

End zip_update.

Lemma zip_diag (ns : list Node) : zip ns ns = (λ n, (n, n)) <$> ns.
Proof. induction ns as [|n ns IH]; csimpl; [done|]. by rewrite IH. Qed.

Lemma reverse_box {A} (f : nat → A) k i :
  i < k → reverse (f <$> seq 0 k) !! i = Some (f (k - 1 - i)).
Proof.
  intros Hi. rewrite reverse_lookup by (rewrite length_fmap, length_seq; lia).
  rewrite length_fmap, length_seq, list_lookup_fmap.
  rewrite lookup_seq_lt by lia. simpl. f_equal. f_equal. lia.
Qed.

(** A dictionary with distinct keys, as the list of its bindings. *)
Lemma dict_as_fmap {V} (d : list (Node * V)) (f : Node → V) :
  (∀ k v, (k, v) ∈ d → f k = v) → d = (λ k, (k, f k)) <$> Dict.keys d.
Proof.
  induction d as [|[k v] d IH]; intros Hf; csimpl; [done|].
  rewrite (Hf k v) by left. f_equal. apply IH. intros k' v' ?. apply Hf. by right.
Qed.

Lemma part_nodes_elem z l n :
  n ∈ part_nodes z l ↔ ∃ d, (n, d) ∈ l ∧ has_part z d = true.
Proof.
  unfold part_nodes. rewrite list_elem_of_fmap. split.
  - intros ([n' d] & -> & [??]%list_elem_of_filter). by exists d.
  - intros (d & ? & ?). exists (n, d). split; [done|]. by apply list_elem_of_filter.
Qed.

Lemma filter_keys_nodup {V} (P : Node * V → Prop) `{∀ p, Decision (P p)} (l : list (Node * V)) :
  NoDup (l.*1) → NoDup ((filter P l).*1).
Proof.
  induction l as [|[k v] l IH]; intros ND; [constructor|].
  apply NoDup_cons in ND as [Hk ND]. rewrite filter_cons.
  destruct (decide (P (k, v))); [|by apply IH].
  csimpl. apply NoDup_cons. split; [|by apply IH].
  intros ([k' v'] & E & [_ Hin]%list_elem_of_filter)%list_elem_of_fmap.
  simpl in E. subst. apply Hk. apply list_elem_of_fmap. by exists (k', v').
Qed.

Lemma part_nodes_nodup z l : NoDup (l.*1) → NoDup (part_nodes z l).
Proof. apply filter_keys_nodup. Qed.

Lemma has_part_disjoint d : has_part 0 d = true → has_part 1 d = true → False.
Proof.
  unfold has_part. destruct (d !! "bipartite") as [v|]; [|done].
  destruct v as [| [|] | z | | | |]; simpl; try done.
  intros ->%bool_decide_eq_true. done.
Qed.

Section mapping.
Variable vnode : nat → Node.
Variable fnode : nat → value → Node.
Variables ns vn fn : list Node.

Hypothesis ns_nodup : NoDup ns.
Hypothesis vn_nodup : NoDup vn.
Hypothesis fn_nodup : NoDup fn.
Hypothesis vn_sub : ∀ n, n ∈ vn → n ∈ ns.
Hypothesis fn_sub : ∀ n, n ∈ fn → n ∈ ns.
Hypothesis vn_fn : ∀ n, n ∈ vn → n ∈ fn → False.

Local Abbreviation mp := (mapping_of vnode fnode ns vn fn).
Local Abbreviation m := (relabel_fun mp).

Lemma base_mapping : Dict.of_pairs (zip ns ns) = (λ n, (n, n)) <$> ns.
Proof.
  rewrite zip_diag. apply of_pairs_nodup. unfold Dict.keys.
  rewrite <- list_fmap_compose. by rewrite list_fmap_id.
Qed.

Lemma base_keys : Dict.keys (Dict.of_pairs (zip ns ns)) = ns.
Proof.
  rewrite base_mapping. unfold Dict.keys. rewrite <- list_fmap_compose.
  by rewrite list_fmap_id.
Qed.

Lemma mapping_keys : Dict.keys mp = ns.
Proof.
  unfold mapping_of. rewrite !keys_update_zip; [apply base_keys|..].
  - by rewrite base_keys.
  - rewrite keys_update_zip; by rewrite base_keys.
Qed.

Lemma base_get n : n ∈ ns → Dict.get (Dict.of_pairs (zip ns ns)) n = Some n.
Proof.
  intros Hn. apply get_elem; [by rewrite base_keys|].
  rewrite base_mapping. apply list_elem_of_fmap. by exists n.
Qed.

Lemma mapping_vn i n :
  vn !! i = Some n → Dict.get mp n = Some (vnode (length vn - 1 - i)).
Proof.
  intros Hi. unfold mapping_of.
  rewrite get_update_zip_other.
  - apply (get_update_zip _ _ _ i); [done..|].
    apply reverse_box. by eapply lookup_lt_Some.
  - intros ?. apply (vn_fn n); [|done]. by eapply list_elem_of_lookup_2.
Qed.

Lemma mapping_fn j n :
  fn !! j = Some n → Dict.get mp n = Some (fnode (length fn - 1 - j) VNone).
Proof.
  intros Hj. unfold mapping_of.
  apply (get_update_zip _ _ _ j); [done..|].
  apply (reverse_box (λ i, fnode i VNone)). by eapply lookup_lt_Some.
Qed.

Lemma mapping_other n :
  n ∈ ns → n ∉ vn → n ∉ fn → Dict.get mp n = Some n.
Proof.
  intros Hn Hv Hf. unfold mapping_of.
  rewrite !get_update_zip_other by done. by apply base_get.
Qed.

(** Every node of [ns] falls in one of three classes. *)
Lemma mapping_cases n :
  n ∈ ns →
  (∃ i, i < length vn ∧ vn !! (length vn - 1 - i) = Some n ∧ m n = vnode i)
  ∨ (∃ j, j < length fn ∧ fn !! (length fn - 1 - j) = Some n ∧ m n = fnode j VNone)
  ∨ ((n ∉ vn) ∧ (n ∉ fn) ∧ m n = n).
Proof.
  intros Hn. unfold relabel_fun.
  destruct (decide (n ∈ vn)) as [Hv|Hv]; [|destruct (decide (n ∈ fn)) as [Hf|Hf]].
  - left. apply list_elem_of_lookup_1 in Hv as [i Hi].
    pose proof (lookup_lt_Some _ _ _ Hi) as Hlt.
    exists (length vn - 1 - i). split_and!; [lia| |].
    + replace (length vn - 1 - (length vn - 1 - i)) with i by lia. done.
    + by rewrite (mapping_vn i n).
  - right. left. apply list_elem_of_lookup_1 in Hf as [j Hj].
    pose proof (lookup_lt_Some _ _ _ Hj) as Hlt.
    exists (length fn - 1 - j). split_and!; [lia| |].
    + replace (length fn - 1 - (length fn - 1 - j)) with j by lia. done.
    + by rewrite (mapping_fn j n).
  - right. right. split_and!; [done..|]. by rewrite mapping_other.
Qed.

Lemma mapping_get n : n ∈ ns → Dict.get mp n = Some (m n).
Proof.
  intros Hn. unfold relabel_fun.
  assert (is_Some (Dict.get mp n)) as [x ->]; [|done].
  apply get_is_Some. by rewrite mapping_keys.
Qed.

Lemma mapping_as_fmap : mp = (λ n, (n, m n)) <$> ns.
Proof.
  pose proof (dict_as_fmap mp m) as E. rewrite mapping_keys in E.
  apply E. intros k v Hkv. unfold relabel_fun.
  rewrite (get_elem mp k v); [done| |done]. rewrite mapping_keys. done.
Qed.

Hypothesis vnode_typed : ∀ i, node_type (vnode i) = Some variable_node.
Hypothesis fnode_typed : ∀ i, node_type (fnode i VNone) = Some factor_node.
Hypothesis vnode_inj : ∀ i j, vnode i = vnode j → i = j.
Hypothesis fnode_inj : ∀ i j, fnode i VNone = fnode j VNone → i = j.
Hypothesis vnode_fresh : ∀ i, vnode i ∉ ns.
Hypothesis fnode_fresh : ∀ i, fnode i VNone ∉ ns.

Lemma vnode_fnode i j : vnode i ≠ fnode j VNone.
Proof.
  intros E. pose proof (vnode_typed i) as Hv. rewrite E, fnode_typed in Hv. done.
Qed.

Lemma mapping_inj a b : a ∈ ns → b ∈ ns → m a = m b → a = b.
Proof.
  intros Ha Hb E.
  destruct (mapping_cases a Ha) as [(i & _ & Hi & Ea)|[(i & _ & Hi & Ea)|(Hav & Haf & Ea)]],
           (mapping_cases b Hb) as [(j & _ & Hj & Eb)|[(j & _ & Hj & Eb)|(Hbv & Hbf & Eb)]];
    rewrite Ea, Eb in E.
  - apply vnode_inj in E as ->. congruence.
  - by apply vnode_fnode in E.
  - exfalso. apply (vnode_fresh i). by rewrite E.
  - symmetry in E. by apply vnode_fnode in E.
  - apply fnode_inj in E as ->. congruence.
  - exfalso. apply (fnode_fresh i). by rewrite E.
  - exfalso. apply (vnode_fresh j). by rewrite <- E.
  - exfalso. apply (fnode_fresh j). by rewrite <- E.
  - done.
Qed.

End mapping.

(** ** The factor nodes of the non-bipartite branch *)

Section put_factors.
Variable fnode : nat → value → Node.

Hypothesis fnode_typed : ∀ i, node_type (fnode i VNone) = Some factor_node.

Lemma factor_loop_run fg es : ∀ s G,
  graphs s !! fg = Some G →
  ∃ ng, factor_loop fnode fg es (seq 0 (length es)) s
        = Ok (tt, mkStore (<[fg := put_factors fnode G es]> (graphs s)) ng).
Proof.
  induction es as [|e es IH]; intros s G HG.
  - exists (node_graph s). simpl. unfold ret. rewrite list_insert_id by done. by destruct s.
  - cbn [factor_loop length].
    assert (lift (list_pop (seq 0 (S (length es)))) s = Ok ((length es, seq 0 (length es)), s)) as E1.
    { unfold lift. by rewrite list_pop_seq. }
    rewrite (bind_run _ _ _ _ _ E1). cbn [fst snd].
    rewrite (bind_run _ _ _ _ _ (set_node_run _ _ _ _ _ _ HG (fnode_typed (length es)))).
    set (G1 := NX.add_node G _ _).
    set (s1 := mkStore _ _).
    assert (graphs s1 !! fg = Some G1) as HG1.
    { simpl. apply list_lookup_insert_eq. by eapply lookup_lt_Some. }
    rewrite (bind_run _ _ _ _ _ (set_edges_run _ _ _ _ HG1)).
    set (G2 := NX.add_edges_from G1 _).
    set (s2 := mkStore _ _).
    assert (graphs s2 !! fg = Some G2) as HG2.
    { simpl. apply list_lookup_insert_eq. rewrite length_insert. by eapply lookup_lt_Some. }
    destruct (IH s2 G2 HG2) as [ng ->]. exists ng.
    simpl. rewrite !list_insert_insert_eq. do 4 f_equal.
    unfold G2, G1, type_attrs. by rewrite fnode_typed.
Qed.

Hypothesis fnode_inj : ∀ i j, fnode i VNone = fnode j VNone → i = j.

Lemma nbr_keys_absent G x : wf G → x ∉ NX.nodes G → nbr_keys G x = [].
Proof.
  intros W Hx. unfold nbr_keys. unfold NX.nodes in Hx.
  rewrite <- (wf_keys _ W) in Hx. apply get_None in Hx. by rewrite Hx.
Qed.

Lemma put_factors_spec es : ∀ G,
  wf G →
  (∀ e, e ∈ es → e.1 ∈ NX.nodes G ∧ e.2 ∈ NX.nodes G) →
  (∀ j, j < length es → fnode j VNone ∉ NX.nodes G) →
  wf (put_factors fnode G es)
  ∧ node (put_factors fnode G es)
    = node G ++ ((λ j, (fnode j VNone, type_attrs (fnode j VNone)))
                   <$> reverse (seq 0 (length es)))
  ∧ (∀ x y, y ∈ nbr_keys (put_factors fnode G es) x →
       y ∈ nbr_keys G x
       ∨ ∃ j e, j < length es ∧ e ∈ es ∧
           ((x = fnode j VNone ∧ (y = e.1 ∨ y = e.2))
            ∨ (y = fnode j VNone ∧ (x = e.1 ∨ x = e.2))))
  ∧ ((∀ e, e ∈ es → e.1 ≠ e.2) →
     NX.sum_degree (put_factors fnode G es) = NX.sum_degree G + 4 * length es).
Proof.
  induction es as [|e es IH]; intros G W Hends Hfresh.
  - simpl. split_and!; [done|by rewrite app_nil_r|by left|intros _; lia].
  - cbn [put_factors length].
    set (f := fnode (length es) VNone).
    set (G1 := NX.add_node G f (type_attrs f)).
    set (G2 := NX.add_edges_from G1 (edge_obj <$> [(e.1, f); (f, e.2)])).
    assert (f ∉ NX.nodes G) as Hf by (apply Hfresh; simpl; lia).
    destruct (Hends e) as [He1 He2]; [left|].
    assert (wf G1) as W1 by by apply wf_add_node.
    assert (wf G2) as W2 by by apply wf_add_edges_from.
    assert (NX.nodes G1 = NX.nodes G ++ [f]) as N1.
    { unfold G1. rewrite add_node_nodes. by apply add_key_absent. }
    assert (node G1 = node G ++ [(f, type_attrs f)]) as D1.
    { unfold G1, NX.add_node. apply has_node_false in Hf. rewrite Hf. simpl.
      apply set_absent. by apply has_node_false. }
    assert (node G2 = node G1) as D2.
    { unfold G2. apply add_edges_from_node. intros e' He'. rewrite N1, !elem_of_app.
      apply elem_of_cons in He' as [->|He']; [|apply elem_of_cons in He' as [->|He']];
        [| |by apply elem_of_nil in He']; simpl; split.
      - by left.
      - right. left.
      - right. left.
      - by left. }
    assert (NX.nodes G2 = NX.nodes G ++ [f]) as N2.
    { unfold NX.nodes. rewrite D2. apply N1. }
    destruct (IH G2 W2) as (W' & D' & E' & C').
    { intros e' He'. rewrite N2, !elem_of_app. destruct (Hends e') as [??]; [by right|].
      split; by left. }
    { intros j Hj. rewrite N2, elem_of_app, list_elem_of_singleton.
      intros [Hin|Heq].
      - apply (Hfresh j); [simpl; lia|done].
      - apply fnode_inj in Heq. lia. }
    assert (∀ x y, y ∈ nbr_keys G2 x ↔
              y ∈ nbr_keys G x ∨ same_edge (x, y) (e.1, f) ∨ same_edge (x, y) (f, e.2)) as E2.
    { intros x y. unfold G2. rewrite add_edges_from_nbr by done.
      unfold G1 at 1. rewrite add_node_nbr_keys by apply W.
      split.
      - intros [?|(e' & He' & Hs)]; [by left|]. right.
        apply elem_of_cons in He' as [->|He']; [by left|].
        apply elem_of_cons in He' as [->|He']; [by right|].
        by apply elem_of_nil in He'.
      - intros [?|[Hs|Hs]]; [by left|..]; right.
        + exists (edge_obj (e.1, f)). split; [left|done].
        + exists (edge_obj (f, e.2)). split; [right; left|done]. }
    split_and!.
    + done.
    + rewrite D', D2, D1, <- app_assoc. f_equal.
      rewrite seq_S, reverse_snoc. done.
    + intros x y Hxy. apply E' in Hxy as [Hxy|(j & e' & Hj & He' & Hc)].
      * apply E2 in Hxy as [?|[Hs|Hs]]; [by left|..]; right;
          exists (length es), e; (split_and!; [simpl; lia|left|]);
          destruct Hs as [Hs|Hs]; cbn [fst snd] in Hs; injection Hs as -> ->; fold f.
        -- right. split; [done|by left].
        -- left. split; [done|by left].
        -- left. split; [done|by right].
        -- right. split; [done|by right].
      * right. exists j, e'. split_and!; [simpl; lia|by right|done].
    + intros Hloop. rewrite C' by (intros e' ?; apply Hloop; by right).
      unfold G2. rewrite add_edges_from_count; [| done | |].
      * unfold G1. rewrite sum_degree_add_node by done. simpl. lia.
      * simpl. split_and!; [|by intros ? ?%elem_of_nil|done]. intros e' He'.
        apply list_elem_of_singleton in He' as ->. intros [Hs|Hs]; simpl in Hs.
        -- injection Hs as Hs _. rewrite Hs in He1. done.
        -- injection Hs as Hs. apply (Hloop e); [left|done].
      * intros e' He'. unfold G1. rewrite add_node_nbr_keys by apply W.
        apply elem_of_cons in He' as [->|He']; [|apply elem_of_cons in He' as [->|He']];
          [| |by apply elem_of_nil in He']; simpl.
        -- intros Hin. apply Hf. by apply (wf_closed _ W e.1).
        -- rewrite (nbr_keys_absent G f) by done. apply not_elem_of_nil.
Qed.

End put_factors.

(** ** The origin attribute *)

Lemma alter_as_fmap {V} (f : V → V) k (d : list (Node * V)) :
  NoDup (Dict.keys d) →
  Dict.alter f k d = (λ p, if decide (p.1 = k) then (p.1, f p.2) else p) <$> d.
Proof.
  induction d as [|[k0 v0] d IH]; intros ND; csimpl; [done|].
  apply NoDup_cons in ND as [Hk ND]. simpl in Hk.
  destruct (decide (k = k0)) as [->|Ne].
  - rewrite decide_True by done. f_equal.
    rewrite <- (list_fmap_id d) at 1. apply list_fmap_ext. intros i [k' v'] Hi. simpl.
    rewrite decide_False; [done|]. intros ->. apply Hk.
    apply list_elem_of_fmap. exists (k0, v'). split; [done|]. by eapply list_elem_of_lookup_2.
  - rewrite (decide_False (P := k0 = k)) by done. f_equal. by apply IH.
Qed.

Lemma set_node_attributes_run name values : ∀ G,
  NoDup (Dict.keys values) → NoDup (NX.nodes G) →
  (∀ k, k ∈ Dict.keys values → k ∈ NX.nodes G) →
  NX.set_node_attributes G name values
  = Ok (mkGraph (graph G) (with_attribute name values (node G)) (adj G)).
Proof.
  induction values as [|[k v] values IH]; intros G NDv NDg Hin.
  - simpl. unfold with_attribute. simpl.
    assert (∀ l : list (Node * attrs), (λ p : Node * attrs, (p.1, p.2)) <$> l = l) as E.
    { intros l. induction l as [|[??] l IHl]; csimpl; [done|]. by rewrite IHl. }
    rewrite E. by destruct G.
  - apply NoDup_cons in NDv as [Hk NDv]. simpl in Hk.
    assert (NX.has_node G k = true) as Hn by (apply has_node_spec, Hin; left).
    cbn [NX.set_node_attributes]. rewrite Hn.
    rewrite IH; simpl.
    + f_equal. f_equal. rewrite alter_as_fmap by done.
      unfold with_attribute. rewrite <- list_fmap_compose.
      apply list_fmap_ext. intros i [k' d'] _. simpl.
      destruct (decide (k' = k)) as [->|Ne]; simpl.
      * apply get_None in Hk. by rewrite Hk.
      * done.
    + done.
    + unfold NX.nodes. simpl. by rewrite keys_alter.
    + intros k' Hk'. unfold NX.nodes. simpl. rewrite keys_alter. apply Hin. by right.
Qed.

(** ** The result of convert_to_fg *)

Section conv.
Variable vnode : nat → Node.
Variable fnode : nat → value → Node.

Variable b : bool.
Variable G : Graph.
Hypothesis W : wf G.
Hypothesis F : factories_ok vnode fnode G.
Hypothesis Hb : b = true → labelled G ∧ kept_typed G.

#[local] Set Default Proof Using "W F Hb".

Local Abbreviation ns := (NX.nodes G).
Local Abbreviation vn := (conv_vn b G).
Local Abbreviation fn := (conv_fn b G).
Local Abbreviation m := (relabel_fun (conv_mapping vnode fnode b G)).
Local Abbreviation H := (conv_H vnode fnode b G).

Lemma node_data_unique n d d' : (n, d) ∈ node G → (n, d') ∈ node G → d = d'.
Proof.
  intros E1 E2. pose proof (wf_nodup _ W) as ND.
  apply (get_elem _ _ _ ND) in E1, E2. congruence.
Qed.

Lemma conv_vn_nodup : NoDup vn.
Proof.
  unfold conv_vn. destruct (Bool.bool_dec b true) as [-> | ->%Bool.not_true_is_false];
    [apply part_nodes_nodup|]; apply W.
Qed.

Lemma conv_fn_nodup : NoDup fn.
Proof.
  unfold conv_fn. destruct (Bool.bool_dec b true) as [-> | ->%Bool.not_true_is_false];
    [apply part_nodes_nodup, W|constructor].
Qed.

Lemma conv_vn_sub n : n ∈ vn → n ∈ ns.
Proof.
  unfold conv_vn. destruct (Bool.bool_dec b true) as [Eb|Eb%Bool.not_true_is_false];
    rewrite Eb; [|done].
  intros (d & Hd & _)%part_nodes_elem.
  apply list_elem_of_fmap. by exists (n, d).
Qed.

Lemma conv_fn_sub n : n ∈ fn → n ∈ ns.
Proof.
  unfold conv_fn. destruct (Bool.bool_dec b true) as [Eb|Eb%Bool.not_true_is_false];
    rewrite Eb; [|by intros ?%elem_of_nil].
  intros (d & Hd & _)%part_nodes_elem. apply list_elem_of_fmap. by exists (n, d).
Qed.

Lemma conv_vn_fn n : n ∈ vn → n ∈ fn → False.
Proof.
  unfold conv_vn, conv_fn. destruct (Bool.bool_dec b true) as [Eb|Eb%Bool.not_true_is_false];
    rewrite Eb; [|by intros _ ?%elem_of_nil].
  intros (d & Hd & H0)%part_nodes_elem (d' & Hd' & H1)%part_nodes_elem.
  rewrite (node_data_unique _ _ _ Hd Hd') in H0. by apply (has_part_disjoint d').
Qed.

Lemma conv_cases n :
  n ∈ ns →
  (∃ i, i < length vn ∧ vn !! (length vn - 1 - i) = Some n ∧ m n = vnode i)
  ∨ (∃ j, j < length fn ∧ fn !! (length fn - 1 - j) = Some n ∧ m n = fnode j VNone)
  ∨ ((n ∉ vn) ∧ (n ∉ fn) ∧ m n = n).
Proof.
  apply mapping_cases; [apply W|apply conv_vn_nodup|apply conv_fn_nodup|apply conv_vn_fn].
Qed.

Lemma conv_m_inj x y : x ∈ ns → y ∈ ns → m x = m y → x = y.
Proof.
  destruct F. apply mapping_inj; try done.
  - apply W.
  - apply conv_vn_nodup.
  - apply conv_fn_nodup.
  - apply conv_vn_fn.
Qed.

Lemma conv_mapping_fmap : conv_mapping vnode fnode b G = (λ n, (n, m n)) <$> ns.
Proof.
  apply mapping_as_fmap; [apply W|apply conv_vn_sub|apply conv_fn_sub].
Qed.

Lemma conv_m_typed n : n ∈ ns → is_Some (node_type (m n)).
Proof.
  intros Hn. destruct (conv_cases n Hn) as [(i & _ & _ & ->)|[(j & _ & _ & ->)|(Hv & Hf & ->)]].
  - rewrite (vnode_typed _ _ _ F). eauto.
  - rewrite (fnode_typed _ _ _ F). eauto.
  - unfold conv_vn, conv_fn in Hv, Hf.
    destruct (Bool.bool_dec b true) as [Eb|Eb%Bool.not_true_is_false];
      rewrite Eb in Hv, Hf; [|done].
    destruct (Hb Eb) as [_ Hk].
    apply list_elem_of_fmap in Hn as ([n' d] & -> & Hd). simpl in *.
    apply (Hk n' d Hd).
    + destruct (has_part 0 d) eqn:E; [|done]. exfalso. apply Hv.
      apply part_nodes_elem. by exists d.
    + destruct (has_part 1 d) eqn:E; [|done]. exfalso. apply Hf.
      apply part_nodes_elem. by exists d.
Qed.

Lemma conv_H_wf : wf H.
Proof. by apply relabel_wf. Qed.

Lemma conv_H_nodes x : x ∈ NX.nodes H ↔ ∃ n, n ∈ ns ∧ x = m n.
Proof. by apply relabel_nodes_elem. Qed.

Lemma conv_H_perm : NX.nodes H ≡ₚ m <$> ns.
Proof. apply relabel_nodes_perm; [done|apply conv_m_inj]. Qed.

Lemma conv_H_typed x : x ∈ NX.nodes H → is_Some (node_type x).
Proof. intros (n & Hn & ->)%conv_H_nodes. by apply conv_m_typed. Qed.

(** *** The factor graph before the origins are attached *)

Local Abbreviation fg1 := (add_nodes_with type_attrs FG0 (NX.nodes H)).

Lemma fg1_wf : wf fg1.
Proof. apply wf_add_nodes_with, wf_empty. Qed.

Lemma fg1_node : node fg1 = (λ n, (n, type_attrs n)) <$> NX.nodes H.
Proof.
  rewrite add_nodes_with_fresh; [done|apply conv_H_wf|].
  intros n _. apply not_elem_of_nil.
Qed.

Lemma fg1_nodes : NX.nodes fg1 = NX.nodes H.
Proof.
  unfold NX.nodes at 1. rewrite fg1_node. unfold Dict.keys.
  rewrite <- list_fmap_compose. apply list_fmap_id.
Qed.

Lemma fg1_nbr x : nbr_keys fg1 x = [].
Proof. rewrite add_nodes_with_nbr_keys by apply wf_empty. done. Qed.

Lemma fg1_sum_degree : NX.sum_degree fg1 = 0.
Proof. rewrite add_nodes_with_sum_degree by apply wf_empty. done. Qed.

Lemma H_edge_ends e : e ∈ NX.edges_iter H → e.1 ∈ NX.nodes H ∧ e.2 ∈ NX.nodes H.
Proof.
  destruct e as [x y]. intros Hxy%edges_iter_elem; [|apply conv_H_wf]. simpl. split.
  - apply (wf_closed _ conv_H_wf y). by apply conv_H_wf.
  - by apply (wf_closed _ conv_H_wf x).
Qed.

Lemma fnode_not_in_H j : b = false → fnode j VNone ∉ NX.nodes H.
Proof.
  intros Eb (n & Hn & E)%conv_H_nodes.
  destruct (conv_cases n Hn) as [(i & _ & _ & Em)|[(i & Hi & _)|(Hv & _)]].
  - rewrite Em in E. pose proof (vnode_typed _ _ _ F i) as T.
    rewrite <- E, (fnode_typed _ _ _ F) in T. done.
  - unfold conv_fn in Hi. rewrite Eb in Hi. simpl in Hi. lia.
  - unfold conv_vn in Hv. by rewrite Eb in Hv.
Qed.

Lemma out0_spec_nonbip :
  b = false →
  wf (conv_out0 vnode fnode b G)
  ∧ node (conv_out0 vnode fnode b G)
    = ((λ n, (n, type_attrs n)) <$> NX.nodes H)
      ++ ((λ j, (fnode j VNone, type_attrs (fnode j VNone)))
            <$> reverse (seq 0 (length (NX.edges_iter H))))
  ∧ (∀ x y, y ∈ nbr_keys (conv_out0 vnode fnode b G) x →
       ∃ j e, j < length (NX.edges_iter H) ∧ e ∈ NX.edges_iter H ∧
         ((x = fnode j VNone ∧ (y = e.1 ∨ y = e.2))
          ∨ (y = fnode j VNone ∧ (x = e.1 ∨ x = e.2))))
  ∧ ((∀ x, x ∉ nbr_keys G x) →
     NX.sum_degree (conv_out0 vnode fnode b G) = 4 * length (NX.edges_iter H)).
Proof.
  intros Eb. unfold conv_out0. rewrite Eb. fold (conv_H vnode fnode false G). rewrite <- Eb.
  destruct (put_factors_spec fnode (fnode_inj _ _ _ F) (NX.edges_iter H) fg1)
    as (Wf & Dn & En & Cn).
  - apply fg1_wf.
  - intros e He. rewrite fg1_nodes. by apply H_edge_ends.
  - intros j _. rewrite fg1_nodes. by apply fnode_not_in_H.
  - split_and!; [done| | |].
    + by rewrite Dn, fg1_node.
    + intros x y Hxy. destruct (En x y Hxy) as [Hn|?]; [|done].
      rewrite fg1_nbr in Hn. by apply elem_of_nil in Hn.
    + intros Hl. rewrite Cn, fg1_sum_degree; [done|].
      intros [x y] Hxy%edges_iter_elem; [|apply conv_H_wf]. simpl. intros ->.
      revert Hxy. apply relabel_no_loops; [done|apply conv_m_inj|done].
Qed.

Lemma out0_spec_bip :
  b = true →
  wf (conv_out0 vnode fnode b G)
  ∧ node (conv_out0 vnode fnode b G) = (λ n, (n, type_attrs n)) <$> NX.nodes H
  ∧ (∀ x y, y ∈ nbr_keys (conv_out0 vnode fnode b G) x → y ∈ nbr_keys H x).
Proof.
  intros Eb. unfold conv_out0. rewrite Eb. fold (conv_H vnode fnode true G). rewrite <- Eb.
  split_and!.
  - apply wf_add_edges_from, fg1_wf.
  - rewrite add_edges_from_node; [apply fg1_node|].
    intros e (e0 & -> & He0)%list_elem_of_fmap. rewrite fg1_nodes. simpl.
    by apply H_edge_ends.
  - intros x y. rewrite add_edges_from_nbr by apply fg1_wf. rewrite fg1_nbr.
    intros [[]%elem_of_nil|(e & (e0 & -> & He0)%list_elem_of_fmap & Hs)].
    destruct e0 as [u v]. apply edges_iter_elem in He0; [|apply conv_H_wf].
    destruct Hs as [Hs|Hs]; simpl in Hs; injection Hs as -> ->; [done|].
    by apply conv_H_wf.
Qed.

Lemma out0_wf : wf (conv_out0 vnode fnode b G).
Proof.
  destruct (Bool.bool_dec b true) as [Eb|Eb%Bool.not_true_is_false].
  - by apply out0_spec_bip.
  - by apply out0_spec_nonbip.
Qed.

Lemma out0_has_H x : x ∈ NX.nodes H → x ∈ NX.nodes (conv_out0 vnode fnode b G).
Proof.
  intros Hx. unfold NX.nodes at 1.
  destruct (Bool.bool_dec b true) as [Eb|Eb%Bool.not_true_is_false].
  - destruct (out0_spec_bip Eb) as (_ & -> & _).
    unfold Dict.keys. rewrite <- list_fmap_compose, list_fmap_id. done.
  - destruct (out0_spec_nonbip Eb) as (_ & -> & _).
    unfold Dict.keys. rewrite fmap_app, <- list_fmap_compose, list_fmap_id.
    apply elem_of_app. by left.
Qed.

(** *** The origin dictionary *)

Lemma conv_origin_fmap : conv_origin vnode fnode b G = (λ n, (m n, VNode n)) <$> ns.
Proof.
  unfold conv_origin. pose proof conv_mapping_fmap as E.
  pose proof conv_m_inj as Hinj.
  set (f := relabel_fun (conv_mapping vnode fnode b G)) in *.
  rewrite E, <- list_fmap_compose.
  apply of_pairs_nodup. unfold Dict.keys. rewrite <- list_fmap_compose.
  apply (NoDup_fmap_2_strong (λ n, f n)); [|apply W].
  intros x y ???. by apply Hinj.
Qed.

Lemma conv_origin_keys : Dict.keys (conv_origin vnode fnode b G) = m <$> ns.
Proof.
  rewrite conv_origin_fmap. unfold Dict.keys. by rewrite <- list_fmap_compose.
Qed.

Lemma conv_origin_nodup : NoDup (Dict.keys (conv_origin vnode fnode b G)).
Proof.
  rewrite conv_origin_keys. apply (NoDup_fmap_2_strong (λ n, m n)); [|apply W].
  intros x y ???. by apply conv_m_inj.
Qed.

Lemma conv_origin_get n : n ∈ ns → Dict.get (conv_origin vnode fnode b G) (m n) = Some (VNode n).
Proof.
  intros Hn. apply get_elem; [apply conv_origin_nodup|].
  rewrite conv_origin_fmap. apply list_elem_of_fmap. by exists n.
Qed.

Lemma conv_origin_get_None x : x ∉ NX.nodes H → Dict.get (conv_origin vnode fnode b G) x = None.
Proof.
  intros Hx. apply get_None. rewrite conv_origin_keys.
  intros (n & -> & Hn)%list_elem_of_fmap. apply Hx. apply conv_H_nodes. by exists n.
Qed.

Lemma conv_origin_run :
  NX.set_node_attributes (conv_out0 vnode fnode b G) "origin" (conv_origin vnode fnode b G) = Ok (conv_out vnode fnode b G).
Proof.
  apply set_node_attributes_run.
  - apply conv_origin_nodup.
  - apply out0_wf.
  - intros k Hk. rewrite conv_origin_keys in Hk.
    apply list_elem_of_fmap in Hk as (n & -> & Hn).
    apply out0_has_H, conv_H_nodes. by exists n.
Qed.

End conv.

#[local] Unset Default Proof Using.

(** ** Running convert_to_fg *)

Lemma lookup_at_end {A} (l : list A) x r : (l ++ x :: r) !! length l = Some x.
Proof. by rewrite list_lookup_middle. Qed.

Lemma insert_at_end {A} (l : list A) x y r : <[length l := y]> (l ++ x :: r) = l ++ y :: r.
Proof.
  rewrite insert_app_r_alt by lia. by rewrite Nat.sub_diag.
Qed.

Lemma bind_assoc {A B C} (c : M A) (k1 : A → M B) (k2 : B → M C) s :
  bind (bind c k1) k2 s = bind c (λ x, bind (k1 x) k2) s.
Proof. unfold bind. destruct (c s) as [[a s']|e]; done. Qed.

Ltac step tac := rewrite ?bind_assoc; erewrite bind_run; [|tac].

Section conv_run.
Variable vnode : nat → Node.
Variable fnode : nat → value → Node.
Variable b : bool.
Variable G : Graph.
Hypothesis W : wf G.
Hypothesis F : factories_ok vnode fnode G.
Hypothesis Hb : b = true → labelled G ∧ kept_typed G.
Variables (gs : list Graph) (ng : list (Node * nat)) (g : nat).
Hypothesis Hg : gs !! g = Some G.

Lemma select_part_run z :
  b = true → select (part_is z) (NX.nodes_data G) = Ok (part_nodes z (node G)).
Proof.
  intros Eb. destruct (Hb Eb) as [Hl _]. apply (select_ok _ (has_part z)).
  intros [n d] Hd. apply part_is_ok. by apply (Hl n d).
Qed.

Lemma convert_to_fg_run :
  ∃ ng', convert_to_fg vnode fnode g b (mkStore gs ng)
         = Ok (length gs,
               mkStore (gs ++ [conv_out vnode fnode b G; conv_H vnode fnode b G]) ng').
Proof.
  unfold convert_to_fg.
  step ltac:(by apply read_graph_run).
  step ltac:(reflexivity). simpl graphs. simpl node_graph.
  assert ((gs ++ [FG0]) !! g = Some G) as Hg1 by by apply lookup_app_l_Some.
  pose proof (conv_origin_run vnode fnode b G W F Hb) as Horigin.
  pose proof (conv_H_typed vnode fnode b G W F Hb) as Htyped.
  unfold conv_out, conv_origin, conv_out0, conv_H, conv_mapping, mapping_of,
    conv_vn, conv_fn in *.
  destruct (Bool.bool_dec b true) as [Eb|Eb%Bool.not_true_is_false];
    rewrite Eb in Horigin, Htyped |- *.
  - step ltac:(by apply read_graph_run).
    step ltac:(unfold lift; by rewrite select_part_run).
    step ltac:(unfold lift; by rewrite select_part_run).
    step ltac:(unfold lift; rewrite update_pop_run
                 by (by rewrite length_fmap, length_seq); reflexivity).
    step ltac:(unfold lift; rewrite update_pop_run
                 by (by rewrite length_fmap, length_seq); reflexivity).
    cbn [fst snd].
    unfold relabel_nodes.
    step ltac:(by apply read_graph_run).
    step ltac:(reflexivity).
    simpl graphs; simpl node_graph.
    step ltac:(apply read_graph_run; simpl; apply (lookup_at_end (gs ++ [FG0]) _ [])).
    step ltac:(apply set_nodes_run with (G := FG0);
               [simpl; rewrite <- app_assoc; apply lookup_at_end|exact Htyped]).
    simpl graphs; simpl node_graph. rewrite <- app_assoc. simpl app. rewrite insert_at_end.
    step ltac:(eapply set_edges_run; simpl; apply lookup_at_end).
    simpl graphs; simpl node_graph. rewrite insert_at_end.
    step ltac:(reflexivity).
    unfold set_node_attributes.
    step ltac:(apply read_graph_run; simpl; apply lookup_at_end).
    step ltac:(unfold lift; rewrite Horigin; reflexivity).
    step ltac:(eapply write_graph_run; simpl; apply lookup_at_end).
    eexists. unfold ret. simpl. rewrite insert_at_end. reflexivity.
  - pose proof (conv_H_wf vnode fnode b G W F Hb) as WH.
    unfold conv_H, conv_mapping, mapping_of, conv_vn, conv_fn in WH. rewrite Eb in WH.
    simpl in WH, Horigin, Htyped.
    step ltac:(by apply read_graph_run).
    step ltac:(unfold lift; rewrite update_pop_run
                 by (unfold NX.number_of_nodes, NX.nodes, Dict.keys;
                     by rewrite !length_fmap, length_seq);
               reflexivity).
    cbn [fst snd]. unfold NX.number_of_nodes.
    replace (length (node G)) with (length (NX.nodes G))
      by (unfold NX.nodes, Dict.keys; by rewrite length_fmap).
    set (mp := Dict.update (Dict.of_pairs (zip (NX.nodes G) (NX.nodes G)))
                 (zip (NX.nodes G) (reverse (vnode <$> seq 0 (length (NX.nodes G)))))) in *.
    set (Hr := NX.relabel_nodes G mp) in *.
    unfold relabel_nodes.
    step ltac:(by apply read_graph_run).
    step ltac:(reflexivity).
    simpl graphs; simpl node_graph. fold Hr.
    step ltac:(apply read_graph_run; simpl; apply (lookup_at_end (gs ++ [FG0]) _ [])).
    step ltac:(apply set_nodes_run with (G := FG0);
               [simpl; rewrite <- app_assoc; apply lookup_at_end|exact Htyped]).
    simpl graphs; simpl node_graph. rewrite <- app_assoc. simpl app. rewrite insert_at_end.
    rewrite (number_of_edges_iter Hr WH).
    match goal with |- context [mkStore ?gr ?n1] =>
      destruct (factor_loop_run fnode (fnode_typed _ _ _ F) (length gs) (NX.edges_iter Hr)
                  (mkStore gr n1) (add_nodes_with type_attrs FG0 (NX.nodes Hr))) as [ng2 Hs2];
        [simpl; apply lookup_at_end|]
    end.
    step ltac:(exact Hs2).
    simpl graphs; simpl node_graph. rewrite insert_at_end.
    step ltac:(reflexivity).
    unfold set_node_attributes.
    step ltac:(apply read_graph_run; simpl; apply lookup_at_end).
    step ltac:(unfold lift; rewrite Horigin; reflexivity).
    step ltac:(eapply write_graph_run; simpl; apply lookup_at_end).
    eexists. unfold ret. simpl. rewrite insert_at_end. reflexivity.
Qed.

End conv_run.

(** ** The nodes and edges of the result *)

Lemma get_with_attribute name values nd x :
  Dict.get (with_attribute name values nd) x
  = (λ d, match Dict.get values x with
          | Some v => <[name := v]> d
          | None => d
          end) <$> Dict.get nd x.
Proof.
  induction nd as [|[k d] nd IH]; csimpl; [done|].
  destruct (decide (x = k)) as [->|]; [done|]. apply IH.
Qed.

Lemma keys_with_attribute name values nd :
  Dict.keys (with_attribute name values nd) = Dict.keys nd.
Proof.
  unfold with_attribute, Dict.keys. rewrite <- list_fmap_compose. done.
Qed.

Lemma get_fmap_pair {V} (f : Node → V) (l : list Node) x :
  x ∈ l → Dict.get ((λ n, (n, f n)) <$> l) x = Some (f x).
Proof.
  induction l as [|k l IH]; csimpl; [by intros ?%elem_of_nil|].
  intros Hx. destruct (decide (x = k)) as [->|Ne]; [done|].
  apply elem_of_cons in Hx as [?|?]; [done|]. by apply IH.
Qed.

Lemma get_app {V} (l1 l2 : list (Node * V)) x :
  Dict.get (l1 ++ l2) x
  = match Dict.get l1 x with Some v => Some v | None => Dict.get l2 x end.
Proof.
  induction l1 as [|[k v] l1 IH]; simpl; [done|].
  destruct (decide (x = k)); [done|]. apply IH.
Qed.

Section conv_facts.
Variable vnode : nat → Node.
Variable fnode : nat → value → Node.
Variable b : bool.
Variable G : Graph.
Hypothesis W : wf G.
Hypothesis F : factories_ok vnode fnode G.
Hypothesis Hb : b = true → labelled G ∧ kept_typed G.

#[local] Set Default Proof Using "W F Hb".

Local Abbreviation ns := (NX.nodes G).
Local Abbreviation vn := (conv_vn b G).
Local Abbreviation fn := (conv_fn b G).
Local Abbreviation m := (relabel_fun (conv_mapping vnode fnode b G)).
Local Abbreviation H := (conv_H vnode fnode b G).
Local Abbreviation out0 := (conv_out0 vnode fnode b G).
Local Abbreviation out := (conv_out vnode fnode b G).
Local Abbreviation E := (length (NX.edges_iter H)).

Lemma out_nodes : NX.nodes out = NX.nodes out0.
Proof. unfold NX.nodes, conv_out. simpl. apply keys_with_attribute. Qed.

Lemma out_nbr x : nbr_keys out x = nbr_keys out0 x.
Proof. reflexivity. Qed.

Lemma out_wf : wf out.
Proof.
  apply (wf_node_update out0); [by apply (out0_wf vnode fnode b G W F Hb)|]. apply keys_with_attribute.
Qed.

(** A node of the result is a relabelled input node, or one of the factor
    nodes made for the edges (non-bipartite mode only). *)
Lemma out_nodes_cases x :
  x ∈ NX.nodes out ↔
  x ∈ NX.nodes H ∨ (b = false ∧ ∃ j, j < E ∧ x = fnode j VNone).
Proof.
  rewrite out_nodes. unfold NX.nodes at 1.
  destruct (Bool.bool_dec b true) as [Eb|Eb%Bool.not_true_is_false].
  - destruct (out0_spec_bip vnode fnode b G W F Hb Eb) as (_ & -> & _).
    unfold Dict.keys. rewrite <- list_fmap_compose, list_fmap_id.
    split; [by left|]. intros [?|[? _]]; [done|congruence].
  - destruct (out0_spec_nonbip vnode fnode b G W F Hb Eb) as (_ & -> & _).
    unfold Dict.keys. rewrite fmap_app, <- !list_fmap_compose, list_fmap_id.
    rewrite elem_of_app, list_elem_of_fmap. split.
    + intros [?|(j & -> & Hj)]; [by left|]. right. split; [done|]. exists j.
      split; [|done]. apply elem_of_reverse, elem_of_seq in Hj. lia.
    + intros [?|(_ & j & Hj & ->)]; [by left|]. right. exists j. split; [done|].
      apply elem_of_reverse, elem_of_seq. lia.
Qed.

Lemma out0_data x : x ∈ NX.nodes out0 → Dict.get (node out0) x = Some (type_attrs x).
Proof.
  intros Hx. apply get_elem; [by apply (out0_wf vnode fnode b G W F Hb)|].
  unfold NX.nodes in Hx.
  destruct (Bool.bool_dec b true) as [Eb|Eb%Bool.not_true_is_false].
  - destruct (out0_spec_bip vnode fnode b G W F Hb Eb) as (_ & Hd & _).
    rewrite Hd in Hx |- *. unfold Dict.keys in Hx.
    apply list_elem_of_fmap in Hx as ([x' d] & -> & Hx).
    apply list_elem_of_fmap in Hx as (n & Hn & Hin). injection Hn as -> ->.
    apply list_elem_of_fmap. by exists n.
  - destruct (out0_spec_nonbip vnode fnode b G W F Hb Eb) as (_ & Hd & _).
    rewrite Hd in Hx |- *. unfold Dict.keys in Hx.
    apply list_elem_of_fmap in Hx as ([x' d] & -> & Hx). simpl.
    apply elem_of_app in Hx as [Hx|Hx]; apply elem_of_app; [left|right].
    + apply list_elem_of_fmap in Hx as (n & Hn & Hin). injection Hn as -> ->.
      apply list_elem_of_fmap. by exists n.
    + apply list_elem_of_fmap in Hx as (j & Hn & Hin). injection Hn as -> ->.
      apply list_elem_of_fmap. by exists j.
Qed.

Lemma out_data x :
  x ∈ NX.nodes out →
  Dict.get (node out) x
  = Some (match Dict.get (conv_origin vnode fnode b G) x with
          | Some v => <["origin" := v]> (type_attrs x)
          | None => type_attrs x
          end).
Proof.
  intros Hx. rewrite out_nodes in Hx. unfold conv_out at 1. simpl.
  rewrite get_with_attribute, (out0_data x Hx). done.
Qed.

Lemma out_typed x : x ∈ NX.nodes out → is_Some (node_type x).
Proof.
  intros [Hx|(_ & j & _ & ->)]%out_nodes_cases.
  - by apply (conv_H_typed vnode fnode b G W F Hb).
  - rewrite (fnode_typed _ _ _ F). eauto.
Qed.

Lemma type_attrs_type x t : node_type x = Some t → type_attrs x !! "type" = Some (VType t).
Proof. intros Ht. unfold type_attrs. rewrite Ht. apply lookup_insert_eq. Qed.

Lemma type_attrs_origin x : type_attrs x !! "origin" = None.
Proof. unfold type_attrs. destruct (node_type x); [|done]. by rewrite lookup_insert_ne. Qed.

(** The stored [type] is the [type] of the object. *)
Lemma out_type x t :
  x ∈ NX.nodes out → node_type x = Some t → type_in out x = Some (VType t).
Proof.
  intros Hx Ht. unfold type_in. rewrite (out_data x Hx). simpl.
  destruct (Dict.get _ x).
  - rewrite lookup_insert_ne by done. by apply type_attrs_type.
  - by apply type_attrs_type.
Qed.

(** An input node is the origin of the node that replaces it. *)
Lemma out_origin n : n ∈ ns → origin_in out (m n) = Some (VNode n).
Proof.
  intros Hn. unfold origin_in. rewrite out_data.
  - rewrite (conv_origin_get vnode fnode b G W F Hb) by done. simpl. apply lookup_insert_eq.
  - apply out_nodes_cases. left. apply (conv_H_nodes vnode fnode b G W F Hb). by exists n.
Qed.

Lemma out_has n : n ∈ ns → m n ∈ NX.nodes out.
Proof. intros Hn. apply out_nodes_cases. left. apply (conv_H_nodes vnode fnode b G W F Hb). by exists n. Qed.

(** The factor nodes made for the edges carry no origin. *)
Lemma out_origin_none x :
  x ∈ NX.nodes out → x ∉ NX.nodes H → origin_in out x = None.
Proof.
  intros Hx Hn. unfold origin_in. rewrite (out_data x Hx).
  rewrite (conv_origin_get_None vnode fnode b G W F Hb) by done. simpl.
  apply type_attrs_origin.
Qed.

Lemma in_vn_image n : n ∈ vn → ∃ i, m n = vnode i.
Proof.
  intros Hv. pose proof (conv_vn_sub vnode fnode b G W F Hb n Hv) as Hn.
  destruct (conv_cases vnode fnode b G W F Hb n Hn) as [(i & _ & _ & ?)|[(j & _ & Hj & _)|(? & _)]].
  - by exists i.
  - exfalso. apply (conv_vn_fn vnode fnode b G W F Hb n Hv). by eapply list_elem_of_lookup_2.
  - done.
Qed.

Lemma in_fn_image n : n ∈ fn → ∃ j, m n = fnode j VNone.
Proof.
  intros Hf. pose proof (conv_fn_sub vnode fnode b G W F Hb n Hf) as Hn.
  destruct (conv_cases vnode fnode b G W F Hb n Hn) as [(i & _ & Hi & _)|[(j & _ & _ & ?)|(_ & ? & _)]].
  - exfalso. apply (conv_vn_fn vnode fnode b G W F Hb n); [|done]. by eapply list_elem_of_lookup_2.
  - by exists j.
  - done.
Qed.

Lemma out_vnode_type i : vnode i ∈ NX.nodes out → type_in out (vnode i) = Some (VType variable_node).
Proof. intros Hx. apply out_type; [done|apply F]. Qed.

Lemma out_fnode_type j :
  fnode j VNone ∈ NX.nodes out → type_in out (fnode j VNone) = Some (VType factor_node).
Proof. intros Hx. apply out_type; [done|apply F]. Qed.

End conv_facts.

#[local] Unset Default Proof Using.

(** * The claims *)

(** ** FactorGraph.set_node *)

(** C6. For a node whose [type] is set, [set_node(node, **attr)] returns
    normally; afterwards [node.graph] is the factor graph it was called on,
    the node is in the graph with ['type'] equal to [node.type] and with
    every supplied keyword attribute; and when the node was already in the
    graph, the number of nodes is unchanged and the attributes it had and
    that the call does not supply are still there (an update, not an
    error). *)
Theorem set_node_spec (s : Store) (self : nat) (G : Graph) (n : Node)
    (t : NodeType) (attr : attrs) :
  graphs s !! self = Some G →
  node_type n = Some t →
  ∃ s' G' d,
    set_node self n attr s = Ok (tt, s')
    ∧ Dict.get (node_graph s') n = Some self
    ∧ graphs s' !! self = Some G'
    ∧ Dict.get (node G') n = Some d
    ∧ d !! "type" = Some (VType t)
    ∧ (∀ k v, k ≠ "type" → attr !! k = Some v → d !! k = Some v)
    ∧ (n ∈ NX.nodes G →
       NX.number_of_nodes G' = NX.number_of_nodes G
       ∧ ∀ old k v, Dict.get (node G) n = Some old → old !! k = Some v →
                    k ≠ "type" → attr !! k = None → d !! k = Some v).
Proof.
  intros HG Ht.
  exists (mkStore (<[self := NX.add_node G n (<["type" := VType t]> attr)]> (graphs s))
                  (Dict.set (node_graph s) n self)),
         (NX.add_node G n (<["type" := VType t]> attr)),
         (match Dict.get (node G) n with
          | Some old => <["type" := VType t]> attr ∪ old
          | None => <["type" := VType t]> attr
          end).
  split_and!.
  - by apply set_node_run.
  - simpl. rewrite get_set. by rewrite decide_True.
  - simpl. apply list_lookup_insert_eq. by eapply lookup_lt_Some.
  - rewrite add_node_get. by rewrite decide_True.
  - destruct (Dict.get (node G) n) as [old|].
    + apply lookup_union_Some_l. apply lookup_insert_eq.
    + apply lookup_insert_eq.
  - intros k v Hk Hv. destruct (Dict.get (node G) n) as [old|].
    + apply lookup_union_Some_l. by rewrite lookup_insert_ne.
    + by rewrite lookup_insert_ne.
  - intros Hin. split.
    + unfold NX.number_of_nodes, NX.add_node.
      apply has_node_spec in Hin. rewrite Hin. simpl. apply length_alter.
    + intros old k v -> Hold Hk Hattr.
      rewrite lookup_union_r; [done|]. by rewrite lookup_insert_ne.
Qed.

(** ** FactorGraph.get_vnodes, FactorGraph.get_fnodes *)

(** C7. In a factor graph all of whose nodes carry a [type],
    [get_vnodes()] returns exactly the nodes of type variable and
    [get_fnodes()] exactly those of type factor; no node is in both, and
    every node whose type is one of the two is in one of them. *)
Theorem get_nodes_partition (s : Store) (self : nat) (G : Graph) :
  graphs s !! self = Some G →
  NoDup (NX.nodes G) →
  (∀ n d, (n, d) ∈ node G → is_Some (d !! "type")) →
  ∃ vs fs,
    get_vnodes self s = Ok (vs, s)
    ∧ get_fnodes self s = Ok (fs, s)
    ∧ (∀ n, n ∈ vs ↔ ∃ d, (n, d) ∈ node G ∧ d !! "type" = Some (VType variable_node))
    ∧ (∀ n, n ∈ fs ↔ ∃ d, (n, d) ∈ node G ∧ d !! "type" = Some (VType factor_node))
    ∧ (∀ n, n ∈ vs → n ∈ fs → False)
    ∧ (∀ n d t, (n, d) ∈ node G → d !! "type" = Some (VType t) → n ∈ vs ∨ n ∈ fs).
Proof.
  intros HG ND Hty.
  exists (filter (λ p : Node * attrs, has_type variable_node p.2 = true) (node G)).*1,
         (filter (λ p : Node * attrs, has_type factor_node p.2 = true) (node G)).*1.
  destruct (get_nodes_run s self G HG Hty) as [Hv Hf].
  split_and!; [done|done|..].
  - intros n. apply elem_select_type.
  - intros n. apply elem_select_type.
  - intros n (d & Hd & Ht)%elem_select_type (d' & Hd' & Ht')%elem_select_type.
    apply (get_elem _ _ _ ND) in Hd, Hd'. congruence.
  - intros n d t Hd Ht. destruct t; [left|right]; apply elem_select_type; eauto.
Qed.

(** ** FactorGraph.set_edge *)

Lemma type_test_shape t d :
  type_test t d = Raise (KeyError (VStr "type")) ∨ ∃ b, type_test t d = Ok b.
Proof.
  unfold type_test, item. destruct (d !! "type"); simpl; eauto.
Qed.

Lemma get_nodes_raise s self G x :
  graphs s !! self = Some G → (x, ∅) ∈ node G →
  get_vnodes self s = Raise (KeyError (VStr "type"))
  ∧ get_fnodes self s = Raise (KeyError (VStr "type")).
Proof.
  intros HG Hx.
  assert (∀ t, select (type_test t) (NX.nodes_data G) = Raise (KeyError (VStr "type"))) as Hsel.
  { intros t. apply select_raise.
    - intros p _. apply type_test_shape.
    - exists (x, ∅). split; [done|]. reflexivity. }
  split.
  - unfold get_vnodes. rewrite (bind_run _ _ _ _ _ (read_graph_run _ _ _ HG)).
    unfold lift. fold (type_test variable_node). by rewrite Hsel.
  - unfold get_fnodes. rewrite (bind_run _ _ _ _ _ (read_graph_run _ _ _ HG)).
    unfold lift. fold (type_test factor_node). by rewrite Hsel.
Qed.

Lemma with_ends_new G u v x :
  (x = u ∨ x = v) → x ∉ NX.nodes G → (x, ∅) ∈ node (with_ends G u v).
Proof.
  intros Hx Hn. unfold with_ends.
  destruct (NX.has_node G u) eqn:Eu; simpl.
  - destruct Hx as [-> | ->]; [by apply has_node_spec in Eu|].
    apply has_node_false in Hn. rewrite Hn. simpl.
    rewrite set_absent by by apply has_node_false. apply elem_of_app. right. left.
  - assert ((u, ∅) ∈ Dict.set (node G) u (∅ : attrs)) as Hu.
    { rewrite set_absent by by apply has_node_false. apply elem_of_app. right. left. }
    match goal with |- context [NX.has_node ?X v] => destruct (NX.has_node X v) eqn:Ev end;
      simpl.
    + destruct Hx as [-> | ->]; [done|].
      apply has_node_spec in Ev. unfold NX.nodes in Ev. simpl in Ev.
      apply elem_keys_set in Ev as [?| ->]; done.
    + destruct Hx as [-> | ->].
      * apply has_node_false in Ev. unfold NX.nodes in Ev. simpl in Ev.
        rewrite set_absent by done. apply elem_of_app. by left.
      * apply has_node_false in Ev. unfold NX.nodes in Ev. simpl in Ev.
        rewrite (set_absent _ v) by done. apply elem_of_app. right. left.
Qed.

(** C9. [set_edge(source, target)] with an end point that was never
    inserted returns normally; the missing end point is then a node of the
    graph with an empty attribute dictionary (no ['type']), and
    [get_vnodes()] and [get_fnodes()] on that graph raise KeyError. *)
Theorem set_edge_untyped_endpoint (s : Store) (self : nat) (G : Graph)
    (u v : Node) (init : option Z) :
  graphs s !! self = Some G →
  u ∉ NX.nodes G ∨ v ∉ NX.nodes G →
  ∃ s' G',
    set_edge self u v init s = Ok (tt, s')
    ∧ graphs s' !! self = Some G'
    ∧ (∀ x, x = u ∨ x = v → x ∉ NX.nodes G → (x, ∅) ∈ node G')
    ∧ get_vnodes self s' = Raise (KeyError (VStr "type"))
    ∧ get_fnodes self s' = Raise (KeyError (VStr "type")).
Proof.
  intros HG Hnew.
  set (G' := NX.add_edge G u v {["object" := VEdge (mkEdge u v init)]}).
  exists (mkStore (<[self := G']> (graphs s)) (node_graph s)), G'.
  assert (graphs (mkStore (<[self := G']> (graphs s)) (node_graph s)) !! self = Some G') as HG'.
  { simpl. apply list_lookup_insert_eq. by eapply lookup_lt_Some. }
  assert (∀ x, x = u ∨ x = v → x ∉ NX.nodes G → (x, ∅) ∈ node G') as Hempty.
  { intros x Hx Hn. unfold G'. rewrite add_edge_node. by apply with_ends_new. }
  split_and!; [by apply set_edge_run|done|done|..].
  - destruct Hnew as [Hn|Hn].
    + apply (get_nodes_raise _ _ G' u); [done|]. apply Hempty; [by left|done].
    + apply (get_nodes_raise _ _ G' v); [done|]. apply Hempty; [by right|done].
  - destruct Hnew as [Hn|Hn].
    + apply (get_nodes_raise _ _ G' u); [done|]. apply Hempty; [by left|done].
    + apply (get_nodes_raise _ _ G' v); [done|]. apply Hempty; [by right|done].
Qed.

(** ** convert_to_fg: the missing part label *)

Lemma part_is_shape z d :
  part_is z d = Raise (KeyError (VStr "bipartite")) ∨ ∃ b, part_is z d = Ok b.
Proof.
  unfold part_is, item. destruct (d !! "bipartite"); simpl; eauto.
Qed.

(** C8. With [bipartite=True], a graph one of whose nodes has no
    ['bipartite'] attribute makes [convert_to_fg] raise (a KeyError for
    the missing label); no node is put in a part by default. *)
Theorem missing_label_raises (vnode : nat → Node) (fnode : nat → value → Node)
    (s : Store) (g : nat) (G : Graph) (n : Node) (d : attrs) :
  graphs s !! g = Some G →
  (n, d) ∈ node G →
  d !! "bipartite" = None →
  convert_to_fg vnode fnode g true s = Raise (KeyError (VStr "bipartite")).
Proof.
  intros HG Hd Hl. unfold convert_to_fg.
  rewrite (bind_run _ _ _ _ _ (read_graph_run _ _ _ HG)).
  erewrite bind_run by reflexivity.
  apply bind_raise. erewrite bind_run.
  2:{ apply read_graph_run. simpl. by apply lookup_app_l_Some. }
  apply bind_raise. unfold lift. rewrite (select_raise _ (KeyError (VStr "bipartite"))).
  - done.
  - intros p _. apply part_is_shape.
  - exists (n, d). split; [done|]. unfold part_is, item. simpl. by rewrite Hl.
Qed.

(** ** convert_to_fg: the input graph is left alone *)

Lemma preserves_ret n {A} (a : A) : preserves n (ret a).
Proof. intros s a' s' Hn E. injection E as _ <-. done. Qed.

Lemma preserves_lift n {A} (r : result A) : preserves n (lift r).
Proof. intros s a s' Hn E. unfold lift in E. destruct r; [|done]. injection E as _ <-. done. Qed.

Lemma preserves_bind n {A B} (c : M A) (k : A → M B) :
  preserves n c → (∀ a, preserves n (k a)) → preserves n (bind c k).
Proof.
  intros Hc Hk s b s' Hn E. unfold bind in E.
  destruct (c s) as [[a s1]|e] eqn:E1; [|done].
  destruct (Hc s a s1 Hn E1) as [T1 L1].
  destruct (Hk a s1 b s' ltac:(lia) E) as [T2 L2]. split; [congruence|lia].
Qed.

Lemma preserves_read n g : preserves n (read_graph g).
Proof.
  intros s a s' Hn E. unfold read_graph in E.
  destruct (graphs s !! g); [|done]. injection E as _ <-. done.
Qed.

Lemma preserves_write n g G : (n ≤ g)%nat → preserves n (write_graph g G).
Proof.
  intros Hg s a s' Hn E. unfold write_graph in E.
  destruct (graphs s !! g); [|done]. inversion E; subst. simpl.
  rewrite take_insert_ge by done. rewrite length_insert. done.
Qed.

Lemma preserves_alloc n G : preserves n (alloc_graph G).
Proof.
  intros s a s' Hn E. unfold alloc_graph in E. injection E as _ <-. simpl.
  rewrite take_app_le by done. rewrite length_app. split; [done|lia].
Qed.

Lemma preserves_setattr n x g : preserves n (setattr_graph x g).
Proof.
  intros s a s' Hn E. unfold setattr_graph in E. destruct x; [done|].
  inversion E; subst. done.
Qed.

Lemma preserves_for n {A} (l : list A) (body : A → M unit) :
  (∀ x, preserves n (body x)) → preserves n (for_ l body).
Proof.
  intros Hb. induction l as [|x l IH]; simpl.
  - apply preserves_ret.
  - apply preserves_bind; [apply Hb|]. intros _. apply IH.
Qed.

Lemma preserves_set_node n self x attr :
  (n ≤ self)%nat → preserves n (set_node self x attr).
Proof.
  intros Hs. unfold set_node.
  apply preserves_bind; [apply preserves_setattr|intros _].
  apply preserves_bind; [apply preserves_lift|intros t].
  apply preserves_bind; [apply preserves_read|intros G].
  by apply preserves_write.
Qed.

Lemma preserves_set_edges n self es :
  (n ≤ self)%nat → preserves n (set_edges self es).
Proof.
  intros Hs. unfold set_edges. apply preserves_for. intros e. unfold set_edge.
  apply preserves_bind; [apply preserves_read|intros G]. by apply preserves_write.
Qed.

Lemma preserves_factor_loop fnode n self es : ∀ i,
  (n ≤ self)%nat → preserves n (factor_loop fnode self es i).
Proof.
  induction es as [|e es IH]; intros i Hs; simpl.
  - apply preserves_ret.
  - apply preserves_bind; [apply preserves_lift|intros ki].
    apply preserves_bind; [by apply preserves_set_node|intros _].
    apply preserves_bind; [by apply preserves_set_edges|intros _].
    by apply IH.
Qed.

Lemma preserves_relabel n g mapping : preserves n (relabel_nodes g mapping).
Proof.
  unfold relabel_nodes. apply preserves_bind; [apply preserves_read|intros G].
  apply preserves_alloc.
Qed.

Lemma preserves_set_node_attributes n g name values :
  (n ≤ g)%nat → preserves n (set_node_attributes g name values).
Proof.
  intros Hg. unfold set_node_attributes.
  apply preserves_bind; [apply preserves_read|intros G].
  apply preserves_bind; [apply preserves_lift|intros G'].
  by apply preserves_write.
Qed.

(** C4. When [convert_to_fg] returns, in either mode, every graph object
    that existed before the call is what it was: same graph attributes,
    same node dictionary (nodes and their attributes), same adjacency
    (edges and their attributes); in particular the input graph.  The
    factor graph returned is a new object, not the input graph. *)
Theorem convert_leaves_input (vnode : nat → Node) (fnode : nat → value → Node)
    (s s' : Store) (g fg : nat) (G : Graph) (b : bool) :
  graphs s !! g = Some G →
  convert_to_fg vnode fnode g b s = Ok (fg, s') →
  graphs s' !! g = Some G
  ∧ fg ≠ g
  ∧ graphs s !! fg = None
  ∧ is_Some (graphs s' !! fg)
  ∧ ∀ g' G', graphs s !! g' = Some G' → graphs s' !! g' = Some G'.
Proof.
  intros HG E. unfold convert_to_fg in E.
  rewrite (bind_run _ _ _ _ _ (read_graph_run _ _ _ HG)) in E.
  erewrite bind_run in E by reflexivity.
  set (n := length (graphs s)) in *.
  set (s1 := mkStore (graphs s ++ [_]) (node_graph s)) in *.
  assert (n ≤ length (graphs s1))%nat as Hn1 by (simpl; rewrite length_app; lia).
  match type of E with ?c s1 = _ => assert (preserves n c) as Hp end.
  { apply preserves_bind.
    - destruct b.
      + apply preserves_bind; [apply preserves_read|intros G0].
        apply preserves_bind; [apply preserves_lift|intros vn].
        apply preserves_bind; [apply preserves_lift|intros fn].
        apply preserves_bind; [apply preserves_lift|intros mb].
        apply preserves_bind; [apply preserves_lift|intros mb'].
        apply preserves_bind; [apply preserves_relabel|intros g'].
        apply preserves_bind; [apply preserves_read|intros H].
        apply preserves_bind; [|intros _].
        { apply preserves_for. intros x. by apply preserves_set_node. }
        apply preserves_bind; [by apply preserves_set_edges|intros _].
        apply preserves_ret.
      + apply preserves_bind; [apply preserves_read|intros G0].
        apply preserves_bind; [apply preserves_lift|intros mb].
        apply preserves_bind; [apply preserves_relabel|intros g'].
        apply preserves_bind; [apply preserves_read|intros H].
        apply preserves_bind; [|intros _].
        { apply preserves_for. intros x. by apply preserves_set_node. }
        apply preserves_bind; [by apply preserves_factor_loop|intros _].
        apply preserves_ret.
    - intros mapping.
      apply preserves_bind; [by apply preserves_set_node_attributes|intros _].
      apply preserves_ret. }
  assert (fg = n) as ->.
  { unfold bind in E. destruct (_ s1) as [[mp s2]|]; [|done].
    destruct (set_node_attributes _ _ _ s2) as [[[] s3]|]; [|done].
    unfold ret in E. by injection E as <- _. }
  destruct (Hp s1 n s' Hn1 E) as [T L].
  simpl in T. unfold n in T at 2. rewrite take_app_length in T.
  assert (∀ g' G', graphs s !! g' = Some G' → graphs s' !! g' = Some G') as Hall.
  { intros g' G' Hg'. pose proof (lookup_lt_Some _ _ _ Hg') as Hlt.
    rewrite <- (lookup_take_lt _ n) by done. by rewrite T. }
  split_and!.
  - by apply Hall.
  - apply lookup_lt_Some in HG. unfold n. lia.
  - apply lookup_ge_None. unfold n. lia.
  - apply lookup_lt_is_Some. simpl in L. rewrite length_app in L. simpl in L.
    unfold n. lia.
  - done.
Qed.

(** ** convert_to_fg: what is returned *)

Lemma convert_to_fg_result (vnode : nat → Node) (fnode : nat → value → Node)
    (s : Store) (g : nat) (G : Graph) (b : bool) :
  graphs s !! g = Some G → wf G → factories_ok vnode fnode G →
  (b = true → labelled G ∧ kept_typed G) →
  ∃ s', convert_to_fg vnode fnode g b s = Ok (length (graphs s), s')
        ∧ graphs s' !! length (graphs s) = Some (conv_out vnode fnode b G).
Proof.
  intros Hg W F Hb. destruct s as [gs ng]. simpl in *.
  destruct (convert_to_fg_run vnode fnode b G W F Hb gs ng g Hg) as [ng' Hrun].
  eexists. split; [exact Hrun|]. simpl. apply lookup_at_end.
Qed.

Lemma has_part_label z d : has_part z d = true → is_Some (d !! "bipartite").
Proof. unfold has_part. destruct (d !! "bipartite"); [eauto|done]. Qed.

Lemma two_parts_pre G : two_parts G → labelled G ∧ kept_typed G.
Proof.
  intros Ht. split.
  - intros n d Hd. destruct (Ht n d Hd) as [?|?]; by eapply has_part_label.
  - intros n d Hd H0 H1. destruct (Ht n d Hd); congruence.
Qed.

Lemma node_data_of G n : n ∈ NX.nodes G → ∃ d, (n, d) ∈ node G.
Proof. intros ([n' d] & -> & ?)%list_elem_of_fmap. by exists d. Qed.

(** C1. Under the input preconditions (a well-formed graph, factories
    that return new instances of the right type and, in bipartite mode, a
    graph that is bipartite as labelled), [convert_to_fg] returns a factor
    graph in which every node carries a [type] that is variable or factor,
    and every edge joins a variable node and a factor node. *)
Theorem partition_invariant (vnode : nat → Node) (fnode : nat → value → Node)
    (s : Store) (g : nat) (G : Graph) (b : bool) :
  graphs s !! g = Some G →
  wf G →
  factories_ok vnode fnode G →
  (b = true → two_parts G ∧ crossing G) →
  ∃ fg s' out,
    convert_to_fg vnode fnode g b s = Ok (fg, s')
    ∧ graphs s' !! fg = Some out
    ∧ (∀ n d, (n, d) ∈ node out →
         d !! "type" = Some (VType variable_node)
         ∨ d !! "type" = Some (VType factor_node))
    ∧ (∀ x y, NX.has_edge out x y = true →
         (type_in out x = Some (VType variable_node)
          ∧ type_in out y = Some (VType factor_node))
         ∨ (type_in out x = Some (VType factor_node)
            ∧ type_in out y = Some (VType variable_node))).
Proof.
  intros Hg W F Hbip.
  assert (b = true → labelled G ∧ kept_typed G) as Hb.
  { intros Eb. apply two_parts_pre. by apply Hbip. }
  destruct (convert_to_fg_result vnode fnode s g G b Hg W F Hb) as (s' & Hrun & Hout).
  exists (length (graphs s)), s', (conv_out vnode fnode b G).
  pose proof (out_wf vnode fnode b G W F Hb) as Wo.
  split_and!; [done|done|..].
  - intros n d Hd.
    assert (n ∈ NX.nodes (conv_out vnode fnode b G)) as Hn.
    { apply list_elem_of_fmap. by exists (n, d). }
    destruct (out_typed vnode fnode b G W F Hb n Hn) as [t Ht].
    pose proof (out_type vnode fnode b G W F Hb n t Hn Ht) as Hty.
    unfold type_in in Hty. rewrite (get_elem _ _ _ (wf_nodup _ Wo) Hd) in Hty.
    simpl in Hty. destruct t; [by left|by right].
  - intros x y Hxy%has_edge_spec. rewrite (out_nbr vnode fnode b G W F Hb) in Hxy.
    assert (∀ a, a ∈ conv_vn b G →
              type_in (conv_out vnode fnode b G) (relabel_fun (conv_mapping vnode fnode b G) a)
              = Some (VType variable_node)) as Tv.
    { intros a Ha. destruct (in_vn_image vnode fnode b G W F Hb a Ha) as [i Ei].
      pose proof (out_has vnode fnode b G W F Hb a
                    (conv_vn_sub vnode fnode b G W F Hb a Ha)) as Hin.
      rewrite Ei in Hin |- *. by apply out_vnode_type. }
    assert (∀ a, a ∈ conv_fn b G →
              type_in (conv_out vnode fnode b G) (relabel_fun (conv_mapping vnode fnode b G) a)
              = Some (VType factor_node)) as Tf.
    { intros a Ha. destruct (in_fn_image vnode fnode b G W F Hb a Ha) as [i Ei].
      pose proof (out_has vnode fnode b G W F Hb a
                    (conv_fn_sub vnode fnode b G W F Hb a Ha)) as Hin.
      rewrite Ei in Hin |- *. by apply out_fnode_type. }
    destruct (Bool.bool_dec b true) as [Eb|Eb%Bool.not_true_is_false]; subst b.
    + destruct (out0_spec_bip vnode fnode true G W F Hb eq_refl) as (_ & _ & He).
      apply He in Hxy. apply relabel_edge in Hxy as (a & c & Hac & -> & ->); [|done].
      destruct (Hbip eq_refl) as [Htwo Hcross].
      assert (a ∈ NX.nodes G) as Ha by (apply (wf_closed _ W c); by apply W).
      assert (c ∈ NX.nodes G) as Hc by by apply (wf_closed _ W a).
      destruct (node_data_of G a Ha) as [da Hda], (node_data_of G c Hc) as [dc Hdc].
      pose proof (Hcross a c da dc ltac:(by apply has_edge_spec) Hda Hdc) as Hne.
      unfold conv_vn, conv_fn in Tv, Tf.
      destruct (Htwo a da Hda) as [Pa|Pa], (Htwo c dc Hdc) as [Pc|Pc].
      * congruence.
      * left. split; [apply Tv|apply Tf]; apply part_nodes_elem; eauto.
      * right. split; [apply Tf|apply Tv]; apply part_nodes_elem; eauto.
      * destruct (has_part 0 da) eqn:Qa, (has_part 0 dc) eqn:Qc; try congruence.
        -- exfalso. by apply (has_part_disjoint da).
        -- exfalso. by apply (has_part_disjoint dc).
    + destruct (out0_spec_nonbip vnode fnode false G W F Hb eq_refl) as (_ & _ & He & _).
      apply He in Hxy as (j & e & Hj & Hin & Hcase).
      assert (type_in (conv_out vnode fnode false G) (fnode j VNone) = Some (VType factor_node))
        as Tj.
      { apply out_fnode_type; [done..|]. apply out_nodes_cases; [done..|]. right. eauto. }
      assert (∀ z, z ∈ NX.nodes (conv_H vnode fnode false G) →
                type_in (conv_out vnode fnode false G) z = Some (VType variable_node)) as Tz.
      { intros z (a & Ha & ->)%conv_H_nodes; [|done..]. by apply Tv. }
      destruct (H_edge_ends vnode fnode false G W F Hb e Hin) as [H1 H2].
      destruct Hcase as [[-> [-> | ->]]|[-> [-> | ->]]].
      * right. split; [done|by apply Tz].
      * right. split; [done|by apply Tz].
      * left. split; [by apply Tz|done].
      * left. split; [by apply Tz|done].
Qed.

(** C2. For a simple input graph (well formed, no self-loops) with N
    nodes and E edges, [convert_to_fg] with [bipartite=False] returns a
    factor graph with exactly N variable nodes, exactly E factor nodes and
    exactly 2E edges. *)
Theorem edge_expansion (vnode : nat → Node) (fnode : nat → value → Node)
    (s : Store) (g : nat) (G : Graph) :
  graphs s !! g = Some G →
  wf G →
  factories_ok vnode fnode G →
  (∀ x, NX.has_edge G x x = false) →
  ∃ fg s' out vs fs,
    convert_to_fg vnode fnode g false s = Ok (fg, s')
    ∧ graphs s' !! fg = Some out
    ∧ get_vnodes fg s' = Ok (vs, s')
    ∧ length vs = NX.number_of_nodes G
    ∧ get_fnodes fg s' = Ok (fs, s')
    ∧ length fs = NX.number_of_edges G
    ∧ NX.number_of_edges out = 2 * NX.number_of_edges G.
Proof.
  intros Hg W F Hloop.
  assert (false = true → labelled G ∧ kept_typed G) as Hb by done.
  destruct (convert_to_fg_result vnode fnode s g G false Hg W F Hb) as (s' & Hrun & Hout).
  pose proof (out_wf vnode fnode false G W F Hb) as Wo.
  pose proof (conv_H_wf vnode fnode false G W F Hb) as WH.
  pose proof (out_typed vnode fnode false G W F Hb) as Otyped.
  pose proof (out_type vnode fnode false G W F Hb) as Otype.
  pose proof (out_nodes_cases vnode fnode false G W F Hb) as Ocases.
  pose proof (out_vnode_type vnode fnode false G W F Hb) as Ovt.
  pose proof (out_fnode_type vnode fnode false G W F Hb) as Oft.
  pose proof (conv_H_nodes vnode fnode false G W F Hb) as Hnodes.
  pose proof (conv_H_perm vnode fnode false G W F Hb) as Hperm.
  pose proof (in_vn_image vnode fnode false G W F Hb) as Himg.
  destruct (out0_spec_nonbip vnode fnode false G W F Hb eq_refl) as (_ & _ & _ & Hc).
  assert (NX.sum_degree (conv_out vnode fnode false G)
          = NX.sum_degree (conv_out0 vnode fnode false G)) as Hsd by reflexivity.
  assert (length (NX.edges_iter (conv_H vnode fnode false G)) = NX.number_of_edges G) as HE.
  { rewrite <- (number_of_edges_iter _ WH). apply relabel_number_of_edges; [done|].
    apply (conv_m_inj vnode fnode false G W F Hb). }
  revert Hout Wo WH Otyped Otype Ocases Ovt Oft Hnodes Hperm Himg Hc Hsd HE.
  generalize (conv_out vnode fnode false G) as out.
  generalize (conv_H vnode fnode false G) as H.
  generalize (relabel_fun (conv_mapping vnode fnode false G)) as m.
  intros m H out Hout Wo WH Otyped Otype Ocases Ovt Oft Hnodes Hperm Himg Hc Hsd HE.
  assert (∀ n d, (n, d) ∈ node out → type_in out n = d !! "type") as Hti.
  { intros n d Hd. unfold type_in. by rewrite (get_elem _ _ _ (wf_nodup _ Wo) Hd). }
  assert (∀ n d, (n, d) ∈ node out → n ∈ NX.nodes out) as Hkey.
  { intros n d Hd. apply list_elem_of_fmap. by exists (n, d). }
  assert (∀ n d, (n, d) ∈ node out → is_Some (d !! "type")) as Hty.
  { intros n d Hd. rewrite <- (Hti n d Hd).
    destruct (Otyped n (Hkey n d Hd)) as [t Ht].
    rewrite (Otype n t (Hkey n d Hd) Ht). eauto. }
  destruct (get_nodes_run s' _ out Hout Hty) as [Hv Hf].
  assert (∀ z, z ∈ NX.nodes H → type_in out z = Some (VType variable_node)) as Tz.
  { intros z Hz. pose proof Hz as (a & Ha & ->)%Hnodes.
    destruct (Himg a Ha) as [i Ei]. rewrite Ei in Hz |- *. apply Ovt.
    apply Ocases. by left. }
  assert (∀ j, j < length (NX.edges_iter H) →
            fnode j VNone ∈ NX.nodes out
            ∧ type_in out (fnode j VNone) = Some (VType factor_node)) as Tj.
  { intros j Hj. assert (fnode j VNone ∈ NX.nodes out) as Hin.
    { apply Ocases. right. eauto. }
    split; [done|]. by apply Oft. }
  eexists _, s', out, _, _.
  split_and!; [exact Hrun|exact Hout|exact Hv| |exact Hf| |].
  - transitivity (length (NX.nodes H)).
    + apply Permutation_length, NoDup_Permutation.
      * apply filter_keys_nodup, Wo.
      * apply WH.
      * intros n. rewrite elem_select_type. split.
        -- intros (d & Hd & Ht).
           destruct (proj1 (Ocases n) (Hkey n d Hd)) as [?|(_ & j & Hj & ->)]; [done|].
           destruct (Tj j Hj) as [_ Tf]. rewrite (Hti _ d Hd), Ht in Tf. done.
        -- intros Hn. assert (n ∈ NX.nodes out) as Hin.
           { apply Ocases. by left. }
           destruct (node_data_of out n Hin) as [d Hd]. exists d. split; [done|].
           rewrite <- (Hti n d Hd). by apply Tz.
    + rewrite Hperm, length_fmap.
      unfold NX.number_of_nodes, NX.nodes, Dict.keys. by rewrite length_fmap.
  - rewrite <- HE.
    transitivity (length ((λ j, fnode j VNone) <$> seq 0 (length (NX.edges_iter H)))).
    + apply Permutation_length, NoDup_Permutation.
      * apply filter_keys_nodup, Wo.
      * apply NoDup_fmap_2_strong; [|apply NoDup_seq].
        intros i j _ _. apply (fnode_inj _ _ _ F).
      * intros n. rewrite elem_select_type, list_elem_of_fmap. split.
        -- intros (d & Hd & Ht).
           destruct (proj1 (Ocases n) (Hkey n d Hd)) as [Hn|(_ & j & Hj & ->)].
           ++ apply Tz in Hn. rewrite (Hti _ d Hd), Ht in Hn. done.
           ++ exists j. split; [done|]. apply elem_of_seq. lia.
        -- intros (j & -> & Hj%elem_of_seq). destruct (Tj j ltac:(lia)) as [Hin Tf].
           destruct (node_data_of out _ Hin) as [d Hd]. exists d. split; [done|].
           by rewrite <- (Hti _ d Hd).
    + by rewrite length_fmap, length_seq.
  - unfold NX.number_of_edges at 1. rewrite Hsd, Hc.
    + rewrite HE.
      replace (4 * NX.number_of_edges G) with ((2 * NX.number_of_edges G) * 2) by lia.
      by rewrite Nat.div_mul.
    + intros x. apply has_edge_false, Hloop.
Qed.

(** ** convert_to_fg: origins and factory indices *)

Lemma conv_m_vn vnode fnode b G i n :
  wf G → factories_ok vnode fnode G → (b = true → labelled G ∧ kept_typed G) →
  conv_vn b G !! i = Some n →
  relabel_fun (conv_mapping vnode fnode b G) n = vnode (length (conv_vn b G) - 1 - i).
Proof.
  intros W F Hb Hi. unfold relabel_fun, conv_mapping.
  rewrite (mapping_vn vnode fnode _ _ _ (conv_vn_nodup vnode fnode b G W F Hb)
             (conv_vn_fn vnode fnode b G W F Hb) i n Hi). done.
Qed.

Lemma conv_m_fn vnode fnode b G j n :
  wf G → factories_ok vnode fnode G → (b = true → labelled G ∧ kept_typed G) →
  conv_fn b G !! j = Some n →
  relabel_fun (conv_mapping vnode fnode b G) n = fnode (length (conv_fn b G) - 1 - j) VNone.
Proof.
  intros W F Hb Hj. unfold relabel_fun, conv_mapping.
  rewrite (mapping_fn vnode fnode _ _ _ (conv_fn_nodup vnode fnode b G W F Hb) j n Hj). done.
Qed.

(** C3, as amended. Under the input preconditions, the nodes of the
    returned factor graph that replace input nodes each carry an ["origin"]
    attribute, and origin is a bijection between them and the nodes of the
    input graph.  In bipartite mode these are all the nodes of the result;
    in non-bipartite mode they are its variable nodes, and the remaining
    nodes, the factor nodes made for the edges, carry no ["origin"]. *)
Theorem origin_bijection (vnode : nat → Node) (fnode : nat → value → Node)
    (s : Store) (g : nat) (G : Graph) (b : bool) :
  graphs s !! g = Some G →
  wf G →
  factories_ok vnode fnode G →
  (b = true → labelled G ∧ kept_typed G) →
  ∃ fg s' out core,
    convert_to_fg vnode fnode g b s = Ok (fg, s')
    ∧ graphs s' !! fg = Some out
    ∧ NoDup (NX.nodes out) ∧ NoDup (NX.nodes G) ∧ NoDup core
    ∧ (∀ x, x ∈ core → x ∈ NX.nodes out)
    ∧ origin_in out <$> core ≡ₚ (λ n, Some (VNode n)) <$> NX.nodes G
    ∧ (∀ x, x ∈ NX.nodes out → x ∉ core →
         b = false
         ∧ type_in out x = Some (VType factor_node)
         ∧ origin_in out x = None)
    ∧ (b = false → ∀ x, x ∈ core → type_in out x = Some (VType variable_node)).
Proof.
  intros Hg W F Hb.
  destruct (convert_to_fg_result vnode fnode s g G b Hg W F Hb) as (s' & Hrun & Hout).
  exists (length (graphs s)), s', (conv_out vnode fnode b G),
         (NX.nodes (conv_H vnode fnode b G)).
  split_and!; [done|done|..].
  - apply (out_wf vnode fnode b G W F Hb).
  - apply W.
  - apply (conv_H_wf vnode fnode b G W F Hb).
  - intros x Hx. apply out_nodes_cases; [done..|]. by left.
  - rewrite (conv_H_perm vnode fnode b G W F Hb), <- list_fmap_compose.
    erewrite list_fmap_ext; [done|]. intros i n Hi. simpl.
    apply out_origin; [done..|]. by eapply list_elem_of_lookup_2.
  - intros x Hx Hn.
    apply (out_nodes_cases vnode fnode b G W F Hb) in Hx as [?|(Eb & j & Hj & ->)]; [done|].
    split_and!; [done| |].
    + apply out_fnode_type; [done..|]. apply out_nodes_cases; [done..|]. right. eauto.
    + apply out_origin_none; [done..| |done]. apply out_nodes_cases; [done..|]. right. eauto.
  - intros Eb x (n & Hn & ->)%(conv_H_nodes vnode fnode b G W F Hb).
    assert (n ∈ conv_vn b G) as Hv by (unfold conv_vn; by rewrite Eb).
    destruct (in_vn_image vnode fnode b G W F Hb n Hv) as [i Ei]. rewrite Ei.
    apply out_vnode_type; [done..|]. rewrite <- Ei. by apply out_has.
Qed.

(** C3 as stated fails: without [bipartite], the factor node made for the
    edge a - b is a node of the result and has no ["origin"]. *)
Lemma origin_bijection_counterexample :
  ¬ (∀ fg s' out,
       convert_to_fg vnode0 fnode0 0 false (store_of edge2) = Ok (fg, s') →
       graphs s' !! fg = Some out →
       ∀ x, x ∈ NX.nodes out →
            ∃ n, n ∈ NX.nodes edge2 ∧ origin_in out x = Some (VNode n)).
Proof.
  intros Hc.
  destruct (convert_to_fg vnode0 fnode0 0 false (store_of edge2)) as [[fg s']|e] eqn:E;
    vm_compute in E; [|discriminate].
  injection E as <- <-.
  edestruct (Hc _ _ _ eq_refl eq_refl (fnode0 0 VNone)) as (n & _ & Ho).
  - apply list_elem_of_In. vm_compute. auto.
  - vm_compute in Ho. discriminate.
Qed.

(** C5, as amended. In bipartite mode the node at position i of the
    variable-labelled part (in the iteration order of the node dictionary)
    is replaced by [vnode(|V| - 1 - i)], and the node at position j of the
    factor-labelled part by [fnode(|F| - 1 - j, None)]: the indices run
    against the iteration order, because the instances are popped from the
    end of the list they were made in. *)
Theorem factory_index_order (vnode : nat → Node) (fnode : nat → value → Node)
    (s : Store) (g : nat) (G : Graph) :
  graphs s !! g = Some G →
  wf G →
  factories_ok vnode fnode G →
  labelled G →
  kept_typed G →
  ∃ fg s' out,
    convert_to_fg vnode fnode g true s = Ok (fg, s')
    ∧ graphs s' !! fg = Some out
    ∧ (∀ i n, part_nodes 0 (node G) !! i = Some n →
         vnode (length (part_nodes 0 (node G)) - 1 - i) ∈ NX.nodes out
         ∧ origin_in out (vnode (length (part_nodes 0 (node G)) - 1 - i))
           = Some (VNode n))
    ∧ (∀ j n, part_nodes 1 (node G) !! j = Some n →
         fnode (length (part_nodes 1 (node G)) - 1 - j) VNone ∈ NX.nodes out
         ∧ origin_in out (fnode (length (part_nodes 1 (node G)) - 1 - j) VNone)
           = Some (VNode n)).
Proof.
  intros Hg W F Hl Hk.
  assert (true = true → labelled G ∧ kept_typed G) as Hb by done.
  destruct (convert_to_fg_result vnode fnode s g G true Hg W F Hb) as (s' & Hrun & Hout).
  exists (length (graphs s)), s', (conv_out vnode fnode true G).
  split_and!; [done|done|..].
  - intros i n Hi. change (part_nodes 0 (node G)) with (conv_vn true G) in *.
    assert (n ∈ NX.nodes G) as Hn.
    { apply (conv_vn_sub vnode fnode true G W F Hb). by eapply list_elem_of_lookup_2. }
    rewrite <- (conv_m_vn vnode fnode true G i n W F Hb Hi).
    split; [by apply out_has|by apply out_origin].
  - intros j n Hj. change (part_nodes 1 (node G)) with (conv_fn true G) in *.
    assert (n ∈ NX.nodes G) as Hn.
    { apply (conv_fn_sub vnode fnode true G W F Hb). by eapply list_elem_of_lookup_2. }
    rewrite <- (conv_m_fn vnode fnode true G j n W F Hb Hj).
    split; [by apply out_has|by apply out_origin].
Qed.

(** C5 as stated fails: with two nodes in the variable-labelled part, the
    first one is not replaced by [vnode(0)]; [vnode(0)] stands for the
    second. *)
Lemma factory_index_order_counterexample :
  ¬ (∀ fg s' out,
       convert_to_fg vnode0 fnode0 0 true (store_of two_to_one) = Ok (fg, s') →
       graphs s' !! fg = Some out →
       ∀ i n, part_nodes 0 (node two_to_one) !! i = Some n →
              origin_in out (vnode0 i) = Some (VNode n)).
Proof.
  intros Hc.
  destruct (convert_to_fg vnode0 fnode0 0 true (store_of two_to_one)) as [[fg s']|e] eqn:E;
    vm_compute in E; [|discriminate].
  injection E as <- <-.
  pose proof (Hc _ _ _ eq_refl eq_refl 0 (Plain 1) eq_refl) as Ho.
  vm_compute in Ho. discriminate.
Qed.

(** C10, as amended. In bipartite mode, an input node whose part label is
    present and is neither 0 nor 1 is mapped to itself: provided every such
    node is an instance with a [type] attribute (as [set_node] requires of
    what it inserts), the node is a node of the returned factor graph, not
    replaced by a [vnode] or [fnode] instance, with ["origin"] equal to
    itself and with its own [type]. *)
Theorem unlabelled_part_kept (vnode : nat → Node) (fnode : nat → value → Node)
    (s : Store) (g : nat) (G : Graph) :
  graphs s !! g = Some G →
  wf G →
  factories_ok vnode fnode G →
  labelled G →
  kept_typed G →
  ∃ fg s' out,
    convert_to_fg vnode fnode g true s = Ok (fg, s')
    ∧ graphs s' !! fg = Some out
    ∧ ∀ n d, (n, d) ∈ node G → has_part 0 d = false → has_part 1 d = false →
        n ∈ NX.nodes out
        ∧ origin_in out n = Some (VNode n)
        ∧ ∃ t, node_type n = Some t ∧ type_in out n = Some (VType t).
Proof.
  intros Hg W F Hl Hk.
  assert (true = true → labelled G ∧ kept_typed G) as Hb by done.
  destruct (convert_to_fg_result vnode fnode s g G true Hg W F Hb) as (s' & Hrun & Hout).
  exists (length (graphs s)), s', (conv_out vnode fnode true G).
  split_and!; [done|done|].
  intros n d Hd H0 H1.
  assert (n ∈ NX.nodes G) as Hn by (apply list_elem_of_fmap; by exists (n, d)).
  assert (relabel_fun (conv_mapping vnode fnode true G) n = n) as Em.
  { destruct (conv_cases vnode fnode true G W F Hb n Hn)
      as [(i & _ & Hi & _)|[(j & _ & Hj & _)|(_ & _ & ?)]]; [| |done].
    - apply list_elem_of_lookup_2, part_nodes_elem in Hi as (d' & Hd' & Hp).
      rewrite (node_data_unique vnode fnode true G W F Hb n d d' Hd Hd') in H0. congruence.
    - apply list_elem_of_lookup_2, part_nodes_elem in Hj as (d' & Hd' & Hp).
      rewrite (node_data_unique vnode fnode true G W F Hb n d d' Hd Hd') in H1. congruence. }
  pose proof (out_has vnode fnode true G W F Hb n Hn) as Hin.
  pose proof (out_origin vnode fnode true G W F Hb n Hn) as Ho.
  rewrite Em in Hin, Ho. split_and!; [done|done|].
  destruct (Hk n d Hd H0 H1) as [t Ht]. exists t. split; [done|].
  by apply out_type.
Qed.

(** C10 as stated fails: a plain node (an [int]) with part label 2 is
    mapped to itself, and then [set_node] raises AttributeError on it, so
    that no factor graph is returned. *)
Lemma unlabelled_part_kept_counterexample :
  ¬ (∃ fg s' out,
       convert_to_fg vnode0 fnode0 0 true (store_of odd_label) = Ok (fg, s')
       ∧ graphs s' !! fg = Some out
       ∧ Plain 7 ∈ NX.nodes out
       ∧ origin_in out (Plain 7) = Some (VNode (Plain 7))).
Proof.
  intros (fg & s' & out & E & _). vm_compute in E. discriminate.
Qed.

(** * The claims at concrete inputs *)

Ltac compute_list H :=
  match type of H with
  | _ ∈ ?L => let l := eval vm_compute in L in change L with l in H
  end.

Ltac not_in_nodes :=
  let H := fresh in
  intros H; compute_list H;
  repeat (apply elem_of_cons in H as [H|H]; [try discriminate; injection H; intros; lia|]);
  by apply elem_of_nil in H.

Ltac wf_by_construction :=
  repeat (apply wf_add_edge || apply wf_add_node); apply wf_empty.

Lemma factories0_typed_inj :
  (∀ i, node_type (vnode0 i) = Some variable_node)
  ∧ (∀ i, node_type (fnode0 i VNone) = Some factor_node)
  ∧ (∀ i j, vnode0 i = vnode0 j → i = j)
  ∧ (∀ i j, fnode0 i VNone = fnode0 j VNone → i = j).
Proof.
  split_and!; try done.
  - intros i j E. injection E. lia.
  - intros i j E. injection E. lia.
Qed.

Lemma factories0_fresh G :
  (∀ x, x ∈ NX.nodes G → match x with
                          | Plain _ => True
                          | Inst a ty => a = 4 ∧ ty = Some factor_node
                          end) →
  factories_ok vnode0 fnode0 G.
Proof.
  intros HG. destruct factories0_typed_inj as (T1 & T2 & I1 & I2).
  split; try done.
  - intros i Hi. apply HG in Hi. simpl in Hi. destruct Hi as [_ ?]. done.
  - intros i Hi. apply HG in Hi. simpl in Hi. destruct Hi as [? _]. lia.
Qed.

Ltac all_nodes :=
  let x := fresh in let H := fresh in
  intros x H; compute_list H;
  repeat (apply elem_of_cons in H as [->|H]; [done|]);
  by apply elem_of_nil in H.

Lemma wf_path3 : wf path3.
Proof. wf_by_construction. Qed.

Lemma factories_path3 : factories_ok vnode0 fnode0 path3.
Proof. apply factories0_fresh. all_nodes. Qed.

Lemma wf_edge2 : wf edge2.
Proof. wf_by_construction. Qed.

Lemma factories_edge2 : factories_ok vnode0 fnode0 edge2.
Proof. apply factories0_fresh. all_nodes. Qed.

Lemma wf_two_to_one : wf two_to_one.
Proof. wf_by_construction. Qed.

Lemma factories_two_to_one : factories_ok vnode0 fnode0 two_to_one.
Proof. apply factories0_fresh. all_nodes. Qed.

Lemma wf_with_kept : wf with_kept.
Proof. wf_by_construction. Qed.

Lemma factories_with_kept : factories_ok vnode0 fnode0 with_kept.
Proof. apply factories0_fresh. all_nodes. Qed.

Ltac each_node H :=
  compute_list H;
  repeat (apply elem_of_cons in H as [H|H]; [injection H as -> ->|]);
  [..|by apply elem_of_nil in H].

Lemma two_parts_two_to_one : two_parts two_to_one.
Proof. intros n d H. each_node H; vm_compute; auto. Qed.

Lemma crossing_two_to_one : crossing two_to_one.
Proof.
  intros u v du dv He Hu Hv. each_node Hu; each_node Hv;
    vm_compute in He; try discriminate; vm_compute; discriminate.
Qed.

Lemma labelled_with_kept : labelled with_kept.
Proof. intros n d H. each_node H; vm_compute; eauto. Qed.

Lemma kept_typed_with_kept : kept_typed with_kept.
Proof.
  intros n d H H0 H1. each_node H; vm_compute in H0, H1; try discriminate.
  vm_compute. eauto.
Qed.

Lemma no_loops_path3 : ∀ x, NX.has_edge path3 x x = false.
Proof.
  intros x. apply has_edge_false. intros Hx.
  assert (x ∈ NX.nodes path3) as Hn by by apply (wf_closed _ wf_path3 x).
  revert Hx. apply has_edge_false.
  compute_list Hn.
  repeat (apply elem_of_cons in Hn as [->|Hn]; [by vm_compute|]).
  by apply elem_of_nil in Hn.
Qed.

(** C1 on the path a - b - c, without [bipartite]. *)
Lemma partition_invariant_witness :
  ∃ fg s' out,
    convert_to_fg vnode0 fnode0 0 false (store_of path3) = Ok (fg, s')
    ∧ graphs s' !! fg = Some out
    ∧ (∀ n d, (n, d) ∈ node out →
         d !! "type" = Some (VType variable_node)
         ∨ d !! "type" = Some (VType factor_node))
    ∧ (∀ x y, NX.has_edge out x y = true →
         (type_in out x = Some (VType variable_node)
          ∧ type_in out y = Some (VType factor_node))
         ∨ (type_in out x = Some (VType factor_node)
            ∧ type_in out y = Some (VType variable_node))).
Proof.
  apply (partition_invariant vnode0 fnode0 (store_of path3) 0 path3 false).
  - reflexivity.
  - apply wf_path3.
  - apply factories_path3.
  - discriminate.
Defined.

(** C2 on the path a - b - c: 3 variable nodes, 2 factor nodes, 4 edges. *)
Lemma edge_expansion_witness :
  ∃ fg s' out vs fs,
    convert_to_fg vnode0 fnode0 0 false (store_of path3) = Ok (fg, s')
    ∧ graphs s' !! fg = Some out
    ∧ get_vnodes fg s' = Ok (vs, s')
    ∧ length vs = NX.number_of_nodes path3
    ∧ get_fnodes fg s' = Ok (fs, s')
    ∧ length fs = NX.number_of_edges path3
    ∧ NX.number_of_edges out = 2 * NX.number_of_edges path3.
Proof.
  apply (edge_expansion vnode0 fnode0 (store_of path3) 0 path3).
  - reflexivity.
  - apply wf_path3.
  - apply factories_path3.
  - apply no_loops_path3.
Defined.

(** C3 (amended) on the bipartite input of scenario B. *)
Lemma origin_bijection_witness :
  ∃ fg s' out core,
    convert_to_fg vnode0 fnode0 0 true (store_of two_to_one) = Ok (fg, s')
    ∧ graphs s' !! fg = Some out
    ∧ NoDup (NX.nodes out) ∧ NoDup (NX.nodes two_to_one) ∧ NoDup core
    ∧ (∀ x, x ∈ core → x ∈ NX.nodes out)
    ∧ origin_in out <$> core ≡ₚ (λ n, Some (VNode n)) <$> NX.nodes two_to_one
    ∧ (∀ x, x ∈ NX.nodes out → x ∉ core →
         true = false
         ∧ type_in out x = Some (VType factor_node)
         ∧ origin_in out x = None)
    ∧ (true = false → ∀ x, x ∈ core → type_in out x = Some (VType variable_node)).
Proof.
  apply (origin_bijection vnode0 fnode0 (store_of two_to_one) 0 two_to_one true).
  - reflexivity.
  - apply wf_two_to_one.
  - apply factories_two_to_one.
  - intros _. apply two_parts_pre, two_parts_two_to_one.
Defined.

(** C4 on the path a - b - c. *)
Lemma convert_leaves_input_witness :
  ∃ fg s',
    convert_to_fg vnode0 fnode0 0 false (store_of path3) = Ok (fg, s')
    ∧ graphs s' !! 0 = Some path3
    ∧ fg ≠ 0
    ∧ graphs (store_of path3) !! fg = None
    ∧ is_Some (graphs s' !! fg)
    ∧ ∀ g' G', graphs (store_of path3) !! g' = Some G' → graphs s' !! g' = Some G'.
Proof.
  eexists _, _. split; [vm_compute; reflexivity|].
  apply (convert_leaves_input vnode0 fnode0 (store_of path3) _ 0 _ path3 false).
  - reflexivity.
  - vm_compute. reflexivity.
Defined.

(** C5 (amended) on scenario B. *)
Lemma factory_index_order_witness :
  ∃ fg s' out,
    convert_to_fg vnode0 fnode0 0 true (store_of two_to_one) = Ok (fg, s')
    ∧ graphs s' !! fg = Some out
    ∧ (∀ i n, part_nodes 0 (node two_to_one) !! i = Some n →
         vnode0 (length (part_nodes 0 (node two_to_one)) - 1 - i) ∈ NX.nodes out
         ∧ origin_in out (vnode0 (length (part_nodes 0 (node two_to_one)) - 1 - i))
           = Some (VNode n))
    ∧ (∀ j n, part_nodes 1 (node two_to_one) !! j = Some n →
         fnode0 (length (part_nodes 1 (node two_to_one)) - 1 - j) VNone ∈ NX.nodes out
         ∧ origin_in out (fnode0 (length (part_nodes 1 (node two_to_one)) - 1 - j) VNone)
           = Some (VNode n)).
Proof.
  apply (factory_index_order vnode0 fnode0 (store_of two_to_one) 0 two_to_one).
  - reflexivity.
  - apply wf_two_to_one.
  - apply factories_two_to_one.
  - apply two_parts_pre, two_parts_two_to_one.
  - apply two_parts_pre, two_parts_two_to_one.
Defined.

(** C6: a variable node inserted twice, the second time with a keyword. *)
Lemma set_node_spec_witness :
  ∃ s' G' d,
    set_node 0 (vnode0 0) {["color" := VInt 1]}
      (store_of (NX.add_node FG0 (vnode0 0) {["type" := VType variable_node]}))
    = Ok (tt, s')
    ∧ Dict.get (node_graph s') (vnode0 0) = Some 0
    ∧ graphs s' !! 0 = Some G'
    ∧ Dict.get (node G') (vnode0 0) = Some d
    ∧ d !! "type" = Some (VType variable_node)
    ∧ (∀ k v, k ≠ "type" → ({["color" := VInt 1]} : attrs) !! k = Some v → d !! k = Some v)
    ∧ (vnode0 0 ∈ NX.nodes (NX.add_node FG0 (vnode0 0) {["type" := VType variable_node]}) →
       NX.number_of_nodes G'
       = NX.number_of_nodes (NX.add_node FG0 (vnode0 0) {["type" := VType variable_node]})
       ∧ ∀ old k v,
           Dict.get (node (NX.add_node FG0 (vnode0 0) {["type" := VType variable_node]}))
                    (vnode0 0) = Some old →
           old !! k = Some v → k ≠ "type" →
           ({["color" := VInt 1]} : attrs) !! k = None → d !! k = Some v).
Proof.
  apply (set_node_spec _ 0 _ (vnode0 0) variable_node).
  - reflexivity.
  - reflexivity.
Defined.

(** C7 on the factor graph obtained from scenario B. *)
Lemma get_nodes_partition_witness :
  ∃ vs fs,
    get_vnodes 0 (store_of (conv_out vnode0 fnode0 true two_to_one))
      = Ok (vs, store_of (conv_out vnode0 fnode0 true two_to_one))
    ∧ get_fnodes 0 (store_of (conv_out vnode0 fnode0 true two_to_one))
      = Ok (fs, store_of (conv_out vnode0 fnode0 true two_to_one))
    ∧ (∀ n, n ∈ vs ↔ ∃ d, (n, d) ∈ node (conv_out vnode0 fnode0 true two_to_one)
                          ∧ d !! "type" = Some (VType variable_node))
    ∧ (∀ n, n ∈ fs ↔ ∃ d, (n, d) ∈ node (conv_out vnode0 fnode0 true two_to_one)
                          ∧ d !! "type" = Some (VType factor_node))
    ∧ (∀ n, n ∈ vs → n ∈ fs → False)
    ∧ (∀ n d t, (n, d) ∈ node (conv_out vnode0 fnode0 true two_to_one) →
                d !! "type" = Some (VType t) → n ∈ vs ∨ n ∈ fs).
Proof.
  apply (get_nodes_partition _ 0 (conv_out vnode0 fnode0 true two_to_one)).
  - reflexivity.
  - apply (bool_decide_unpack _). vm_compute. exact I.
  - intros n d H. each_node H; vm_compute; eauto.
Defined.

(** C8: the node added last has no part label. *)
Lemma missing_label_raises_witness :
  convert_to_fg vnode0 fnode0 0 true (store_of (NX.add_node two_to_one (Plain 9) ∅))
  = Raise (KeyError (VStr "bipartite")).
Proof.
  apply (missing_label_raises vnode0 fnode0 _ 0 (NX.add_node two_to_one (Plain 9) ∅)
           (Plain 9) ∅).
  - reflexivity.
  - apply list_elem_of_In. vm_compute. auto.
  - reflexivity.
Defined.

(** C9: an edge from a variable node that was inserted to a node that was
    not. *)
Lemma set_edge_untyped_endpoint_witness :
  ∃ s' G',
    set_edge 0 (vnode0 0) (fnode0 0 VNone) None
      (store_of (NX.add_node FG0 (vnode0 0) {["type" := VType variable_node]}))
    = Ok (tt, s')
    ∧ graphs s' !! 0 = Some G'
    ∧ (∀ x, x = vnode0 0 ∨ x = fnode0 0 VNone →
            x ∉ NX.nodes (NX.add_node FG0 (vnode0 0) {["type" := VType variable_node]}) →
            (x, ∅) ∈ node G')
    ∧ get_vnodes 0 s' = Raise (KeyError (VStr "type"))
    ∧ get_fnodes 0 s' = Raise (KeyError (VStr "type")).
Proof.
  apply (set_edge_untyped_endpoint _ 0 _ (vnode0 0) (fnode0 0 VNone) None).
  - reflexivity.
  - right. not_in_nodes.
Defined.

(** C10 (amended): the instance with part label 2 is kept. *)
Lemma unlabelled_part_kept_witness :
  ∃ fg s' out,
    convert_to_fg vnode0 fnode0 0 true (store_of with_kept) = Ok (fg, s')
    ∧ graphs s' !! fg = Some out
    ∧ ∀ n d, (n, d) ∈ node with_kept → has_part 0 d = false → has_part 1 d = false →
        n ∈ NX.nodes out
        ∧ origin_in out n = Some (VNode n)
        ∧ ∃ t, node_type n = Some t ∧ type_in out n = Some (VType t).
Proof.
  apply (unlabelled_part_kept vnode0 fnode0 (store_of with_kept) 0 with_kept).
  - reflexivity.
  - apply wf_with_kept.
  - apply factories_with_kept.
  - apply labelled_with_kept.
  - apply kept_typed_with_kept.
Defined.

(** * Further properties of the methods *)

(** ** Loops and errors *)

Lemma for_app {A} (l1 l2 : list A) (body : A → M unit) : ∀ s,
  for_ (l1 ++ l2) body s = bind (for_ l1 body) (λ _, for_ l2 body) s.
Proof.
  induction l1 as [|x l1 IH]; intros s; [reflexivity|].
  simpl. rewrite bind_assoc. unfold bind at 1 2.
  destruct (body x s) as [[[] s1]|e]; [|done]. apply IH.
Qed.

Lemma set_node_raise self n attr s :
  node_type n = None → set_node self n attr s = Raise (set_node_error n).
Proof.
  intros Hn. destruct n as [k|a ty]; [done|]. simpl in Hn. subst ty. done.
Qed.

(** X1. [set_nodes(nodes)] stops at the first object that has no [type]:
    when the objects before it are typed, the call raises AttributeError,
    for the attribute [graph] when the object is a builtin (the assignment
    [node.graph = self] comes first) and for [type] when it is an instance
    without that attribute. *)
Theorem set_nodes_first_untyped (s : Store) (self : nat) (G : Graph)
    (pre post : list Node) (n : Node) :
  graphs s !! self = Some G →
  (∀ x, x ∈ pre → is_Some (node_type x)) →
  node_type n = None →
  set_nodes self (pre ++ n :: post) s = Raise (set_node_error n).
Proof.
  intros HG Hpre Hn. unfold set_nodes. rewrite for_app.
  erewrite bind_run by (apply (set_nodes_run self pre s G); done).
  cbn [for_]. apply bind_raise. by apply set_node_raise.
Qed.

(** ** set_nodes and the two selections *)

Lemma filter_typed t (ns : list Node) :
  (filter (λ p : Node * attrs, has_type t p.2 = true)
          ((λ n, (n, type_attrs n)) <$> ns)).*1
  = filter (λ n, node_type n = Some t) ns.
Proof.
  induction ns as [|n ns IH]; [done|]. csimpl. rewrite !filter_cons. simpl.
  assert (has_type t (type_attrs n) = true ↔ node_type n = Some t) as E.
  { unfold has_type, type_attrs. destruct (node_type n) as [t'|].
    - rewrite lookup_insert_eq. simpl. rewrite bool_decide_eq_true. split; congruence.
    - rewrite lookup_empty. split; done. }
  destruct (decide (has_type t (type_attrs n) = true)) as [Y|N];
    destruct (decide (node_type n = Some t)) as [Y'|N']; csimpl.
  - by rewrite IH.
  - by apply E in Y.
  - by apply E in Y'.
  - done.
Qed.

Lemma type_attrs_typed n : is_Some (node_type n) → is_Some (type_attrs n !! "type").
Proof.
  intros [t Ht]. unfold type_attrs. rewrite Ht, lookup_insert_eq. eauto.
Qed.

(** X2. [set_nodes(nodes)] on typed objects that are new to the graph and
    pairwise different returns; each of them then has the graph as its
    [graph] attribute, and [get_vnodes()] and [get_fnodes()] return what
    they returned before followed by the new variable nodes, respectively
    the new factor nodes, in the order of the argument. *)
Theorem set_nodes_appends (s : Store) (self : nat) (G : Graph) (ns : list Node) :
  graphs s !! self = Some G →
  (∀ n d, (n, d) ∈ node G → is_Some (d !! "type")) →
  NoDup ns →
  (∀ n, n ∈ ns → n ∉ NX.nodes G) →
  (∀ n, n ∈ ns → is_Some (node_type n)) →
  ∃ s' vs fs,
    set_nodes self ns s = Ok (tt, s')
    ∧ get_vnodes self s = Ok (vs, s)
    ∧ get_fnodes self s = Ok (fs, s)
    ∧ get_vnodes self s'
      = Ok (vs ++ filter (λ n, node_type n = Some variable_node) ns, s')
    ∧ get_fnodes self s'
      = Ok (fs ++ filter (λ n, node_type n = Some factor_node) ns, s')
    ∧ (∀ n, n ∈ ns → Dict.get (node_graph s') n = Some self).
Proof.
  intros HG Hty ND Hnew Htyped.
  destruct (get_nodes_run s self G HG Hty) as [Hv Hf].
  pose proof (set_nodes_run self ns s G HG Htyped) as Hrun.
  set (G' := add_nodes_with type_attrs G ns) in *.
  set (s' := mkStore _ _) in Hrun.
  assert (graphs s' !! self = Some G') as HG'.
  { simpl. apply list_lookup_insert_eq. by eapply lookup_lt_Some. }
  assert (node G' = node G ++ ((λ n, (n, type_attrs n)) <$> ns)) as HD.
  { by apply add_nodes_with_fresh. }
  destruct (get_nodes_run s' self G' HG') as [Hv' Hf'].
  { intros n d. rewrite HD, elem_of_app.
    intros [Hd|(n' & E & Hn')%list_elem_of_fmap]; [by eapply Hty|].
    injection E as -> ->. by apply type_attrs_typed, Htyped. }
  eexists s', _, _. split_and!; [exact Hrun|exact Hv|exact Hf| | |].
  - rewrite Hv', HD, filter_app, fmap_app, filter_typed. done.
  - rewrite Hf', HD, filter_app, fmap_app, filter_typed. done.
  - intros n Hn. simpl. rewrite get_update_nodup.
    + by rewrite (get_fmap_pair (λ _, self)).
    + unfold Dict.keys. rewrite <- list_fmap_compose. by rewrite list_fmap_id.
Qed.

(** ** Edge data *)

Lemma has_edge_data G x y : NX.has_edge G x y = true ↔ is_Some (edge_data G x y).
Proof.
  unfold NX.has_edge, edge_data. destruct (Dict.get (adj G) x) as [nb|]; simpl.
  - by rewrite mem_spec, get_is_Some.
  - split; [done|]. by intros [? ?].
Qed.

Lemma add_node_edge_data G n d x y :
  Dict.keys (adj G) = Dict.keys (node G) →
  edge_data (NX.add_node G n d) x y = edge_data G x y.
Proof.
  intros K. unfold edge_data, NX.add_node.
  destruct (NX.has_node G n) eqn:E; simpl; [done|].
  rewrite get_set. destruct (decide (x = n)) as [->|]; [|done].
  apply has_node_false in E. unfold NX.nodes in E. rewrite <- K in E.
  apply get_None in E. by rewrite E.
Qed.

Lemma with_ends_edge_data G u v x y :
  wf G → edge_data (with_ends G u v) x y = edge_data G x y.
Proof.
  intros W. rewrite with_ends_as_add_node. cbv zeta.
  assert (edge_data (if NX.has_node G u then G else NX.add_node G u ∅) x y
          = edge_data G x y) as E1.
  { destruct (NX.has_node G u); [done|]. apply add_node_edge_data, W. }
  assert (wf (if NX.has_node G u then G else NX.add_node G u ∅)) as W1.
  { destruct (NX.has_node G u); [done|]. by apply wf_add_node. }
  destruct (NX.has_node _ v); [done|].
  rewrite add_node_edge_data by apply W1. done.
Qed.

Lemma add_edge_data G u v d x y :
  wf G →
  edge_data (NX.add_edge G u v d) x y =
  if decide ((x = u ∧ y = v) ∨ (x = v ∧ y = u))
  then Some (d ∪ default ∅ (edge_data G u v))
  else edge_data G x y.
Proof.
  intros W. rewrite <- (with_ends_edge_data G u v x y W).
  rewrite <- (with_ends_edge_data G u v u v W).
  rewrite add_edge_unfold. cbv zeta.
  pose proof (wf_with_ends G u v W) as W2.
  destruct (with_ends_has G u v) as [Hu Hv].
  unfold NX.nodes in Hu, Hv. rewrite <- (wf_keys _ W2) in Hu, Hv.
  apply get_is_Some in Hu as [nbu Eu], Hv as [nbv Ev].
  generalize dependent (with_ends G u v). intros G2 W2 Eu Ev.
  unfold edge_data at 1 2. simpl. unfold NX.link.
  fold (edge_data G2 u v). set (dd := d ∪ default ∅ (edge_data G2 u v)).
  rewrite !get_alter.
  destruct (decide (x = v)) as [Hxv|Nv], (decide (x = u)) as [Hxu|Nu].
  - subst x. subst v. rewrite Eu. simpl. rewrite !get_set.
    destruct (decide (y = u)) as [Hy|Ny].
    + rewrite decide_True by auto. done.
    + rewrite decide_False by (intros [[_ ?]|[_ ?]]; done).
      unfold edge_data. by rewrite Eu.
  - subst x. rewrite Ev. simpl. rewrite get_set.
    destruct (decide (y = u)) as [Hy|Ny].
    + rewrite decide_True by auto. done.
    + rewrite decide_False by (intros [[? _]|[_ ?]]; done).
      unfold edge_data. by rewrite Ev.
  - subst x. rewrite Eu. simpl. rewrite get_set.
    destruct (decide (y = v)) as [Hy|Ny].
    + rewrite decide_True by auto. done.
    + rewrite decide_False by (intros [[_ ?]|[? _]]; done).
      unfold edge_data. by rewrite Eu.
  - rewrite decide_False by (intros [[? _]|[? _]]; done). done.
Qed.

Lemma number_of_edges_add_edge G u v d :
  wf G →
  NX.number_of_edges (NX.add_edge G u v d)
  = NX.number_of_edges G + (if NX.has_edge G u v then 0 else 1).
Proof.
  intros W. unfold NX.number_of_edges. rewrite sum_degree_add_edge by done.
  rewrite <- (edges_iter_count G W).
  destruct (NX.has_edge G u v).
  - by rewrite Nat.add_0_r.
  - replace (2 * length (NX.edges_iter G) + 2) with ((length (NX.edges_iter G) + 1) * 2) by lia.
    rewrite Nat.div_mul by done.
    replace (2 * length (NX.edges_iter G)) with (length (NX.edges_iter G) * 2) by lia.
    by rewrite Nat.div_mul.
Qed.

(** ** FactorGraph.set_node: what is left alone *)

(** X3. [set_node(node)] changes the entry of [node] and nothing else of
    a well-formed graph: the graph attributes, the attributes of every
    other node, the data of every edge and the number of edges are what
    they were, a new node is appended after the existing ones, no other
    node has its [graph] attribute touched, and no other graph object is
    written. *)
Theorem set_node_frame (s : Store) (self : nat) (G : Graph) (n : Node)
    (t : NodeType) (attr : attrs) :
  graphs s !! self = Some G →
  wf G →
  node_type n = Some t →
  ∃ s' G',
    set_node self n attr s = Ok (tt, s')
    ∧ graphs s' !! self = Some G'
    ∧ wf G'
    ∧ graph G' = graph G
    ∧ NX.nodes G' = add_key (NX.nodes G) n
    ∧ (∀ x, x ≠ n → Dict.get (node G') x = Dict.get (node G) x)
    ∧ (∀ x y, edge_data G' x y = edge_data G x y)
    ∧ NX.number_of_edges G' = NX.number_of_edges G
    ∧ (∀ x, x ≠ n → Dict.get (node_graph s') x = Dict.get (node_graph s) x)
    ∧ (∀ g, g ≠ self → graphs s' !! g = graphs s !! g).
Proof.
  intros HG W Ht.
  eexists _, _. split; [by apply set_node_run|]. simpl.
  split_and!.
  - apply list_lookup_insert_eq. by eapply lookup_lt_Some.
  - by apply wf_add_node.
  - apply add_node_graph.
  - apply add_node_nodes.
  - intros x Hx. rewrite add_node_get. by rewrite decide_False.
  - intros x y. apply add_node_edge_data, W.
  - unfold NX.number_of_edges. by rewrite sum_degree_add_node.
  - intros x Hx. rewrite get_set. by rewrite decide_False.
  - intros g Hg. by rewrite list_lookup_insert_ne.
Qed.

(** ** FactorGraph.set_edge, FactorGraph.set_edges *)

(** X4. [set_edge(snode, tnode, init)] on a well-formed graph returns and
    stores one [Edge(snode, tnode, init)] under ['object'] for both
    directions of the edge, keeping the other attributes an existing edge
    had; on an existing edge, in either direction, the [Edge] object is
    replaced and the number of edges stays, otherwise it grows by one.
    Every other edge is left alone, end points that are nodes already
    keep their attributes, and no [graph] attribute of a node is set. *)
Theorem set_edge_spec (s : Store) (self : nat) (G : Graph) (u v : Node)
    (init : option Z) :
  graphs s !! self = Some G →
  wf G →
  ∃ s' G',
    set_edge self u v init s = Ok (tt, s')
    ∧ graphs s' !! self = Some G'
    ∧ wf G'
    ∧ node_graph s' = node_graph s
    ∧ NX.nodes G' = add_key (add_key (NX.nodes G) u) v
    ∧ (u ∈ NX.nodes G → v ∈ NX.nodes G → node G' = node G)
    ∧ edge_data G' u v
      = Some (<["object" := VEdge (mkEdge u v init)]> (default ∅ (edge_data G u v)))
    ∧ edge_data G' v u = edge_data G' u v
    ∧ (∀ x y, ¬ same_edge (x, y) (u, v) → edge_data G' x y = edge_data G x y)
    ∧ NX.number_of_edges G'
      = NX.number_of_edges G + (if NX.has_edge G u v then 0 else 1).
Proof.
  intros HG W.
  eexists _, _. split; [by apply set_edge_run|]. simpl.
  split_and!.
  - apply list_lookup_insert_eq. by eapply lookup_lt_Some.
  - by apply wf_add_edge.
  - done.
  - apply add_edge_nodes.
  - apply add_edge_node_present.
  - rewrite add_edge_data by done. rewrite decide_True by auto.
    by rewrite insert_union_singleton_l.
  - rewrite !add_edge_data by done. by rewrite !decide_True by auto.
  - intros x y Hs. rewrite add_edge_data by done. rewrite decide_False; [done|].
    intros [[-> ->]|[-> ->]]; apply Hs; [by left|by right].
  - by apply number_of_edges_add_edge.
Qed.

Lemma edge_obj_pairs (es : list (Node * Node)) :
  (λ e : Node * Node * attrs, (e.1.1, e.1.2)) <$> (edge_obj <$> es) = es.
Proof.
  rewrite <- list_fmap_compose. rewrite <- (list_fmap_id es) at 2.
  apply list_fmap_ext. by intros i [x y] _.
Qed.

Lemma number_of_edges_half G k : NX.sum_degree G = 2 * k → NX.number_of_edges G = k.
Proof.
  intros E. unfold NX.number_of_edges. rewrite E.
  replace (2 * k) with (k * 2) by lia. by rewrite Nat.div_mul.
Qed.

(** X5. [set_edges(edges)] on a well-formed graph returns; afterwards two
    nodes are adjacent exactly when they were before or the list has the
    pair in one of the two directions, the nodes are the old ones and the
    end points of the list, a list all of whose end points are nodes
    already leaves the node dictionary as it was, and a list of pairwise
    different edges none of which existed adds as many edges as it is
    long. *)
Theorem set_edges_spec (s : Store) (self : nat) (G : Graph)
    (es : list (Node * Node)) :
  graphs s !! self = Some G →
  wf G →
  ∃ s' G',
    set_edges self es s = Ok (tt, s')
    ∧ graphs s' !! self = Some G'
    ∧ wf G'
    ∧ node_graph s' = node_graph s
    ∧ (∀ x y, NX.has_edge G' x y = true ↔
              NX.has_edge G x y = true ∨ ∃ e, e ∈ es ∧ same_edge (x, y) e)
    ∧ (∀ x, x ∈ NX.nodes G' ↔ x ∈ NX.nodes G ∨ ∃ e, e ∈ es ∧ (x = e.1 ∨ x = e.2))
    ∧ ((∀ e, e ∈ es → e.1 ∈ NX.nodes G ∧ e.2 ∈ NX.nodes G) → node G' = node G)
    ∧ (distinct_edges es → (∀ e, e ∈ es → NX.has_edge G e.1 e.2 = false) →
       NX.number_of_edges G' = NX.number_of_edges G + length es).
Proof.
  intros HG W.
  eexists _, _. split; [by apply set_edges_run|]. simpl.
  split_and!.
  - apply list_lookup_insert_eq. by eapply lookup_lt_Some.
  - by apply wf_add_edges_from.
  - done.
  - intros x y. rewrite !has_edge_spec, add_edges_from_nbr by done.
    split; (intros [?|(e & He & Hs)]; [by left|right]).
    + apply list_elem_of_fmap in He as ([a b] & -> & He). by exists (a, b).
    + exists (edge_obj e). split; [by apply list_elem_of_fmap_2|]. by destruct e.
  - intros x. rewrite add_edges_from_nodes.
    split; (intros [?|(e & He & Hs)]; [by left|right]).
    + apply list_elem_of_fmap in He as ([a b] & -> & He). by exists (a, b).
    + exists (edge_obj e). split; [by apply list_elem_of_fmap_2|]. by destruct e.
  - intros Hin. apply add_edges_from_node.
    intros e ([a b] & -> & He)%list_elem_of_fmap. by apply (Hin (a, b)).
  - intros Hd Hnew. apply number_of_edges_half.
    rewrite add_edges_from_count; [| done | by rewrite edge_obj_pairs |].
    + rewrite length_fmap, <- (edges_iter_count G W).
      rewrite (number_of_edges_iter G W). lia.
    + intros e ([a b] & -> & He)%list_elem_of_fmap. simpl.
      apply has_edge_false. by apply (Hnew (a, b)).
Qed.

(** ** Inserting a node again *)

Lemma dict_alter_twice {V} (f : V → V) (k : Node) (l : list (Node * V)) :
  Dict.alter f k (Dict.alter f k l) = Dict.alter (λ v, f (f v)) k l.
Proof.
  induction l as [|[k' v] l IH]; [done|]. simpl.
  destruct (decide (k = k')) as [->|Ne]; simpl.
  - by rewrite decide_True.
  - rewrite decide_False by done. by rewrite IH.
Qed.

Lemma dict_alter_ext {V} (f g : V → V) (k : Node) (l : list (Node * V)) :
  (∀ v, f v = g v) → Dict.alter f k l = Dict.alter g k l.
Proof.
  intros E. induction l as [|[k' v] l IH]; [done|]. simpl.
  destruct (decide (k = k')); by rewrite ?E, ?IH.
Qed.

Lemma dict_alter_set {V} (f : V → V) (k : Node) (l : list (Node * V)) v :
  Dict.alter f k (Dict.set l k v) = Dict.set l k (f v).
Proof.
  induction l as [|[k' v'] l IH]; simpl.
  - by rewrite decide_True.
  - destruct (decide (k = k')) as [->|Ne]; simpl.
    + by rewrite decide_True.
    + rewrite decide_False by done. by rewrite IH.
Qed.

Lemma dict_set_twice {V} (k : Node) (l : list (Node * V)) v :
  Dict.set (Dict.set l k v) k v = Dict.set l k v.
Proof.
  induction l as [|[k' v'] l IH]; simpl.
  - by rewrite decide_True.
  - destruct (decide (k = k')) as [->|Ne]; simpl.
    + by rewrite decide_True.
    + rewrite decide_False by done. by rewrite IH.
Qed.

Lemma add_node_idem G n (d : attrs) :
  NX.add_node (NX.add_node G n d) n d = NX.add_node G n d.
Proof.
  assert (NX.has_node (NX.add_node G n d) n = true) as E.
  { apply has_node_spec. rewrite add_node_nodes. apply elem_add_key. by right. }
  unfold NX.add_node at 1. rewrite E.
  unfold NX.add_node. destruct (NX.has_node G n); simpl; f_equal.
  - rewrite dict_alter_twice. apply dict_alter_ext. intros v.
    by rewrite (assoc_L (∪)), (idemp_L (∪)).
  - rewrite dict_alter_set. by rewrite (idemp_L (∪)).
Qed.

(** X6. [set_node] is idempotent: calling it again with the same node
    and the same keyword attributes returns and leaves every graph object
    and every [graph] attribute as the first call left them. *)
Theorem set_node_idempotent (s : Store) (self : nat) (G : Graph) (n : Node)
    (t : NodeType) (attr : attrs) :
  graphs s !! self = Some G →
  node_type n = Some t →
  ∃ s',
    set_node self n attr s = Ok (tt, s')
    ∧ set_node self n attr s' = Ok (tt, s').
Proof.
  intros HG Ht. eexists. split; [by apply set_node_run|].
  erewrite set_node_run; [|simpl; apply list_lookup_insert_eq; by eapply lookup_lt_Some|done].
  simpl. by rewrite list_insert_insert_eq, add_node_idem, dict_set_twice.
Qed.

(** * Further properties of convert_to_fg *)

(** ** Attributes of the result *)

Lemma put_factors_graph fnode es : ∀ G, graph (put_factors fnode G es) = graph G.
Proof.
  induction es as [|e es IH]; intros G; [done|].
  cbn [put_factors]. rewrite IH, add_edges_from_graph. apply add_node_graph.
Qed.

Lemma conv_out_graph vnode fnode b G :
  graph (conv_out vnode fnode b G) = {["name" := VStr "Factor Graph"]}.
Proof.
  unfold conv_out, conv_out0. simpl. destruct b.
  - by rewrite add_edges_from_graph, add_nodes_with_graph.
  - by rewrite put_factors_graph, add_nodes_with_graph.
Qed.

Lemma type_attrs_of n t : node_type n = Some t → type_attrs n = {["type" := VType t]}.
Proof. intros Ht. unfold type_attrs. rewrite Ht. apply insert_empty. Qed.

(** X7. Nothing but the structure of the input reaches the result: the
    graph attributes of the returned factor graph are the name "Factor
    Graph" alone, and the attribute dictionary of each of its nodes holds
    exactly ['type'] and ['origin'] (a node of the input) or, for the
    factor nodes made for the edges without [bipartite], ['type'] alone;
    no attribute of an input node, the part label included, is copied. *)
Theorem result_attributes (vnode : nat → Node) (fnode : nat → value → Node)
    (s : Store) (g : nat) (G : Graph) (b : bool) :
  graphs s !! g = Some G →
  wf G →
  factories_ok vnode fnode G →
  (b = true → labelled G ∧ kept_typed G) →
  ∃ fg s' out,
    convert_to_fg vnode fnode g b s = Ok (fg, s')
    ∧ graphs s' !! fg = Some out
    ∧ graph out = {["name" := VStr "Factor Graph"]}
    ∧ ∀ n d, (n, d) ∈ node out →
        ∃ t, node_type n = Some t
             ∧ ((∃ a, a ∈ NX.nodes G
                      ∧ d = <["origin" := VNode a]> {["type" := VType t]})
                ∨ (b = false ∧ t = factor_node ∧ d = {["type" := VType t]})).
Proof.
  intros Hg W F Hb.
  destruct (convert_to_fg_result vnode fnode s g G b Hg W F Hb) as (s' & Hrun & Hout).
  exists (length (graphs s)), s', (conv_out vnode fnode b G).
  split_and!; [done|done|apply conv_out_graph|].
  intros n d Hd.
  assert (n ∈ NX.nodes (conv_out vnode fnode b G)) as Hn.
  { apply list_elem_of_fmap. by exists (n, d). }
  pose proof (out_wf vnode fnode b G W F Hb) as Wo.
  apply (get_elem _ _ _ (wf_nodup _ Wo)) in Hd.
  rewrite (out_data vnode fnode b G W F Hb n Hn) in Hd. injection Hd as <-.
  destruct (out_typed vnode fnode b G W F Hb n Hn) as [t Ht]. exists t.
  split; [done|]. rewrite (type_attrs_of n t Ht).
  apply (out_nodes_cases vnode fnode b G W F Hb) in Hn as [Hn|(Eb & j & Hj & ->)].
  - left. apply (conv_H_nodes vnode fnode b G W F Hb) in Hn as (a & Ha & ->).
    exists a. split; [done|].
    by rewrite (conv_origin_get vnode fnode b G W F Hb a Ha).
  - right. rewrite (fnode_typed _ _ _ F) in Ht. injection Ht as <-.
    rewrite (conv_origin_get_None vnode fnode b G W F Hb).
    + done.
    + by apply fnode_not_in_H.
Qed.

(** ** Origins *)

Lemma origin_is_image vnode fnode b G x a :
  wf G → factories_ok vnode fnode G → (b = true → labelled G ∧ kept_typed G) →
  origin_in (conv_out vnode fnode b G) x = Some (VNode a) →
  a ∈ NX.nodes G ∧ x = relabel_fun (conv_mapping vnode fnode b G) a.
Proof.
  intros W F Hb Ho. unfold origin_in in Ho.
  destruct (Dict.get (node (conv_out vnode fnode b G)) x) as [d|] eqn:Ed; [|done].
  simpl in Ho.
  assert (x ∈ NX.nodes (conv_out vnode fnode b G)) as Hx.
  { apply get_is_Some. by rewrite Ed. }
  rewrite (out_data vnode fnode b G W F Hb x Hx) in Ed. injection Ed as <-.
  destruct (Dict.get (conv_origin vnode fnode b G) x) as [v|] eqn:Eo.
  - rewrite lookup_insert_eq in Ho. injection Ho as ->.
    apply get_Some_elem in Eo. rewrite (conv_origin_fmap vnode fnode b G W F Hb) in Eo.
    apply list_elem_of_fmap in Eo as (n & E & Hn). injection E as -> ->. done.
  - by rewrite (type_attrs_origin vnode fnode b G W F Hb) in Ho.
Qed.

(** ** Factory indices without [bipartite] *)

(** X8. Without [bipartite] the node at position i of the input's node
    iteration is replaced by [vnode(N - 1 - i)], N the number of nodes:
    that instance is a variable node of the result with the node as its
    ['origin'].  The indices run against the iteration order here too. *)
Theorem variable_index_order (vnode : nat → Node) (fnode : nat → value → Node)
    (s : Store) (g : nat) (G : Graph) :
  graphs s !! g = Some G →
  wf G →
  factories_ok vnode fnode G →
  ∃ fg s' out,
    convert_to_fg vnode fnode g false s = Ok (fg, s')
    ∧ graphs s' !! fg = Some out
    ∧ ∀ i n, NX.nodes G !! i = Some n →
        type_in out (vnode (NX.number_of_nodes G - 1 - i)) = Some (VType variable_node)
        ∧ origin_in out (vnode (NX.number_of_nodes G - 1 - i)) = Some (VNode n).
Proof.
  intros Hg W F.
  assert (false = true → labelled G ∧ kept_typed G) as Hb by done.
  destruct (convert_to_fg_result vnode fnode s g G false Hg W F Hb) as (s' & Hrun & Hout).
  exists (length (graphs s)), s', (conv_out vnode fnode false G).
  split_and!; [done|done|].
  intros i n Hi.
  assert (n ∈ NX.nodes G) as Hn by by eapply list_elem_of_lookup_2.
  assert (NX.number_of_nodes G = length (conv_vn false G)) as ->.
  { unfold NX.number_of_nodes, conv_vn, NX.nodes, Dict.keys. by rewrite length_fmap. }
  rewrite <- (conv_m_vn vnode fnode false G i n W F Hb Hi).
  split; [|by apply out_origin].
  apply out_type; [done..|by apply out_has|].
  rewrite (conv_m_vn vnode fnode false G i n W F Hb Hi). apply F.
Qed.

(** ** The empty graph *)

(** X9. On a graph without nodes [convert_to_fg] returns, in either mode
    and whatever the factories are, a new factor graph without nodes and
    edges, named "Factor Graph"; no [graph] attribute is set. *)
Theorem convert_empty (vnode : nat → Node) (fnode : nat → value → Node)
    (s : Store) (g : nat) (G : Graph) (b : bool) :
  graphs s !! g = Some G →
  wf G →
  NX.nodes G = [] →
  ∃ s',
    convert_to_fg vnode fnode g b s = Ok (length (graphs s), s')
    ∧ graphs s' !! length (graphs s) = Some FG0
    ∧ node_graph s' = node_graph s.
Proof.
  intros Hg W Hn.
  assert (node G = []) as Hnode.
  { unfold NX.nodes, Dict.keys in Hn. by apply fmap_nil_inv in Hn. }
  assert (adj G = []) as Hadj.
  { pose proof (wf_keys _ W) as K. fold (NX.nodes G) in K. rewrite Hn in K.
    unfold Dict.keys in K. by apply fmap_nil_inv in K. }
  destruct G as [ga nd ad]. simpl in Hnode, Hadj. subst nd ad.
  destruct s as [gs ng]. simpl in *.
  assert ((gs ++ [FG0]) !! g = Some (mkGraph ga [] [])) as Hg1 by by apply lookup_app_l_Some.
  unfold convert_to_fg.
  step ltac:(by apply read_graph_run).
  step ltac:(reflexivity). simpl graphs. simpl node_graph.
  destruct b.
  - step ltac:(by apply read_graph_run).
    step ltac:(reflexivity). step ltac:(reflexivity).
    step ltac:(reflexivity). step ltac:(reflexivity).
    unfold relabel_nodes.
    step ltac:(by apply read_graph_run).
    step ltac:(reflexivity). simpl graphs; simpl node_graph.
    step ltac:(apply read_graph_run; simpl; apply (lookup_at_end (gs ++ [FG0]) _ [])).
    step ltac:(reflexivity). step ltac:(reflexivity). step ltac:(reflexivity).
    unfold set_node_attributes.
    step ltac:(apply read_graph_run; simpl; rewrite <- app_assoc; apply lookup_at_end).
    step ltac:(reflexivity).
    step ltac:(eapply write_graph_run; simpl; rewrite <- app_assoc; apply lookup_at_end).
    eexists. split; [reflexivity|]. simpl. rewrite <- app_assoc. simpl.
    rewrite insert_at_end. split; [apply lookup_at_end|done].
  - step ltac:(by apply read_graph_run).
    step ltac:(reflexivity).
    unfold relabel_nodes.
    step ltac:(by apply read_graph_run).
    step ltac:(reflexivity). simpl graphs; simpl node_graph.
    step ltac:(apply read_graph_run; simpl; apply (lookup_at_end (gs ++ [FG0]) _ [])).
    step ltac:(reflexivity). step ltac:(reflexivity). step ltac:(reflexivity).
    unfold set_node_attributes.
    step ltac:(apply read_graph_run; simpl; rewrite <- app_assoc; apply lookup_at_end).
    step ltac:(reflexivity).
    step ltac:(eapply write_graph_run; simpl; rewrite <- app_assoc; apply lookup_at_end).
    eexists. split; [reflexivity|]. simpl. rewrite <- app_assoc. simpl.
    rewrite insert_at_end. split; [apply lookup_at_end|done].
Qed.

(** ** Counts with [bipartite] *)

Lemma length_nodes G : length (NX.nodes G) = NX.number_of_nodes G.
Proof. unfold NX.number_of_nodes, NX.nodes, Dict.keys. by rewrite length_fmap. Qed.

Lemma conv_out_edges_bip vnode fnode G :
  wf G → factories_ok vnode fnode G → labelled G → kept_typed G →
  NX.number_of_edges (conv_out vnode fnode true G) = NX.number_of_edges G.
Proof.
  intros W F Hl Hk.
  assert (true = true → labelled G ∧ kept_typed G) as Hb by done.
  pose proof (conv_H_wf vnode fnode true G W F Hb) as WH.
  rewrite <- (relabel_number_of_edges G (conv_mapping vnode fnode true G) W
                (conv_m_inj vnode fnode true G W F Hb)).
  fold (conv_H vnode fnode true G).
  rewrite (number_of_edges_iter _ WH).
  apply number_of_edges_half.
  change (NX.sum_degree (conv_out vnode fnode true G))
    with (NX.sum_degree (conv_out0 vnode fnode true G)).
  unfold conv_out0. cbv zeta iota.
  rewrite add_edges_from_count.
  - rewrite (fg1_sum_degree vnode fnode true G W F Hb), length_fmap. done.
  - apply (fg1_wf vnode fnode true G W F Hb).
  - rewrite edge_obj_pairs. by apply edges_iter_distinct.
  - intros e _. rewrite (fg1_nbr vnode fnode true G W F Hb). apply not_elem_of_nil.
Qed.

(** X10. With [bipartite], on an input all of whose nodes are labelled 0
    or 1, [get_vnodes()] on the returned factor graph gives exactly the
    nodes whose origin is labelled 0 and [get_fnodes()] exactly those whose
    origin is labelled 1, as many as the input has of each; the result has
    the same number of nodes and of edges as the input. *)
Theorem bipartite_counts (vnode : nat → Node) (fnode : nat → value → Node)
    (s : Store) (g : nat) (G : Graph) :
  graphs s !! g = Some G →
  wf G →
  factories_ok vnode fnode G →
  two_parts G →
  ∃ fg s' out vs fs,
    convert_to_fg vnode fnode g true s = Ok (fg, s')
    ∧ graphs s' !! fg = Some out
    ∧ get_vnodes fg s' = Ok (vs, s')
    ∧ (∀ x, x ∈ vs ↔ ∃ a, a ∈ part_nodes 0 (node G) ∧ origin_in out x = Some (VNode a))
    ∧ length vs = length (part_nodes 0 (node G))
    ∧ get_fnodes fg s' = Ok (fs, s')
    ∧ (∀ x, x ∈ fs ↔ ∃ a, a ∈ part_nodes 1 (node G) ∧ origin_in out x = Some (VNode a))
    ∧ length fs = length (part_nodes 1 (node G))
    ∧ NX.number_of_nodes out = NX.number_of_nodes G
    ∧ NX.number_of_edges out = NX.number_of_edges G.
Proof.
  intros Hg W F Htwo.
  destruct (two_parts_pre G Htwo) as [Hl Hk].
  assert (true = true → labelled G ∧ kept_typed G) as Hb by done.
  destruct (convert_to_fg_result vnode fnode s g G true Hg W F Hb) as (s' & Hrun & Hout).
  pose proof (out_wf vnode fnode true G W F Hb) as Wo.
  pose proof (conv_H_wf vnode fnode true G W F Hb) as WH.
  pose proof (out_typed vnode fnode true G W F Hb) as Otyped.
  pose proof (out_type vnode fnode true G W F Hb) as Otype.
  pose proof (out_nodes_cases vnode fnode true G W F Hb) as Ocases.
  pose proof (out_vnode_type vnode fnode true G W F Hb) as Ovt.
  pose proof (out_fnode_type vnode fnode true G W F Hb) as Oft.
  pose proof (out_has vnode fnode true G W F Hb) as Ohas.
  pose proof (out_origin vnode fnode true G W F Hb) as Oorigin.
  pose proof (λ x a, origin_is_image vnode fnode true G x a W F Hb) as Oimage.
  pose proof (conv_H_nodes vnode fnode true G W F Hb) as Hnodes.
  pose proof (conv_H_perm vnode fnode true G W F Hb) as Hperm.
  pose proof (in_vn_image vnode fnode true G W F Hb) as Vimg.
  pose proof (in_fn_image vnode fnode true G W F Hb) as Fimg.
  pose proof (conv_m_inj vnode fnode true G W F Hb) as Hinj.
  pose proof (conv_vn_sub vnode fnode true G W F Hb) as Vsub.
  pose proof (conv_fn_sub vnode fnode true G W F Hb) as Fsub.
  pose proof (conv_vn_nodup vnode fnode true G W F Hb) as Vnd.
  pose proof (conv_fn_nodup vnode fnode true G W F Hb) as Fnd.
  pose proof (conv_out_edges_bip vnode fnode G W F Hl Hk) as HE.
  assert (∀ a, a ∈ NX.nodes G → a ∈ conv_vn true G ∨ a ∈ conv_fn true G) as Hparts.
  { intros a Ha. destruct (node_data_of G a Ha) as [d Hd].
    destruct (Htwo a d Hd); [left|right]; apply part_nodes_elem; eauto. }
  change (part_nodes 0 (node G)) with (conv_vn true G).
  change (part_nodes 1 (node G)) with (conv_fn true G).
  revert Hout Wo WH Otyped Otype Ocases Ovt Oft Ohas Oorigin Oimage Hnodes Hperm Vimg Fimg
    Hinj HE.
  generalize (conv_out vnode fnode true G) as out.
  generalize (conv_H vnode fnode true G) as H.
  generalize (relabel_fun (conv_mapping vnode fnode true G)) as m.
  intros m H out Hout Wo WH Otyped Otype Ocases Ovt Oft Ohas Oorigin Oimage Hnodes Hperm
    Vimg Fimg Hinj HE.
  assert (∀ n d, (n, d) ∈ node out → type_in out n = d !! "type") as Hti.
  { intros n d Hd. unfold type_in. by rewrite (get_elem _ _ _ (wf_nodup _ Wo) Hd). }
  assert (∀ n d, (n, d) ∈ node out → n ∈ NX.nodes out) as Hkey.
  { intros n d Hd. apply list_elem_of_fmap. by exists (n, d). }
  assert (∀ n d, (n, d) ∈ node out → is_Some (d !! "type")) as Hty.
  { intros n d Hd. rewrite <- (Hti n d Hd).
    destruct (Otyped n (Hkey n d Hd)) as [t Ht].
    rewrite (Otype n t (Hkey n d Hd) Ht). eauto. }
  destruct (get_nodes_run s' _ out Hout Hty) as [Hv Hf].
  assert (∀ a, a ∈ conv_vn true G → type_in out (m a) = Some (VType variable_node)) as Tv.
  { intros a Ha. destruct (Vimg a Ha) as [i Ei]. pose proof (Ohas a (Vsub a Ha)) as Hin.
    rewrite Ei in Hin |- *. by apply Ovt. }
  assert (∀ a, a ∈ conv_fn true G → type_in out (m a) = Some (VType factor_node)) as Tf.
  { intros a Ha. destruct (Fimg a Ha) as [i Ei]. pose proof (Ohas a (Fsub a Ha)) as Hin.
    rewrite Ei in Hin |- *. by apply Oft. }
  assert (∀ n, n ∈ NX.nodes out → ∃ a, a ∈ NX.nodes G ∧ n = m a) as Hpre.
  { intros n Hn. apply Ocases in Hn as [Hn|(? & _)]; [by apply Hnodes|done]. }
  assert (∀ (t : NodeType) (part : list Node),
            NoDup part → (∀ a, a ∈ part → a ∈ NX.nodes G) →
            (∀ a, a ∈ part → type_in out (m a) = Some (VType t)) →
            (∀ a, a ∈ NX.nodes G → a ∉ part →
                  type_in out (m a) ≠ Some (VType t)) →
            (filter (λ p : Node * attrs, has_type t p.2 = true) (node out)).*1
            ≡ₚ m <$> part) as Hperm_part.
  { intros t part Pnd Psub Pty Pnot.
    apply NoDup_Permutation.
    - apply filter_keys_nodup, Wo.
    - apply NoDup_fmap_2_strong; [|done]. intros x y Hx Hy. apply Hinj; by apply Psub.
    - intros n. rewrite elem_select_type, list_elem_of_fmap. split.
      + intros (d & Hd & Ht). destruct (Hpre n (Hkey n d Hd)) as (a & Ha & ->).
        exists a. split; [done|]. destruct (decide (a ∈ part)) as [?|Hna]; [done|].
        exfalso. apply (Pnot a Ha Hna). by rewrite (Hti _ d Hd).
      + intros (a & -> & Ha). destruct (node_data_of out (m a) (Ohas a (Psub a Ha))) as [d Hd].
        exists d. split; [done|]. rewrite <- (Hti _ d Hd). by apply Pty. }
  assert (∀ (part : list Node) x,
            (∀ a, a ∈ part → a ∈ NX.nodes G) →
            x ∈ m <$> part ↔ ∃ a, a ∈ part ∧ origin_in out x = Some (VNode a)) as Horig.
  { intros part x Psub. rewrite list_elem_of_fmap. split.
    - intros (a & -> & Ha). exists a. split; [done|]. by apply Oorigin, Psub.
    - intros (a & Ha & Ho). exists a. split; [|done]. by apply Oimage. }
  pose proof (Hperm_part variable_node (conv_vn true G) Vnd Vsub Tv) as Pv.
  ospecialize* Pv.
  { intros a Ha Hna. destruct (Hparts a Ha) as [?|Hfa]; [done|]. by rewrite (Tf a Hfa). }
  pose proof (Hperm_part factor_node (conv_fn true G) Fnd Fsub Tf) as Pf.
  ospecialize* Pf.
  { intros a Ha Hna. destruct (Hparts a Ha) as [Hva|?]; [|done]. by rewrite (Tv a Hva). }
  eexists _, s', out, _, _.
  split_and!; [exact Hrun|exact Hout|exact Hv| | |exact Hf| | | |exact HE].
  - intros x. rewrite Pv. by apply Horig.
  - by rewrite Pv, length_fmap.
  - intros x. rewrite Pf. by apply Horig.
  - by rewrite Pf, length_fmap.
  - rewrite <- !length_nodes.
    transitivity (length (NX.nodes H)).
    + apply Permutation_length, NoDup_Permutation; [apply Wo|apply WH|].
      intros n. rewrite Ocases. split; [|by left]. by intros [?|(? & _)].
    + by rewrite Hperm, length_fmap.
Qed.

(** ** The factor node of an edge *)

Lemma elem_pair_list x y z : z ∈ pair_list x y ↔ z = x ∨ z = y.
Proof.
  unfold pair_list. destruct (decide (x = y)) as [->|].
  - rewrite list_elem_of_singleton. tauto.
  - rewrite elem_of_cons, list_elem_of_singleton. tauto.
Qed.

Lemma pair_list_same x y x' y' :
  (∀ z, z ∈ pair_list x y ↔ z ∈ pair_list x' y') → same_edge (x, y) (x', y').
Proof.
  intros Hz.
  assert (x = x' ∨ x = y') as Hx by (apply elem_pair_list, Hz, elem_pair_list; auto).
  assert (y = x' ∨ y = y') as Hy by (apply elem_pair_list, Hz, elem_pair_list; auto).
  assert (x' = x ∨ x' = y) as Hx' by (apply elem_pair_list, Hz, elem_pair_list; auto).
  assert (y' = x ∨ y' = y) as Hy' by (apply elem_pair_list, Hz, elem_pair_list; auto).
  unfold same_edge. simpl.
  destruct Hx as [Hx|Hx], Hy as [Hy|Hy], Hx' as [Hx'|Hx'], Hy' as [Hy'|Hy'];
    subst; auto; try (left; congruence); try (right; congruence).
Qed.

Lemma distinct_edges_lookup es : ∀ k k' e e',
  distinct_edges es → es !! k = Some e → es !! k' = Some e' → same_edge e e' → k = k'.
Proof.
  induction es as [|e0 es IH]; intros k k' e e' Hd Hk Hk' Hs; [done|].
  destruct Hd as [Hh Hd]. destruct k as [|k], k' as [|k']; simpl in Hk, Hk'.
  - done.
  - injection Hk as <-. exfalso. apply (Hh e'); [by eapply list_elem_of_lookup_2|done].
  - injection Hk' as <-. exfalso.
    apply (Hh e); [by eapply list_elem_of_lookup_2|by apply same_edge_sym].
  - f_equal. by eapply IH.
Qed.

Section factor_step.
Variables (G : Graph) (e : Node * Node) (f : Node) (d : attrs).
Hypothesis W : wf G.
Hypothesis He1 : e.1 ∈ NX.nodes G.
Hypothesis He2 : e.2 ∈ NX.nodes G.
Hypothesis Hf : f ∉ NX.nodes G.

Local Abbreviation G1 := (NX.add_node G f d).
Local Abbreviation G' := (NX.add_edge G1 e.1 f {["object" := VEdge (mkEdge e.1 f None)]}).
Local Abbreviation G2 :=
  (NX.add_edges_from G1 (edge_obj <$> [(e.1, f); (f, e.2)])).

Lemma factor_step_unfold :
  G2 = NX.add_edge G' f e.2 {["object" := VEdge (mkEdge f e.2 None)]}.
Proof. reflexivity. Qed.

Lemma factor_step_wf : wf G2.
Proof. by apply wf_add_edges_from, wf_add_node. Qed.

Lemma factor_step_nodes : NX.nodes G2 = NX.nodes G ++ [f].
Proof.
  rewrite factor_step_unfold, !add_edge_nodes, add_node_nodes.
  rewrite (add_key_absent (NX.nodes G) f) by done.
  rewrite (add_key_present (NX.nodes G ++ [f]) e.1) by (apply elem_of_app; by left).
  rewrite !(add_key_present (NX.nodes G ++ [f]) f) by (apply elem_of_app; right; left).
  apply add_key_present. apply elem_of_app. by left.
Qed.

Lemma factor_step_ne : f ≠ e.1 ∧ f ≠ e.2.
Proof. split; intros E; apply Hf; by rewrite E. Qed.

Lemma factor_step_nbr_new : nbr_keys G2 f = pair_list e.1 e.2.
Proof.
  destruct factor_step_ne as [N1 N2].
  assert (wf G1) as W1 by by apply wf_add_node.
  assert (wf G') as W' by by apply wf_add_edge.
  rewrite factor_step_unfold, add_edge_nbr_keys by done. cbv zeta.
  rewrite (decide_True (P := f = f)) by done.
  rewrite (decide_False (P := f = e.2)) by done.
  rewrite add_edge_nbr_keys by done. cbv zeta.
  rewrite (decide_False (P := f = e.1)) by done.
  rewrite (decide_True (P := f = f)) by done.
  rewrite add_node_nbr_keys by apply W.
  assert (nbr_keys G f = []) as ->.
  { unfold nbr_keys. unfold NX.nodes in Hf. rewrite <- (wf_keys _ W) in Hf.
    apply get_None in Hf. by rewrite Hf. }
  unfold add_key at 2. rewrite decide_False by apply not_elem_of_nil. simpl.
  unfold add_key, pair_list.
  destruct (decide (e.1 = e.2)) as [E|N].
  - rewrite decide_True; [done|]. rewrite E. left.
  - rewrite decide_False; [done|]. intros ?%list_elem_of_singleton. done.
Qed.

Lemma factor_step_nbr_other x :
  x ≠ f → x ≠ e.1 → x ≠ e.2 → nbr_keys G2 x = nbr_keys G x.
Proof.
  intros Nf N1 N2.
  assert (wf G1) as W1 by by apply wf_add_node.
  assert (wf G') as W' by by apply wf_add_edge.
  rewrite factor_step_unfold, add_edge_nbr_keys by done. cbv zeta.
  rewrite (decide_False (P := x = f)) by done.
  rewrite (decide_False (P := x = e.2)) by done.
  rewrite add_edge_nbr_keys by done. cbv zeta.
  rewrite (decide_False (P := x = e.1)) by done.
  rewrite (decide_False (P := x = f)) by done.
  apply add_node_nbr_keys, W.
Qed.

Lemma factor_step_sum_degree :
  NX.sum_degree G2 = NX.sum_degree G + (if decide (e.1 = e.2) then 2 else 4).
Proof.
  destruct factor_step_ne as [N1 N2].
  assert (wf G1) as W1 by by apply wf_add_node.
  assert (wf G') as W' by by apply wf_add_edge.
  rewrite factor_step_unfold, !sum_degree_add_edge, sum_degree_add_node by done.
  assert (NX.has_edge G1 e.1 f = false) as ->.
  { apply has_edge_false. rewrite add_node_nbr_keys by apply W.
    intros Hin. apply Hf. by apply (wf_closed _ W e.1). }
  destruct (decide (e.1 = e.2)) as [E|N].
  - assert (NX.has_edge G' f e.2 = true) as ->; [|lia].
    apply has_edge_spec. rewrite elem_add_edge_nbr by done. right. right. done.
  - assert (NX.has_edge G' f e.2 = false) as ->; [|lia].
    apply has_edge_false. rewrite elem_add_edge_nbr by done.
    rewrite add_node_nbr_keys by apply W.
    intros [Hin|[[? _]|[_ ?]]]; [|done|congruence].
    apply Hf. apply (wf_sym _ W) in Hin. by apply (wf_closed _ W e.2).
Qed.

End factor_step.

Section factor_nbrs.
Variable fnode : nat → value → Node.
Hypothesis fnode_inj : ∀ i j, fnode i VNone = fnode j VNone → i = j.

Lemma put_factors_frame es : ∀ G x,
  wf G →
  (∀ e, e ∈ es → e.1 ∈ NX.nodes G ∧ e.2 ∈ NX.nodes G) →
  (∀ j, j < length es → fnode j VNone ∉ NX.nodes G) →
  (∀ e, e ∈ es → x ≠ e.1 ∧ x ≠ e.2) →
  (∀ j, j < length es → x ≠ fnode j VNone) →
  nbr_keys (put_factors fnode G es) x = nbr_keys G x.
Proof.
  induction es as [|e es IH]; intros G x W Hends Hfresh Hx Hj; [done|].
  cbn [put_factors].
  set (f := fnode (length es) VNone).
  assert (f ∉ NX.nodes G) as Hf by (apply Hfresh; simpl; lia).
  destruct (Hends e) as [He1 He2]; [left|].
  destruct (Hx e) as [Hx1 Hx2]; [left|].
  pose proof (factor_step_nodes G e f (type_attrs f) He1 He2 Hf) as N2.
  rewrite IH.
  - apply factor_step_nbr_other; [done..| |done|done]. apply Hj. simpl. lia.
  - by apply factor_step_wf.
  - intros e' He'. rewrite N2, !elem_of_app. destruct (Hends e') as [??]; [by right|].
    split; by left.
  - intros j Hlt. rewrite N2, elem_of_app, list_elem_of_singleton.
    intros [Hin|Heq].
    + apply (Hfresh j); [simpl; lia|done].
    + apply fnode_inj in Heq. lia.
  - intros e' He'. apply Hx. by right.
  - intros j Hlt. apply Hj. simpl. lia.
Qed.

Lemma put_factors_factor_nbrs es : ∀ G k e,
  wf G →
  (∀ e, e ∈ es → e.1 ∈ NX.nodes G ∧ e.2 ∈ NX.nodes G) →
  (∀ j, j < length es → fnode j VNone ∉ NX.nodes G) →
  es !! k = Some e →
  nbr_keys (put_factors fnode G es) (fnode (length es - 1 - k) VNone)
  = pair_list e.1 e.2.
Proof.
  induction es as [|e0 es IH]; intros G k e W Hends Hfresh Hk; [done|].
  cbn [put_factors].
  set (f := fnode (length es) VNone).
  assert (f ∉ NX.nodes G) as Hf by (apply Hfresh; simpl; lia).
  destruct (Hends e0) as [He1 He2]; [left|].
  pose proof (factor_step_nodes G e0 f (type_attrs f) He1 He2 Hf) as N2.
  pose proof (factor_step_wf G e0 f (type_attrs f) W) as W2.
  assert (∀ e', e' ∈ es →
            e'.1 ∈ NX.nodes (NX.add_edges_from (NX.add_node G f (type_attrs f))
                               (edge_obj <$> [(e0.1, f); (f, e0.2)]))
            ∧ e'.2 ∈ NX.nodes (NX.add_edges_from (NX.add_node G f (type_attrs f))
                                 (edge_obj <$> [(e0.1, f); (f, e0.2)]))) as Hends2.
  { intros e' He'. rewrite N2, !elem_of_app. destruct (Hends e') as [??]; [by right|].
    split; by left. }
  assert (∀ j, j < length es →
            fnode j VNone ∉ NX.nodes (NX.add_edges_from (NX.add_node G f (type_attrs f))
                                        (edge_obj <$> [(e0.1, f); (f, e0.2)]))) as Hfresh2.
  { intros j Hlt. rewrite N2, elem_of_app, list_elem_of_singleton.
    intros [Hin|Heq].
    - apply (Hfresh j); [simpl; lia|done].
    - apply fnode_inj in Heq. lia. }
  destruct k as [|k]; simpl in Hk.
  - injection Hk as <-.
    replace (length (e0 :: es) - 1 - 0) with (length es) by (simpl; lia). fold f.
    rewrite put_factors_frame; [by apply factor_step_nbr_new|done..| |].
    + intros e' He'. destruct (Hends e') as [??]; [by right|].
      split; intros E; apply Hf; by rewrite E.
    + intros j Hlt E. apply fnode_inj in E. lia.
  - replace (length (e0 :: es) - 1 - S k) with (length es - 1 - k) by (simpl; lia).
    by apply IH.
Qed.

End factor_nbrs.

(** X11. Without [bipartite], each factor node of the result stands for
    one edge of the input: [fnode(j, None)], for j below the number of
    edges, is adjacent to exactly the variable nodes whose origins are the
    two ends of an input edge (to a single variable node when that edge is
    a self-loop), and no two factor nodes have the same neighbours. *)
Theorem factor_node_ends (vnode : nat → Node) (fnode : nat → value → Node)
    (s : Store) (g : nat) (G : Graph) :
  graphs s !! g = Some G →
  wf G →
  factories_ok vnode fnode G →
  ∃ fg s' out,
    convert_to_fg vnode fnode g false s = Ok (fg, s')
    ∧ graphs s' !! fg = Some out
    ∧ (∀ j, j < NX.number_of_edges G →
         ∃ a b x y,
           NX.has_edge G a b = true
           ∧ origin_in out x = Some (VNode a)
           ∧ origin_in out y = Some (VNode b)
           ∧ nbr_keys out (fnode j VNone) = pair_list x y)
    ∧ (∀ j j', j < NX.number_of_edges G → j' < NX.number_of_edges G →
         (∀ z, z ∈ nbr_keys out (fnode j VNone) ↔ z ∈ nbr_keys out (fnode j' VNone)) →
         j = j').
Proof.
  intros Hg W F.
  assert (false = true → labelled G ∧ kept_typed G) as Hb by done.
  destruct (convert_to_fg_result vnode fnode s g G false Hg W F Hb) as (s' & Hrun & Hout).
  exists (length (graphs s)), s', (conv_out vnode fnode false G).
  pose proof (conv_H_wf vnode fnode false G W F Hb) as WH.
  assert (length (NX.edges_iter (conv_H vnode fnode false G)) = NX.number_of_edges G) as HE.
  { rewrite <- (number_of_edges_iter _ WH). apply relabel_number_of_edges; [done|].
    apply (conv_m_inj vnode fnode false G W F Hb). }
  assert (∀ k e, NX.edges_iter (conv_H vnode fnode false G) !! k = Some e →
            nbr_keys (conv_out vnode fnode false G)
              (fnode (NX.number_of_edges G - 1 - k) VNone) = pair_list e.1 e.2) as Hnbr.
  { intros k e Hk. rewrite (out_nbr vnode fnode false G W F Hb), <- HE.
    unfold conv_out0. cbv zeta iota.
    apply (put_factors_factor_nbrs fnode (fnode_inj _ _ _ F)); [| | |done].
    - apply (fg1_wf vnode fnode false G W F Hb).
    - intros e' He'. rewrite (fg1_nodes vnode fnode false G W F Hb).
      by apply (H_edge_ends vnode fnode false G W F Hb).
    - intros j _. rewrite (fg1_nodes vnode fnode false G W F Hb).
      by apply (fnode_not_in_H vnode fnode false G W F Hb). }
  assert (∀ j, j < NX.number_of_edges G →
            ∃ e, NX.edges_iter (conv_H vnode fnode false G)
                   !! (NX.number_of_edges G - 1 - j) = Some e
                 ∧ nbr_keys (conv_out vnode fnode false G) (fnode j VNone)
                   = pair_list e.1 e.2) as Hj.
  { intros j Hlt.
    destruct (lookup_lt_is_Some_2 (NX.edges_iter (conv_H vnode fnode false G))
                (NX.number_of_edges G - 1 - j)) as [e He]; [lia|].
    exists e. split; [done|]. rewrite <- (Hnbr _ e He). do 2 f_equal. lia. }
  split_and!; [done|done| |].
  - intros j Hlt. destruct (Hj j Hlt) as ([u v] & He & Hn).
    apply list_elem_of_lookup_2, edges_iter_elem in He; [|done].
    apply relabel_edge in He as (a & c & Hac & -> & ->); [|done].
    assert (a ∈ NX.nodes G) as Ha by (apply (wf_closed _ W c); by apply W).
    assert (c ∈ NX.nodes G) as Hc by by apply (wf_closed _ W a).
    exists a, c, (relabel_fun (conv_mapping vnode fnode false G) a),
           (relabel_fun (conv_mapping vnode fnode false G) c).
    split_and!; [by apply has_edge_spec|by apply out_origin|by apply out_origin|done].
  - intros j j' Hlt Hlt' Hsame.
    destruct (Hj j Hlt) as ([u v] & He & Hn), (Hj j' Hlt') as ([u' v'] & He' & Hn').
    rewrite Hn, Hn' in Hsame. apply pair_list_same in Hsame.
    pose proof (distinct_edges_lookup _ _ _ _ _ (edges_iter_distinct _ WH) He He' Hsame).
    lia.
Qed.

(** ** The owner of the nodes of the result *)

Lemma stamp_keep (fg : nat) (l : list Node) : ∀ (ng : list (Node * nat)) x,
  Dict.get ng x = Some fg →
  Dict.get (Dict.update ng ((λ n, (n, fg)) <$> l)) x = Some fg.
Proof.
  induction l as [|n l IH]; intros ng x Hx; [done|].
  csimpl. unfold Dict.update. simpl. apply IH. rewrite get_set.
  by destruct (decide (x = n)).
Qed.

Lemma stamp_new (fg : nat) (l : list Node) : ∀ (ng : list (Node * nat)) x,
  x ∈ l → Dict.get (Dict.update ng ((λ n, (n, fg)) <$> l)) x = Some fg.
Proof.
  induction l as [|n l IH]; intros ng x Hx; [by apply elem_of_nil in Hx|].
  csimpl. unfold Dict.update. simpl.
  apply elem_of_cons in Hx as [->|Hx].
  - apply stamp_keep. rewrite get_set. by rewrite decide_True.
  - by apply IH.
Qed.

Lemma stamp_other (fg : nat) (l : list Node) : ∀ (ng : list (Node * nat)) x,
  x ∉ l → Dict.get (Dict.update ng ((λ n, (n, fg)) <$> l)) x = Dict.get ng x.
Proof.
  induction l as [|n l IH]; intros ng x Hx; [done|].
  csimpl. unfold Dict.update. simpl. apply not_elem_of_cons in Hx as [Ne Hx].
  etransitivity; [by apply IH|]. rewrite get_set. by rewrite decide_False.
Qed.

Lemma factor_loop_run_owner (fnode : nat → value → Node) fg es :
  (∀ i, node_type (fnode i VNone) = Some factor_node) →
  ∀ s G,
  graphs s !! fg = Some G →
  ∃ ng, factor_loop fnode fg es (seq 0 (length es)) s
        = Ok (tt, mkStore (<[fg := put_factors fnode G es]> (graphs s)) ng)
        ∧ (∀ x, Dict.get (node_graph s) x = Some fg → Dict.get ng x = Some fg)
        ∧ (∀ j, j < length es → Dict.get ng (fnode j VNone) = Some fg)
        ∧ (∀ x, (∀ j, j < length es → x ≠ fnode j VNone) →
                Dict.get ng x = Dict.get (node_graph s) x).
Proof.
  intros fnode_typed.
  induction es as [|e es IH]; intros s G HG.
  - exists (node_graph s). simpl. unfold ret. rewrite list_insert_id by done.
    split_and!; [by destruct s|done|intros j ?; lia|done].
  - cbn [factor_loop length].
    assert (lift (list_pop (seq 0 (S (length es)))) s = Ok ((length es, seq 0 (length es)), s)) as E1.
    { unfold lift. by rewrite list_pop_seq. }
    rewrite (bind_run _ _ _ _ _ E1). cbn [fst snd].
    rewrite (bind_run _ _ _ _ _ (set_node_run _ _ _ _ _ _ HG (fnode_typed (length es)))).
    set (G1 := NX.add_node G _ _).
    set (s1 := mkStore _ _).
    assert (graphs s1 !! fg = Some G1) as HG1.
    { simpl. apply list_lookup_insert_eq. by eapply lookup_lt_Some. }
    rewrite (bind_run _ _ _ _ _ (set_edges_run _ _ _ _ HG1)).
    set (G2 := NX.add_edges_from G1 _).
    set (s2 := mkStore _ _).
    assert (graphs s2 !! fg = Some G2) as HG2.
    { simpl. apply list_lookup_insert_eq. rewrite length_insert. by eapply lookup_lt_Some. }
    destruct (IH s2 G2 HG2) as (ng & -> & Hkeep & Hnew & Hframe). exists ng.
    split_and!; [| | |intros x Hx; rewrite Hframe by (intros j Hj; apply Hx; lia);
                       simpl; rewrite get_set; rewrite decide_False; [done|apply Hx; lia]].
    + simpl. rewrite !list_insert_insert_eq. do 4 f_equal.
      unfold G2, G1, type_attrs. by rewrite fnode_typed.
    + intros x Hx. apply Hkeep. simpl. rewrite get_set. by destruct (decide (x = _)).
    + intros j Hj. destruct (decide (j = length es)) as [->|Ne].
      * apply Hkeep. simpl. rewrite get_set. by rewrite decide_True.
      * apply Hnew. lia.
Qed.

Lemma convert_to_fg_owner vnode fnode b G gs ng g :
  wf G → factories_ok vnode fnode G → (b = true → labelled G ∧ kept_typed G) →
  gs !! g = Some G →
  ∃ ng', convert_to_fg vnode fnode g b (mkStore gs ng)
         = Ok (length gs,
               mkStore (gs ++ [conv_out vnode fnode b G; conv_H vnode fnode b G]) ng')
         ∧ (∀ x, x ∈ NX.nodes (conv_out vnode fnode b G) →
                 Dict.get ng' x = Some (length gs))
         ∧ (∀ x, x ∉ NX.nodes (conv_out vnode fnode b G) →
                 Dict.get ng' x = Dict.get ng x).
Proof.
  intros W F Hb Hg.
  pose proof (conv_origin_run vnode fnode b G W F Hb) as Horigin.
  pose proof (conv_H_typed vnode fnode b G W F Hb) as Htyped.
  pose proof (conv_H_wf vnode fnode b G W F Hb) as WH.
  pose proof (out_nodes_cases vnode fnode b G W F Hb) as Ocases.
  pose proof (select_part_run b G Hb) as Hsel.
  assert ((gs ++ [FG0]) !! g = Some G) as Hg1 by by apply lookup_app_l_Some.
  cut (∃ ng', convert_to_fg vnode fnode g b (mkStore gs ng)
              = Ok (length gs,
                    mkStore (gs ++ [conv_out vnode fnode b G; conv_H vnode fnode b G]) ng')
              ∧ (∀ x, x ∈ NX.nodes (conv_H vnode fnode b G) →
                      Dict.get ng' x = Some (length gs))
              ∧ (b = false →
                 ∀ j, j < length (NX.edges_iter (conv_H vnode fnode b G)) →
                      Dict.get ng' (fnode j VNone) = Some (length gs))
              ∧ (∀ x, x ∉ NX.nodes (conv_H vnode fnode b G) →
                      (b = false →
                       ∀ j, j < length (NX.edges_iter (conv_H vnode fnode b G)) →
                            x ≠ fnode j VNone) →
                      Dict.get ng' x = Dict.get ng x)).
  { intros (ng' & Hrun & HH & HF & HO). exists ng'. split_and!; [done| |].
    - intros x [Hx|(Eb & j & Hj & ->)]%Ocases; [by apply HH|by apply HF].
    - intros x Hx. apply HO.
      + intros Hin. apply Hx, Ocases. by left.
      + intros Eb j Hj ->. apply Hx, Ocases. right. eauto. }
  clear Ocases.
  unfold convert_to_fg.
  step ltac:(by apply read_graph_run).
  step ltac:(reflexivity). simpl graphs. simpl node_graph.
  unfold conv_out, conv_origin, conv_out0, conv_H, conv_mapping, mapping_of,
    conv_vn, conv_fn in *.
  destruct b.
  - step ltac:(by apply read_graph_run).
    step ltac:(unfold lift; by rewrite Hsel).
    step ltac:(unfold lift; by rewrite Hsel).
    step ltac:(unfold lift; rewrite update_pop_run
                 by (by rewrite length_fmap, length_seq); reflexivity).
    step ltac:(unfold lift; rewrite update_pop_run
                 by (by rewrite length_fmap, length_seq); reflexivity).
    cbn [fst snd].
    unfold relabel_nodes.
    step ltac:(by apply read_graph_run).
    step ltac:(reflexivity).
    simpl graphs; simpl node_graph.
    step ltac:(apply read_graph_run; simpl; apply (lookup_at_end (gs ++ [FG0]) _ [])).
    step ltac:(apply set_nodes_run with (G := FG0);
               [simpl; rewrite <- app_assoc; apply lookup_at_end|exact Htyped]).
    simpl graphs; simpl node_graph. rewrite <- app_assoc. simpl app. rewrite insert_at_end.
    step ltac:(eapply set_edges_run; simpl; apply lookup_at_end).
    simpl graphs; simpl node_graph. rewrite insert_at_end.
    step ltac:(reflexivity).
    unfold set_node_attributes.
    step ltac:(apply read_graph_run; simpl; apply lookup_at_end).
    step ltac:(unfold lift; rewrite Horigin; reflexivity).
    step ltac:(eapply write_graph_run; simpl; apply lookup_at_end).
    eexists. unfold ret. simpl. rewrite insert_at_end.
    split_and!; [reflexivity| |done|].
    + intros x Hx. by apply stamp_new.
    + intros x Hx _. by apply stamp_other.
  - simpl in WH, Horigin, Htyped.
    step ltac:(by apply read_graph_run).
    step ltac:(unfold lift; rewrite update_pop_run
                 by (unfold NX.number_of_nodes, NX.nodes, Dict.keys;
                     by rewrite !length_fmap, length_seq);
               reflexivity).
    cbn [fst snd]. unfold NX.number_of_nodes.
    replace (length (node G)) with (length (NX.nodes G))
      by (unfold NX.nodes, Dict.keys; by rewrite length_fmap).
    simpl.
    set (mp := Dict.update (Dict.of_pairs (zip (NX.nodes G) (NX.nodes G)))
                 (zip (NX.nodes G) (reverse (vnode <$> seq 0 (length (NX.nodes G)))))) in *.
    set (Hr := NX.relabel_nodes G mp) in *.
    unfold relabel_nodes.
    step ltac:(by apply read_graph_run).
    step ltac:(reflexivity).
    simpl graphs; simpl node_graph. fold Hr.
    step ltac:(apply read_graph_run; simpl; apply (lookup_at_end (gs ++ [FG0]) _ [])).
    step ltac:(apply set_nodes_run with (G := FG0);
               [simpl; rewrite <- app_assoc; apply lookup_at_end|exact Htyped]).
    simpl graphs; simpl node_graph. rewrite <- app_assoc. simpl app. rewrite insert_at_end.
    rewrite (number_of_edges_iter Hr WH).
    match goal with |- context [mkStore ?gr ?n1] =>
      destruct (factor_loop_run_owner fnode (length gs) (NX.edges_iter Hr)
                  (fnode_typed _ _ _ F)
                  (mkStore gr n1) (add_nodes_with type_attrs FG0 (NX.nodes Hr)))
        as (ng2 & Hs2 & Hkeep & Hnew & Hframe);
        [simpl; apply lookup_at_end|]
    end.
    step ltac:(exact Hs2).
    simpl graphs; simpl node_graph. rewrite insert_at_end.
    step ltac:(reflexivity).
    unfold set_node_attributes.
    step ltac:(apply read_graph_run; simpl; apply lookup_at_end).
    step ltac:(unfold lift; rewrite Horigin; reflexivity).
    step ltac:(eapply write_graph_run; simpl; apply lookup_at_end).
    eexists. unfold ret. simpl. rewrite insert_at_end.
    split_and!; [reflexivity| | |].
    + intros x Hx. apply Hkeep. simpl. by apply stamp_new.
    + intros _ j Hj. by apply Hnew.
    + intros x Hx Hj. rewrite Hframe by by apply Hj. simpl. by apply stamp_other.
Qed.

(** X12. Every node of the factor graph that [convert_to_fg] returns has
    that factor graph as its [graph] attribute: the instances made by the
    factories, and with [bipartite] also the nodes of the input that are
    kept, whose [graph] attribute is thereby overwritten.  No other object
    has its [graph] attribute touched. *)
Theorem result_owns_nodes (vnode : nat → Node) (fnode : nat → value → Node)
    (s : Store) (g : nat) (G : Graph) (b : bool) :
  graphs s !! g = Some G →
  wf G →
  factories_ok vnode fnode G →
  (b = true → labelled G ∧ kept_typed G) →
  ∃ fg s' out,
    convert_to_fg vnode fnode g b s = Ok (fg, s')
    ∧ graphs s' !! fg = Some out
    ∧ (∀ x, x ∈ NX.nodes out → Dict.get (node_graph s') x = Some fg)
    ∧ (∀ x, x ∉ NX.nodes out →
            Dict.get (node_graph s') x = Dict.get (node_graph s) x).
Proof.
  intros Hg W F Hb. destruct s as [gs ng]. simpl in Hg.
  destruct (convert_to_fg_owner vnode fnode b G gs ng g W F Hb Hg)
    as (ng' & Hrun & Hown & Hother).
  eexists _, _, _. split_and!; [exact Hrun| |exact Hown|exact Hother].
  simpl. apply lookup_at_end.
Qed.

(** ** The Edge objects of the result *)

Lemma payloads_add_node G n d :
  Dict.keys (adj G) = Dict.keys (node G) → payloads_ok G → payloads_ok (NX.add_node G n d).
Proof.
  intros K P x y dd. rewrite !add_node_edge_data by done. apply P.
Qed.

Lemma payloads_add_edge G u v :
  wf G → payloads_ok G → payloads_ok (NX.add_edge G u v (edge_obj (u, v)).2).
Proof.
  intros W P x y dd. rewrite !add_edge_data by done. cbn [edge_obj fst snd].
  assert ({["object" := VEdge (mkEdge u v None)]} ∪ default ∅ (edge_data G u v)
          = ({["object" := VEdge (mkEdge u v None)]} : attrs)) as E.
  { destruct (edge_data G u v) as [d0|] eqn:E0; simpl.
    - destruct (P u v d0 E0) as [[-> | ->] _];
        by rewrite <- insert_union_singleton_l, insert_singleton.
    - apply (right_id _ _). }
  rewrite E.
  destruct (decide ((x = u ∧ y = v) ∨ (x = v ∧ y = u))) as [Hc|Hc].
  - intros [= <-]. split.
    + destruct Hc as [[-> ->]|[-> ->]]; [by left|by right].
    + rewrite decide_True; [done|]. tauto.
  - intros Hd. destruct (P x y dd Hd) as [? ?]. split; [done|].
    rewrite decide_False; [done|]. tauto.
Qed.

Lemma payloads_add_edges_from es : ∀ G,
  wf G → payloads_ok G → payloads_ok (NX.add_edges_from G (edge_obj <$> es)).
Proof.
  induction es as [|[u v] es IH]; intros G W P; [done|].
  csimpl. unfold NX.add_edges_from. simpl. apply IH.
  - by apply wf_add_edge.
  - by apply (payloads_add_edge G u v).
Qed.

Lemma payloads_add_nodes_with f ns : ∀ G,
  wf G → payloads_ok G → payloads_ok (add_nodes_with f G ns).
Proof.
  induction ns as [|n ns IH]; intros G W P; [done|].
  unfold add_nodes_with. simpl. apply IH.
  - by apply wf_add_node.
  - apply payloads_add_node; [apply W|done].
Qed.

Lemma payloads_put_factors fnode es : ∀ G,
  wf G → payloads_ok G → payloads_ok (put_factors fnode G es).
Proof.
  induction es as [|e es IH]; intros G W P; [done|].
  cbn [put_factors]. apply IH.
  - by apply wf_add_edges_from, wf_add_node.
  - apply payloads_add_edges_from; [by apply wf_add_node|].
    apply payloads_add_node; [apply W|done].
Qed.

Lemma payloads_conv_out vnode fnode b G : payloads_ok (conv_out vnode fnode b G).
Proof.
  assert (payloads_ok FG0) as P0 by (intros x y d Hd; done).
  assert (wf FG0) as W0 by apply wf_empty.
  change (payloads_ok (conv_out vnode fnode b G))
    with (payloads_ok (conv_out0 vnode fnode b G)).
  unfold conv_out0. cbv zeta. destruct b.
  - apply payloads_add_edges_from; [by apply wf_add_nodes_with|].
    by apply payloads_add_nodes_with.
  - apply payloads_put_factors; [by apply wf_add_nodes_with|].
    by apply payloads_add_nodes_with.
Qed.

(** X13. Every edge of the factor graph that [convert_to_fg] returns
    carries exactly one attribute, ['object'], an [Edge] between its two end
    points made without an initial message, and the same dictionary in
    both directions; no attribute of an input edge is copied. *)
Theorem result_edge_objects (vnode : nat → Node) (fnode : nat → value → Node)
    (s : Store) (g : nat) (G : Graph) (b : bool) :
  graphs s !! g = Some G →
  wf G →
  factories_ok vnode fnode G →
  (b = true → labelled G ∧ kept_typed G) →
  ∃ fg s' out,
    convert_to_fg vnode fnode g b s = Ok (fg, s')
    ∧ graphs s' !! fg = Some out
    ∧ ∀ x y, NX.has_edge out x y = true →
        ∃ d, edge_data out x y = Some d
             ∧ edge_data out y x = Some d
             ∧ edge_payload d x y.
Proof.
  intros Hg W F Hb.
  destruct (convert_to_fg_result vnode fnode s g G b Hg W F Hb) as (s' & Hrun & Hout).
  exists (length (graphs s)), s', (conv_out vnode fnode b G).
  split_and!; [done|done|].
  intros x y [d Hd]%has_edge_data. exists d.
  destruct (payloads_conv_out vnode fnode b G x y d Hd) as [? ?]. done.
Qed.

(** ** A kept node without type *)

Lemma first_failing {A} (P : A → Prop) `{∀ x, Decision (P x)} (l : list A) :
  (∃ x, x ∈ l ∧ ¬ P x) →
  ∃ pre n post, l = pre ++ n :: post ∧ (∀ x, x ∈ pre → P x) ∧ ¬ P n.
Proof.
  induction l as [|a l IH]; intros (x & Hx & Hn).
  - by apply elem_of_nil in Hx.
  - destruct (decide (P a)) as [Ha|Ha].
    + destruct IH as (pre & n & post & -> & Hpre & Hnot).
      { apply elem_of_cons in Hx as [->|Hx]; [done|]. by exists x. }
      exists (a :: pre), n, post. split_and!; [done| |done].
      intros y [->|Hy]%elem_of_cons; [done|by apply Hpre].
    + exists [], a, l. split_and!; [done| |done]. by intros y ?%elem_of_nil.
Qed.

Lemma set_nodes_raise (ns : list Node) :
  (∃ x, x ∈ ns ∧ node_type x = None) →
  ∃ n, n ∈ ns ∧ node_type n = None
       ∧ ∀ self s G, graphs s !! self = Some G →
           set_nodes self ns s = Raise (set_node_error n).
Proof.
  intros (x & Hx & Hn).
  destruct (first_failing (λ y, is_Some (node_type y)) ns) as (pre & n & post & -> & Hpre & Hnot).
  { exists x. split; [done|]. rewrite Hn. by intros [? ?]. }
  apply eq_None_not_Some in Hnot.
  exists n. split_and!; [apply elem_of_app; right; left|done|].
  intros self s G HG. unfold set_nodes. rewrite for_app.
  erewrite bind_run by (apply (set_nodes_run self pre s G); done).
  cbn [for_]. apply bind_raise. by apply set_node_raise.
Qed.

(** X14. With [bipartite], a node whose part label is neither 0 nor 1
    is handed to [set_node] as it is; when such a node has no [type]
    attribute (a builtin, say), [convert_to_fg] raises the AttributeError
    of [set_node] for a kept node without [type], and returns no factor
    graph. *)
Theorem kept_untyped_raises (vnode : nat → Node) (fnode : nat → value → Node)
    (s : Store) (g : nat) (G : Graph) (n : Node) (d : attrs) :
  graphs s !! g = Some G →
  wf G →
  labelled G →
  (∀ i, is_Some (node_type (vnode i))) →
  (∀ i, is_Some (node_type (fnode i VNone))) →
  (n, d) ∈ node G →
  has_part 0 d = false →
  has_part 1 d = false →
  node_type n = None →
  ∃ n' d',
    (n', d') ∈ node G
    ∧ has_part 0 d' = false ∧ has_part 1 d' = false
    ∧ node_type n' = None
    ∧ convert_to_fg vnode fnode g true s = Raise (set_node_error n').
Proof.
  intros Hg W Hl Vt Ft Hd H0 H1 Hn.
  set (ns := NX.nodes G).
  set (vn := part_nodes 0 (node G)).
  set (fn := part_nodes 1 (node G)).
  pose proof (wf_nodup _ W) as ND. fold (NX.nodes G) in ND.
  assert (∀ z a, a ∈ part_nodes z (node G) →
            ∃ da, (a, da) ∈ node G ∧ has_part z da = true) as Hpart.
  { intros z a Ha. by apply part_nodes_elem. }
  assert (NoDup vn) as NDv by by apply part_nodes_nodup.
  assert (NoDup fn) as NDf by by apply part_nodes_nodup.
  assert (∀ a, a ∈ vn → a ∈ fn → False) as Hdisj.
  { intros a (da & Hda & Pa)%Hpart (da' & Hda' & Pa')%Hpart.
    apply (get_elem _ _ _ ND) in Hda, Hda'.
    assert (da = da') as <- by congruence. by apply (has_part_disjoint da). }
  set (mp := mapping_of vnode fnode ns vn fn).
  pose proof (mapping_cases vnode fnode ns vn fn ND NDv NDf Hdisj) as Hcases.
  fold mp in Hcases.
  assert (n ∈ ns) as Hin by (apply list_elem_of_fmap; by exists (n, d)).
  assert (∀ z a da, (a, da) ∈ node G → has_part z da = false →
            a ∉ part_nodes z (node G)) as Hout.
  { intros z a da Hda Pa (da' & Hda' & Pa')%Hpart.
    apply (get_elem _ _ _ ND) in Hda, Hda'. congruence. }
  destruct (set_nodes_raise (NX.nodes (NX.relabel_nodes G mp))) as (n' & Hn' & Tn' & Hraise).
  { exists n. split; [|done]. apply relabel_nodes_elem; [done|]. exists n. split; [done|].
    destruct (Hcases n Hin) as [(i & Hi & Hv & _)|[(j & Hj & Hf & _)|(_ & _ & E)]].
    - exfalso. apply (Hout 0%Z n d Hd H0). by eapply list_elem_of_lookup_2.
    - exfalso. apply (Hout 1%Z n d Hd H1). by eapply list_elem_of_lookup_2.
    - done. }
  apply relabel_nodes_elem in Hn' as (a & Ha & ->); [|done].
  destruct (node_data_of G a Ha) as [da Hda].
  destruct (Hcases a Ha) as [(i & _ & _ & E)|[(j & _ & _ & E)|(Nv & Nf & E)]].
  { rewrite E in Tn'. destruct (Vt i) as [? ?]. congruence. }
  { rewrite E in Tn'. destruct (Ft j) as [? ?]. congruence. }
  rewrite E in Tn', Hraise.
  exists a, da. split_and!; [done| | |done|].
  { destruct (has_part 0 da) eqn:P; [|done]. exfalso. apply Nv.
    apply part_nodes_elem. by exists da. }
  { destruct (has_part 1 da) eqn:P; [|done]. exfalso. apply Nf.
    apply part_nodes_elem. by exists da. }
  assert (∀ z, select (part_is z) (NX.nodes_data G) = Ok (part_nodes z (node G))) as Hsel.
  { intros z. apply (select_ok _ (has_part z)).
    intros [x dx] Hx. apply part_is_ok. by apply (Hl x dx). }
  destruct s as [gs ng]. simpl in Hg.
  assert ((gs ++ [FG0]) !! g = Some G) as Hg1 by by apply lookup_app_l_Some.
  unfold convert_to_fg.
  step ltac:(by apply read_graph_run).
  step ltac:(reflexivity). simpl graphs. simpl node_graph.
  step ltac:(by apply read_graph_run).
  step ltac:(unfold lift; by rewrite Hsel).
  step ltac:(unfold lift; by rewrite Hsel).
  step ltac:(unfold lift; rewrite update_pop_run
               by (by rewrite length_fmap, length_seq); reflexivity).
  step ltac:(unfold lift; rewrite update_pop_run
               by (by rewrite length_fmap, length_seq); reflexivity).
  cbn [fst snd].
  unfold relabel_nodes.
  step ltac:(by apply read_graph_run).
  step ltac:(reflexivity).
  simpl graphs; simpl node_graph.
  step ltac:(apply read_graph_run; simpl; apply (lookup_at_end (gs ++ [FG0]) _ [])).
  rewrite ?bind_assoc. apply bind_raise.
  apply (Hraise _ _ FG0). simpl. rewrite <- app_assoc. apply lookup_at_end.
Qed.

(** ** Self-loops of the input *)

Lemma length_filter_fmap {A B} (P : B → Prop) `{∀ x, Decision (P x)} (f : A → B) (l : list A) :
  length (filter P (f <$> l)) = length (filter (λ x, P (f x)) l).
Proof.
  induction l as [|a l IH]; [done|]. csimpl. rewrite !filter_cons.
  destruct (decide (P (f a))); simpl; by rewrite IH.
Qed.

Lemma length_filter_ext {A} (P Q : A → Prop) `{∀ x, Decision (P x)} `{∀ x, Decision (Q x)}
    (l : list A) :
  (∀ x, x ∈ l → P x ↔ Q x) → length (filter P l) = length (filter Q l).
Proof.
  induction l as [|a l IH]; intros HPQ; [done|]. rewrite !filter_cons.
  assert (length (filter P l) = length (filter Q l)) as E.
  { apply IH. intros x Hx. apply HPQ. by right. }
  destruct (decide (P a)) as [Pa|Pa], (decide (Q a)) as [Qa|Qa]; simpl; try by rewrite E.
  - exfalso. apply Qa, HPQ; [left|done].
  - exfalso. apply Pa, HPQ; [left|done].
Qed.

Lemma length_filter_eq_nodup (l : list Node) n :
  NoDup l → length (filter (λ y, n = y) l) = if decide (n ∈ l) then 1 else 0.
Proof.
  induction l as [|a l IH]; intros ND.
  - rewrite decide_False by apply not_elem_of_nil. done.
  - apply NoDup_cons in ND as [Ha ND]. rewrite filter_cons.
    destruct (decide (n = a)) as [->|Ne].
    + rewrite decide_True by left. simpl. rewrite IH by done.
      by rewrite decide_False.
    + rewrite IH by done. destruct (decide (n ∈ l)) as [Hl|Hl].
      * rewrite decide_True; [done|by right].
      * rewrite decide_False; [done|]. by intros [?|?]%elem_of_cons.
Qed.

Lemma pairs_from_loops nb ks : ∀ seen,
  NoDup ks → (∀ x, x ∈ ks → x ∉ seen) → (∀ x, x ∈ ks → NoDup (nb x)) →
  length (filter (λ e : Node * Node, e.1 = e.2) (pairs_from nb seen ks))
  = length (filter (λ x, x ∈ nb x) ks).
Proof.
  induction ks as [|n r IH]; intros seen ND Hs Hnb; [done|].
  apply NoDup_cons in ND as [Hn ND].
  cbn [pairs_from]. rewrite filter_app, length_app, length_filter_fmap. cbn [fst snd].
  rewrite length_filter_eq_nodup by (apply NoDup_filter, Hnb; left).
  rewrite IH; [|done| |].
  - rewrite (filter_cons (λ x, x ∈ nb x)).
    destruct (decide (n ∈ nb n)) as [Hl|Hl].
    + rewrite decide_True; [done|]. apply list_elem_of_filter. split; [|done].
      apply Hs. left.
    + rewrite decide_False; [done|]. by intros [_ ?]%list_elem_of_filter.
  - intros x Hx [->|?]%elem_of_cons; [done|]. apply (Hs x); [by right|done].
  - intros x Hx. apply Hnb. by right.
Qed.

Lemma pairs_from_loop_elem nb ks : ∀ seen a,
  a ∈ ks → a ∉ seen → a ∈ nb a → (a, a) ∈ pairs_from nb seen ks.
Proof.
  induction ks as [|n r IH]; intros seen a Ha Hs Hl; [by apply elem_of_nil in Ha|].
  cbn [pairs_from]. apply elem_of_app.
  destruct (decide (a = n)) as [->|Ne].
  - left. apply list_elem_of_fmap. exists n. split; [done|].
    by apply list_elem_of_filter.
  - right. apply IH; [|by intros [?|?]%elem_of_cons|done].
    by apply elem_of_cons in Ha as [?|?].
Qed.

Lemma loops_count G :
  wf G →
  length (filter (λ e : Node * Node, e.1 = e.2) (NX.edges_iter G))
  = length (filter (λ x, x ∈ nbr_keys G x) (NX.nodes G)).
Proof.
  intros W. pose proof (wf_adj_nodup G W) as ND.
  rewrite (edges_iter_pairs G ND). unfold NX.nodes. rewrite <- (wf_keys _ W).
  apply pairs_from_loops; [done| |intros; apply W].
  intros x _. apply not_elem_of_nil.
Qed.

Lemma loop_in_edges_iter G a : wf G → a ∈ nbr_keys G a → (a, a) ∈ NX.edges_iter G.
Proof.
  intros W Ha. rewrite (edges_iter_pairs G (wf_adj_nodup G W)).
  apply pairs_from_loop_elem; [|apply not_elem_of_nil|done].
  rewrite (wf_keys _ W). by apply (wf_closed _ W a).
Qed.

Lemma relabel_loop G mapping a :
  wf G →
  (∀ x y, x ∈ NX.nodes G → y ∈ NX.nodes G →
          relabel_fun mapping x = relabel_fun mapping y → x = y) →
  a ∈ NX.nodes G →
  relabel_fun mapping a ∈ nbr_keys (NX.relabel_nodes G mapping) (relabel_fun mapping a)
  ↔ a ∈ nbr_keys G a.
Proof.
  intros W Hinj Ha. split.
  - intros (x & y & Hxy & Ex & Ey)%relabel_edge; [|done].
    assert (x ∈ NX.nodes G) as Hx by (apply (wf_closed _ W y); by apply W).
    assert (y ∈ NX.nodes G) as Hy by by apply (wf_closed _ W x).
    apply Hinj in Ex, Ey; [|done..]. by subst.
  - intros Hl. apply loop_in_edges_iter in Hl; [|done].
    unfold NX.edges_iter in Hl. apply list_elem_of_fmap in Hl as ([[x y] d] & E & Hd).
    simpl in E. injection E as <- <-.
    rewrite relabel_nbr_keys, add_nodes_from_with.
    rewrite add_nodes_with_nbr_keys by apply wf_add_edges_from, wf_empty.
    apply add_edges_from_nbr; [apply wf_empty|]. right.
    exists (relabel_fun mapping a, relabel_fun mapping a, d). split; [|by left].
    apply list_elem_of_fmap. by exists (a, a, d).
Qed.

Lemma put_factors_sum_degree fnode es :
  (∀ i j, fnode i VNone = fnode j VNone → i = j) →
  ∀ G,
  wf G →
  (∀ e, e ∈ es → e.1 ∈ NX.nodes G ∧ e.2 ∈ NX.nodes G) →
  (∀ j, j < length es → fnode j VNone ∉ NX.nodes G) →
  NX.sum_degree (put_factors fnode G es)
  + 2 * length (filter (λ e : Node * Node, e.1 = e.2) es)
  = NX.sum_degree G + 4 * length es.
Proof.
  intros fnode_inj.
  induction es as [|e es IH]; intros G W Hends Hfresh; [simpl; lia|].
  cbn [put_factors].
  set (f := fnode (length es) VNone).
  assert (f ∉ NX.nodes G) as Hf by (apply Hfresh; simpl; lia).
  destruct (Hends e) as [He1 He2]; [left|].
  pose proof (factor_step_nodes G e f (type_attrs f) He1 He2 Hf) as N2.
  pose proof (factor_step_wf G e f (type_attrs f) W) as W2.
  pose proof (factor_step_sum_degree G e f (type_attrs f) W He1 He2 Hf) as S2.
  ospecialize* (IH _ W2).
  { intros e' He'. rewrite N2, !elem_of_app. destruct (Hends e') as [??]; [by right|].
    split; by left. }
  { intros j Hlt. rewrite N2, elem_of_app, list_elem_of_singleton.
    intros [Hin|Heq].
    - apply (Hfresh j); [simpl; lia|done].
    - apply fnode_inj in Heq. lia. }
  rewrite S2 in IH. rewrite filter_cons.
  destruct (decide (e.1 = e.2)); simpl length; lia.
Qed.

(** X15. Without [bipartite], on any well-formed input, self-loops
    allowed: an edge between two different nodes becomes two edges of the
    result, and a self-loop becomes one, because the second edge through
    its factor node is the first one again.  With N nodes and E edges of
    which L are self-loops, the result has N + E nodes and 2E - L
    edges. *)
Theorem edge_expansion_loops (vnode : nat → Node) (fnode : nat → value → Node)
    (s : Store) (g : nat) (G : Graph) :
  graphs s !! g = Some G →
  wf G →
  factories_ok vnode fnode G →
  ∃ fg s' out,
    convert_to_fg vnode fnode g false s = Ok (fg, s')
    ∧ graphs s' !! fg = Some out
    ∧ NX.number_of_nodes out = NX.number_of_nodes G + NX.number_of_edges G
    ∧ NX.number_of_edges out
      + length (filter (λ x, NX.has_edge G x x = true) (NX.nodes G))
      = 2 * NX.number_of_edges G.
Proof.
  intros Hg W F.
  assert (false = true → labelled G ∧ kept_typed G) as Hb by done.
  destruct (convert_to_fg_result vnode fnode s g G false Hg W F Hb) as (s' & Hrun & Hout).
  exists (length (graphs s)), s', (conv_out vnode fnode false G).
  pose proof (conv_H_wf vnode fnode false G W F Hb) as WH.
  pose proof (conv_m_inj vnode fnode false G W F Hb) as Hinj.
  pose proof (conv_H_perm vnode fnode false G W F Hb) as Hperm.
  assert (length (NX.edges_iter (conv_H vnode fnode false G)) = NX.number_of_edges G) as HE.
  { rewrite <- (number_of_edges_iter _ WH). by apply relabel_number_of_edges. }
  split_and!; [done|done| |].
  { unfold NX.number_of_nodes at 1. unfold conv_out. cbn [node].
    unfold with_attribute. rewrite length_fmap.
    destruct (out0_spec_nonbip vnode fnode false G W F Hb eq_refl) as (_ & -> & _).
    rewrite length_app, !length_fmap, length_reverse, length_seq, HE.
    by rewrite Hperm, length_fmap, length_nodes. }
  assert (length (filter (λ e : Node * Node, e.1 = e.2)
                         (NX.edges_iter (conv_H vnode fnode false G)))
          = length (filter (λ x, NX.has_edge G x x = true) (NX.nodes G))) as HL.
  { rewrite (loops_count _ WH).
    rewrite (Permutation_length (filter_Permutation _ _ _ Hperm)).
    rewrite length_filter_fmap. apply length_filter_ext.
    intros a Ha. rewrite has_edge_spec. by apply relabel_loop. }
  assert (NX.sum_degree (conv_out vnode fnode false G)
          + 2 * length (filter (λ x, NX.has_edge G x x = true) (NX.nodes G))
          = 4 * NX.number_of_edges G) as HS.
  { rewrite <- HL, <- HE.
    change (NX.sum_degree (conv_out vnode fnode false G))
      with (NX.sum_degree (conv_out0 vnode fnode false G)).
    unfold conv_out0. cbv zeta iota.
    rewrite (put_factors_sum_degree fnode _ (fnode_inj _ _ _ F)).
    - by rewrite (fg1_sum_degree vnode fnode false G W F Hb).
    - apply (fg1_wf vnode fnode false G W F Hb).
    - intros e' He'. rewrite (fg1_nodes vnode fnode false G W F Hb).
      by apply (H_edge_ends vnode fnode false G W F Hb).
    - intros j _. rewrite (fg1_nodes vnode fnode false G W F Hb).
      by apply (fnode_not_in_H vnode fnode false G W F Hb). }
  rewrite (number_of_edges_half (conv_out vnode fnode false G)
             (2 * NX.number_of_edges G
              - length (filter (λ x, NX.has_edge G x x = true) (NX.nodes G)))); lia.
Qed.

(** ** Every edge of the input is carried over *)

Lemma pairs_from_complete nb ks : ∀ seen x y,
  x ∈ ks → y ∈ ks → x ∉ seen → y ∉ seen → y ∈ nb x → x ∈ nb y →
  (x, y) ∈ pairs_from nb seen ks ∨ (y, x) ∈ pairs_from nb seen ks.
Proof.
  induction ks as [|n r IH]; intros seen x y Hx Hy Sx Sy Hxy Hyx;
    [by apply elem_of_nil in Hx|].
  cbn [pairs_from]. rewrite !elem_of_app.
  destruct (decide (x = n)) as [Ex|Nx].
  - subst x. left. left. apply list_elem_of_fmap. exists y. split; [done|].
    by apply list_elem_of_filter.
  - destruct (decide (y = n)) as [Ey|Ny].
    + subst y. right. left. apply list_elem_of_fmap. exists x. split; [done|].
      by apply list_elem_of_filter.
    + apply elem_of_cons in Hx as [?|Hx]; [done|].
      apply elem_of_cons in Hy as [?|Hy]; [done|].
      destruct (IH (n :: seen) x y) as [?|?]; try done.
      * by intros [?|?]%elem_of_cons.
      * by intros [?|?]%elem_of_cons.
      * left. by right.
      * right. by right.
Qed.

Lemma edges_iter_complete G x y :
  wf G → y ∈ nbr_keys G x → (x, y) ∈ NX.edges_iter G ∨ (y, x) ∈ NX.edges_iter G.
Proof.
  intros W Hxy. rewrite (edges_iter_pairs G (wf_adj_nodup G W)).
  pose proof (wf_sym _ W x y Hxy) as Hyx.
  apply pairs_from_complete; [| |apply not_elem_of_nil|apply not_elem_of_nil|done|done].
  - rewrite (wf_keys _ W). by apply (wf_closed _ W y).
  - rewrite (wf_keys _ W). by apply (wf_closed _ W x).
Qed.

Lemma relabel_edge_complete G mapping a b :
  wf G → b ∈ nbr_keys G a →
  relabel_fun mapping b ∈ nbr_keys (NX.relabel_nodes G mapping) (relabel_fun mapping a).
Proof.
  intros W Hab.
  rewrite relabel_nbr_keys, add_nodes_from_with.
  rewrite add_nodes_with_nbr_keys by apply wf_add_edges_from, wf_empty.
  apply add_edges_from_nbr; [apply wf_empty|]. right.
  destruct (edges_iter_complete G a b W Hab) as [Hin|Hin];
    unfold NX.edges_iter in Hin;
    apply list_elem_of_fmap in Hin as ([[x y] d] & E & Hd);
    simpl in E; injection E as <- <-.
  - exists (relabel_fun mapping a, relabel_fun mapping b, d). split; [|by left].
    apply list_elem_of_fmap. by exists (a, b, d).
  - exists (relabel_fun mapping b, relabel_fun mapping a, d). split; [|by right].
    apply list_elem_of_fmap. by exists (b, a, d).
Qed.

(** X16. With [bipartite] the result has the edges of the input and no
    others: two nodes of the returned factor graph are adjacent exactly
    when their origins are adjacent in the input graph. *)
Theorem bipartite_edges_kept (vnode : nat → Node) (fnode : nat → value → Node)
    (s : Store) (g : nat) (G : Graph) :
  graphs s !! g = Some G →
  wf G →
  factories_ok vnode fnode G →
  labelled G →
  kept_typed G →
  ∃ fg s' out,
    convert_to_fg vnode fnode g true s = Ok (fg, s')
    ∧ graphs s' !! fg = Some out
    ∧ ∀ x y, NX.has_edge out x y = true ↔
        ∃ a b, NX.has_edge G a b = true
               ∧ origin_in out x = Some (VNode a)
               ∧ origin_in out y = Some (VNode b).
Proof.
  intros Hg W F Hl Hk.
  assert (true = true → labelled G ∧ kept_typed G) as Hb by done.
  destruct (convert_to_fg_result vnode fnode s g G true Hg W F Hb) as (s' & Hrun & Hout).
  exists (length (graphs s)), s', (conv_out vnode fnode true G).
  split_and!; [done|done|].
  pose proof (conv_H_wf vnode fnode true G W F Hb) as WH.
  intros x y. rewrite has_edge_spec, (out_nbr vnode fnode true G W F Hb). split.
  - destruct (out0_spec_bip vnode fnode true G W F Hb eq_refl) as (_ & _ & He).
    intros Hxy%He. apply relabel_edge in Hxy as (a & c & Hac & -> & ->); [|done].
    assert (a ∈ NX.nodes G) as Ha by (apply (wf_closed _ W c); by apply W).
    assert (c ∈ NX.nodes G) as Hc by by apply (wf_closed _ W a).
    exists a, c. split_and!; [by apply has_edge_spec|by apply out_origin..].
  - intros (a & c & Hac%has_edge_spec & Hx & Hy).
    apply (origin_is_image vnode fnode true G x a W F Hb) in Hx as [Ha ->].
    apply (origin_is_image vnode fnode true G y c W F Hb) in Hy as [Hc ->].
    pose proof (relabel_edge_complete G (conv_mapping vnode fnode true G) a c W Hac) as HH.
    fold (conv_H vnode fnode true G) in HH.
    unfold conv_out0. cbv zeta iota.
    apply add_edges_from_nbr; [apply (fg1_wf vnode fnode true G W F Hb)|]. right.
    destruct (edges_iter_complete _ _ _ WH HH) as [Hin|Hin].
    + eexists (edge_obj (_, _)). split; [apply list_elem_of_fmap_2, Hin|by left].
    + eexists (edge_obj (_, _)). split; [apply list_elem_of_fmap_2, Hin|by right].
Qed.

(** X17. Without [bipartite] every edge of the input is carried over:
    for two adjacent nodes of the input there is a factor node, with an
    index below the number of edges, that is adjacent in the result to the
    variable nodes that replace them. *)
Theorem every_edge_has_factor (vnode : nat → Node) (fnode : nat → value → Node)
    (s : Store) (g : nat) (G : Graph) :
  graphs s !! g = Some G →
  wf G →
  factories_ok vnode fnode G →
  ∃ fg s' out,
    convert_to_fg vnode fnode g false s = Ok (fg, s')
    ∧ graphs s' !! fg = Some out
    ∧ ∀ a b, NX.has_edge G a b = true →
        ∃ j x y,
          j < NX.number_of_edges G
          ∧ origin_in out x = Some (VNode a)
          ∧ origin_in out y = Some (VNode b)
          ∧ NX.has_edge out (fnode j VNone) x = true
          ∧ NX.has_edge out (fnode j VNone) y = true.
Proof.
  intros Hg W F.
  assert (false = true → labelled G ∧ kept_typed G) as Hb by done.
  destruct (convert_to_fg_result vnode fnode s g G false Hg W F Hb) as (s' & Hrun & Hout).
  exists (length (graphs s)), s', (conv_out vnode fnode false G).
  split_and!; [done|done|].
  pose proof (conv_H_wf vnode fnode false G W F Hb) as WH.
  assert (length (NX.edges_iter (conv_H vnode fnode false G)) = NX.number_of_edges G) as HE.
  { rewrite <- (number_of_edges_iter _ WH). apply relabel_number_of_edges; [done|].
    apply (conv_m_inj vnode fnode false G W F Hb). }
  assert (∀ k e, NX.edges_iter (conv_H vnode fnode false G) !! k = Some e →
            nbr_keys (conv_out vnode fnode false G)
              (fnode (NX.number_of_edges G - 1 - k) VNone) = pair_list e.1 e.2) as Hnbr.
  { intros k e Hk. rewrite (out_nbr vnode fnode false G W F Hb), <- HE.
    unfold conv_out0. cbv zeta iota.
    apply (put_factors_factor_nbrs fnode (fnode_inj _ _ _ F)); [| | |done].
    - apply (fg1_wf vnode fnode false G W F Hb).
    - intros e' He'. rewrite (fg1_nodes vnode fnode false G W F Hb).
      by apply (H_edge_ends vnode fnode false G W F Hb).
    - intros j _. rewrite (fg1_nodes vnode fnode false G W F Hb).
      by apply (fnode_not_in_H vnode fnode false G W F Hb). }
  intros a c Hac%has_edge_spec.
  assert (a ∈ NX.nodes G) as Ha by (apply (wf_closed _ W c); by apply W).
  assert (c ∈ NX.nodes G) as Hc by by apply (wf_closed _ W a).
  pose proof (relabel_edge_complete G (conv_mapping vnode fnode false G) a c W Hac) as HH.
  fold (conv_H vnode fnode false G) in HH.
  assert (∃ k e, NX.edges_iter (conv_H vnode fnode false G) !! k = Some e
                 ∧ relabel_fun (conv_mapping vnode fnode false G) a ∈ pair_list e.1 e.2
                 ∧ relabel_fun (conv_mapping vnode fnode false G) c ∈ pair_list e.1 e.2)
    as (k & e & Hk & Hx & Hy).
  { destruct (edges_iter_complete _ _ _ WH HH) as [Hin|Hin];
      apply list_elem_of_lookup_1 in Hin as [k Hk]; eexists k, _; (split; [exact Hk|]);
      rewrite !elem_pair_list; simpl; auto. }
  exists (NX.number_of_edges G - 1 - k),
         (relabel_fun (conv_mapping vnode fnode false G) a),
         (relabel_fun (conv_mapping vnode fnode false G) c).
  apply lookup_lt_Some in Hk as Hlt.
  split_and!; [lia|by apply out_origin|by apply out_origin|..];
    apply has_edge_spec; by rewrite (Hnbr k e Hk).
Qed.

(** * The further properties at concrete inputs *)

Lemma wf_fg_pair : wf fg_pair.
Proof. wf_by_construction. Qed.

Lemma wf_looped : wf looped.
Proof. wf_by_construction. Qed.

Lemma factories_looped : factories_ok vnode0 fnode0 looped.
Proof. apply factories0_fresh. all_nodes. Qed.

Lemma wf_odd_label : wf odd_label.
Proof. wf_by_construction. Qed.

Lemma labelled_odd_label : labelled odd_label.
Proof. intros n d H. each_node H; vm_compute; eauto. Qed.

Lemma three_nodes_typed n : n ∈ three_nodes → is_Some (node_type n).
Proof.
  intros Hn. unfold three_nodes in Hn.
  repeat (apply elem_of_cons in Hn as [->|Hn]; [by eexists|]).
  by apply elem_of_nil in Hn.
Qed.

(** X1: a builtin between two typed instances. *)
Lemma set_nodes_first_untyped_witness :
  set_nodes 0 ([vnode0 0] ++ Plain 5 :: [fnode0 0 VNone]) (store_of FG0)
  = Raise (set_node_error (Plain 5)).
Proof.
  apply (set_nodes_first_untyped (store_of FG0) 0 FG0 [vnode0 0] [fnode0 0 VNone] (Plain 5)).
  - reflexivity.
  - intros x Hx. apply list_elem_of_singleton in Hx as ->. by eexists.
  - reflexivity.
Defined.

(** X2: three new nodes on a new factor graph. *)
Lemma set_nodes_appends_witness :
  ∃ s' vs fs,
    set_nodes 0 three_nodes (store_of FG0) = Ok (tt, s')
    ∧ get_vnodes 0 (store_of FG0) = Ok (vs, store_of FG0)
    ∧ get_fnodes 0 (store_of FG0) = Ok (fs, store_of FG0)
    ∧ get_vnodes 0 s'
      = Ok (vs ++ filter (λ n, node_type n = Some variable_node) three_nodes, s')
    ∧ get_fnodes 0 s'
      = Ok (fs ++ filter (λ n, node_type n = Some factor_node) three_nodes, s')
    ∧ (∀ n, n ∈ three_nodes → Dict.get (node_graph s') n = Some 0).
Proof.
  apply (set_nodes_appends (store_of FG0) 0 FG0 three_nodes).
  - reflexivity.
  - intros n d Hd. by apply elem_of_nil in Hd.
  - apply (bool_decide_unpack _). vm_compute. exact I.
  - intros n _. apply not_elem_of_nil.
  - apply three_nodes_typed.
Defined.

(** X3: a second variable node inserted into [fg_pair]. *)
Lemma set_node_frame_witness :
  ∃ s' G',
    set_node 0 (vnode0 1) ∅ (store_of fg_pair) = Ok (tt, s')
    ∧ graphs s' !! 0 = Some G'
    ∧ wf G'
    ∧ graph G' = graph fg_pair
    ∧ NX.nodes G' = add_key (NX.nodes fg_pair) (vnode0 1)
    ∧ (∀ x, x ≠ vnode0 1 → Dict.get (node G') x = Dict.get (node fg_pair) x)
    ∧ (∀ x y, edge_data G' x y = edge_data fg_pair x y)
    ∧ NX.number_of_edges G' = NX.number_of_edges fg_pair
    ∧ (∀ x, x ≠ vnode0 1 →
            Dict.get (node_graph s') x = Dict.get (node_graph (store_of fg_pair)) x)
    ∧ (∀ g, g ≠ 0 → graphs s' !! g = graphs (store_of fg_pair) !! g).
Proof.
  apply (set_node_frame (store_of fg_pair) 0 fg_pair (vnode0 1) variable_node ∅).
  - reflexivity.
  - apply wf_fg_pair.
  - reflexivity.
Defined.

(** X4: the edge between the two nodes of [fg_pair]. *)
Lemma set_edge_spec_witness :
  ∃ s' G',
    set_edge 0 (vnode0 0) (fnode0 0 VNone) None (store_of fg_pair) = Ok (tt, s')
    ∧ graphs s' !! 0 = Some G'
    ∧ wf G'
    ∧ node_graph s' = node_graph (store_of fg_pair)
    ∧ NX.nodes G' = add_key (add_key (NX.nodes fg_pair) (vnode0 0)) (fnode0 0 VNone)
    ∧ (vnode0 0 ∈ NX.nodes fg_pair → fnode0 0 VNone ∈ NX.nodes fg_pair →
       node G' = node fg_pair)
    ∧ edge_data G' (vnode0 0) (fnode0 0 VNone)
      = Some (<["object" := VEdge (mkEdge (vnode0 0) (fnode0 0 VNone) None)]>
                (default ∅ (edge_data fg_pair (vnode0 0) (fnode0 0 VNone))))
    ∧ edge_data G' (fnode0 0 VNone) (vnode0 0) = edge_data G' (vnode0 0) (fnode0 0 VNone)
    ∧ (∀ x y, ¬ same_edge (x, y) (vnode0 0, fnode0 0 VNone) →
              edge_data G' x y = edge_data fg_pair x y)
    ∧ NX.number_of_edges G'
      = NX.number_of_edges fg_pair
        + (if NX.has_edge fg_pair (vnode0 0) (fnode0 0 VNone) then 0 else 1).
Proof.
  apply (set_edge_spec (store_of fg_pair) 0 fg_pair (vnode0 0) (fnode0 0 VNone) None).
  - reflexivity.
  - apply wf_fg_pair.
Defined.

(** X5: the same edge given as a list. *)
Lemma set_edges_spec_witness :
  ∃ s' G',
    set_edges 0 [(vnode0 0, fnode0 0 VNone)] (store_of fg_pair) = Ok (tt, s')
    ∧ graphs s' !! 0 = Some G'
    ∧ wf G'
    ∧ node_graph s' = node_graph (store_of fg_pair)
    ∧ (∀ x y, NX.has_edge G' x y = true ↔
              NX.has_edge fg_pair x y = true
              ∨ ∃ e, e ∈ [(vnode0 0, fnode0 0 VNone)] ∧ same_edge (x, y) e)
    ∧ (∀ x, x ∈ NX.nodes G' ↔
            x ∈ NX.nodes fg_pair
            ∨ ∃ e, e ∈ [(vnode0 0, fnode0 0 VNone)] ∧ (x = e.1 ∨ x = e.2))
    ∧ ((∀ e, e ∈ [(vnode0 0, fnode0 0 VNone)] →
             e.1 ∈ NX.nodes fg_pair ∧ e.2 ∈ NX.nodes fg_pair) →
       node G' = node fg_pair)
    ∧ (distinct_edges [(vnode0 0, fnode0 0 VNone)] →
       (∀ e, e ∈ [(vnode0 0, fnode0 0 VNone)] → NX.has_edge fg_pair e.1 e.2 = false) →
       NX.number_of_edges G' = NX.number_of_edges fg_pair + length [(vnode0 0, fnode0 0 VNone)]).
Proof.
  apply (set_edges_spec (store_of fg_pair) 0 fg_pair [(vnode0 0, fnode0 0 VNone)]).
  - reflexivity.
  - apply wf_fg_pair.
Defined.

(** X6: a variable node inserted twice with a keyword. *)
Lemma set_node_idempotent_witness :
  ∃ s',
    set_node 0 (vnode0 0) {["color" := VInt 1]} (store_of FG0) = Ok (tt, s')
    ∧ set_node 0 (vnode0 0) {["color" := VInt 1]} s' = Ok (tt, s').
Proof.
  apply (set_node_idempotent (store_of FG0) 0 FG0 (vnode0 0) variable_node).
  - reflexivity.
  - reflexivity.
Defined.

(** X7 on scenario B. *)
Lemma result_attributes_witness :
  ∃ fg s' out,
    convert_to_fg vnode0 fnode0 0 true (store_of two_to_one) = Ok (fg, s')
    ∧ graphs s' !! fg = Some out
    ∧ graph out = {["name" := VStr "Factor Graph"]}
    ∧ ∀ n d, (n, d) ∈ node out →
        ∃ t, node_type n = Some t
             ∧ ((∃ a, a ∈ NX.nodes two_to_one
                      ∧ d = <["origin" := VNode a]> {["type" := VType t]})
                ∨ (true = false ∧ t = factor_node ∧ d = {["type" := VType t]})).
Proof.
  apply (result_attributes vnode0 fnode0 (store_of two_to_one) 0 two_to_one true).
  - reflexivity.
  - apply wf_two_to_one.
  - apply factories_two_to_one.
  - intros _. apply two_parts_pre, two_parts_two_to_one.
Defined.

(** X8 on the path a - b - c. *)
Lemma variable_index_order_witness :
  ∃ fg s' out,
    convert_to_fg vnode0 fnode0 0 false (store_of path3) = Ok (fg, s')
    ∧ graphs s' !! fg = Some out
    ∧ ∀ i n, NX.nodes path3 !! i = Some n →
        type_in out (vnode0 (NX.number_of_nodes path3 - 1 - i)) = Some (VType variable_node)
        ∧ origin_in out (vnode0 (NX.number_of_nodes path3 - 1 - i)) = Some (VNode n).
Proof.
  apply (variable_index_order vnode0 fnode0 (store_of path3) 0 path3).
  - reflexivity.
  - apply wf_path3.
  - apply factories_path3.
Defined.

(** X9 on the empty graph, with [bipartite]. *)
Lemma convert_empty_witness :
  ∃ s',
    convert_to_fg vnode0 fnode0 0 true (store_of NX.empty)
    = Ok (length (graphs (store_of NX.empty)), s')
    ∧ graphs s' !! length (graphs (store_of NX.empty)) = Some FG0
    ∧ node_graph s' = node_graph (store_of NX.empty).
Proof.
  apply (convert_empty vnode0 fnode0 (store_of NX.empty) 0 NX.empty true).
  - reflexivity.
  - apply wf_empty.
  - reflexivity.
Defined.

(** X10 on scenario B: two variable nodes, one factor node, two edges. *)
Lemma bipartite_counts_witness :
  ∃ fg s' out vs fs,
    convert_to_fg vnode0 fnode0 0 true (store_of two_to_one) = Ok (fg, s')
    ∧ graphs s' !! fg = Some out
    ∧ get_vnodes fg s' = Ok (vs, s')
    ∧ (∀ x, x ∈ vs ↔
            ∃ a, a ∈ part_nodes 0 (node two_to_one) ∧ origin_in out x = Some (VNode a))
    ∧ length vs = length (part_nodes 0 (node two_to_one))
    ∧ get_fnodes fg s' = Ok (fs, s')
    ∧ (∀ x, x ∈ fs ↔
            ∃ a, a ∈ part_nodes 1 (node two_to_one) ∧ origin_in out x = Some (VNode a))
    ∧ length fs = length (part_nodes 1 (node two_to_one))
    ∧ NX.number_of_nodes out = NX.number_of_nodes two_to_one
    ∧ NX.number_of_edges out = NX.number_of_edges two_to_one.
Proof.
  apply (bipartite_counts vnode0 fnode0 (store_of two_to_one) 0 two_to_one).
  - reflexivity.
  - apply wf_two_to_one.
  - apply factories_two_to_one.
  - apply two_parts_two_to_one.
Defined.

(** X11 on the path a - b - c. *)
Lemma factor_node_ends_witness :
  ∃ fg s' out,
    convert_to_fg vnode0 fnode0 0 false (store_of path3) = Ok (fg, s')
    ∧ graphs s' !! fg = Some out
    ∧ (∀ j, j < NX.number_of_edges path3 →
         ∃ a b x y,
           NX.has_edge path3 a b = true
           ∧ origin_in out x = Some (VNode a)
           ∧ origin_in out y = Some (VNode b)
           ∧ nbr_keys out (fnode0 j VNone) = pair_list x y)
    ∧ (∀ j j', j < NX.number_of_edges path3 → j' < NX.number_of_edges path3 →
         (∀ z, z ∈ nbr_keys out (fnode0 j VNone) ↔ z ∈ nbr_keys out (fnode0 j' VNone)) →
         j = j').
Proof.
  apply (factor_node_ends vnode0 fnode0 (store_of path3) 0 path3).
  - reflexivity.
  - apply wf_path3.
  - apply factories_path3.
Defined.

(** X12 with a kept node: the instance with part label 2. *)
Lemma result_owns_nodes_witness :
  ∃ fg s' out,
    convert_to_fg vnode0 fnode0 0 true (store_of with_kept) = Ok (fg, s')
    ∧ graphs s' !! fg = Some out
    ∧ (∀ x, x ∈ NX.nodes out → Dict.get (node_graph s') x = Some fg)
    ∧ (∀ x, x ∉ NX.nodes out →
            Dict.get (node_graph s') x = Dict.get (node_graph (store_of with_kept)) x).
Proof.
  apply (result_owns_nodes vnode0 fnode0 (store_of with_kept) 0 with_kept true).
  - reflexivity.
  - apply wf_with_kept.
  - apply factories_with_kept.
  - intros _. split; [apply labelled_with_kept|apply kept_typed_with_kept].
Defined.

(** X13 on the path a - b - c. *)
Lemma result_edge_objects_witness :
  ∃ fg s' out,
    convert_to_fg vnode0 fnode0 0 false (store_of path3) = Ok (fg, s')
    ∧ graphs s' !! fg = Some out
    ∧ ∀ x y, NX.has_edge out x y = true →
        ∃ d, edge_data out x y = Some d
             ∧ edge_data out y x = Some d
             ∧ edge_payload d x y.
Proof.
  apply (result_edge_objects vnode0 fnode0 (store_of path3) 0 path3 false).
  - reflexivity.
  - apply wf_path3.
  - apply factories_path3.
  - discriminate.
Defined.

(** X14: the builtin 7 with part label 2. *)
Lemma kept_untyped_raises_witness :
  ∃ n' d',
    (n', d') ∈ node odd_label
    ∧ has_part 0 d' = false ∧ has_part 1 d' = false
    ∧ node_type n' = None
    ∧ convert_to_fg vnode0 fnode0 0 true (store_of odd_label) = Raise (set_node_error n').
Proof.
  apply (kept_untyped_raises vnode0 fnode0 (store_of odd_label) 0 odd_label
           (Plain 7) {["bipartite" := VInt 2]}).
  - reflexivity.
  - apply wf_odd_label.
  - apply labelled_odd_label.
  - intros i. by eexists.
  - intros i. by eexists.
  - apply list_elem_of_In. vm_compute. auto.
  - reflexivity.
  - reflexivity.
  - reflexivity.
Defined.

(** X15 on a graph with a self-loop: 2 nodes, 2 edges, 1 self-loop give
    4 nodes and 3 edges. *)
Lemma edge_expansion_loops_witness :
  ∃ fg s' out,
    convert_to_fg vnode0 fnode0 0 false (store_of looped) = Ok (fg, s')
    ∧ graphs s' !! fg = Some out
    ∧ NX.number_of_nodes out = NX.number_of_nodes looped + NX.number_of_edges looped
    ∧ NX.number_of_edges out
      + length (filter (λ x, NX.has_edge looped x x = true) (NX.nodes looped))
      = 2 * NX.number_of_edges looped.
Proof.
  apply (edge_expansion_loops vnode0 fnode0 (store_of looped) 0 looped).
  - reflexivity.
  - apply wf_looped.
  - apply factories_looped.
Defined.

(** X16 on scenario B. *)
Lemma bipartite_edges_kept_witness :
  ∃ fg s' out,
    convert_to_fg vnode0 fnode0 0 true (store_of two_to_one) = Ok (fg, s')
    ∧ graphs s' !! fg = Some out
    ∧ ∀ x y, NX.has_edge out x y = true ↔
        ∃ a b, NX.has_edge two_to_one a b = true
               ∧ origin_in out x = Some (VNode a)
               ∧ origin_in out y = Some (VNode b).
Proof.
  apply (bipartite_edges_kept vnode0 fnode0 (store_of two_to_one) 0 two_to_one).
  - reflexivity.
  - apply wf_two_to_one.
  - apply factories_two_to_one.
  - apply two_parts_pre, two_parts_two_to_one.
  - apply two_parts_pre, two_parts_two_to_one.
Defined.

(** X17 on the graph with a self-loop. *)
Lemma every_edge_has_factor_witness :
  ∃ fg s' out,
    convert_to_fg vnode0 fnode0 0 false (store_of looped) = Ok (fg, s')
    ∧ graphs s' !! fg = Some out
    ∧ ∀ a b, NX.has_edge looped a b = true →
        ∃ j x y,
          j < NX.number_of_edges looped
          ∧ origin_in out x = Some (VNode a)
          ∧ origin_in out y = Some (VNode b)
          ∧ NX.has_edge out (fnode0 j VNone) x = true
          ∧ NX.has_edge out (fnode0 j VNone) y = true.
Proof.
  apply (every_edge_has_factor vnode0 fnode0 (store_of looped) 0 looped).
  - reflexivity.
  - apply wf_looped.
  - apply factories_looped.
Defined.
